(** * Rate-distortion sweep of [reconstructing_eae_kodak.py]

    A shallow embedding of the two sweep functions of the script,
    [fix_gamma] and [vary_gamma_fix_bin_widths], and of the numeric
    helpers they call.

    Numbers.  The latent variables, the means and the quantization bin
    widths are [numpy.float32] arrays in the script; they are modelled by
    exact rationals ([Q]), so every statement about them is a statement
    about the arithmetic the script approximates, not about rounding
    errors of the floating-point unit.  The two result matrices hold
    [numpy.float64] values; since a PSNR is a logarithm and may be
    infinite, they are modelled by real numbers extended with [+oo].

    Arrays.  A [numpy.ndarray] is a shape together with an indexing
    function.  Element-wise operations follow the broadcasting rule of
    numpy for two arrays of the same rank. *)

From Stdlib Require Import List ZArith QArith Qround Lia Reals Lra Lqa Bool Arith.
Import ListNotations.

Set Implicit Arguments.
Open Scope nat_scope.

(** ** Exceptions *)

(** The exceptions a run can end with: those Python and numpy raise by
    themselves and those of the collaborators. *)
Inductive exn : Type :=
| AssertionError
| ValueError
| IndexError
| ZeroDivisionError
| ModelLoadError
| ShapeMismatchError
| UncodableChannelError
| OSError.

(** A fallible value: [inl e] is the exception [e] raised. *)
Definition result (A : Type) : Type := (exn + A)%type.

(** ** Numbers *)

Module Numeric.

Local Open Scope Q_scope.

(** Rounding to the nearest integer, ties away from zero. *)
Definition round_half_away (q : Q) : Z :=
  if Qle_bool 0 q then Qfloor (q + (1 # 2)) else Qceiling (q - (1 # 2)).

(** A [numpy.float64] cell of a result matrix. *)
Inductive float64 : Type :=
| Finite (r : R)
| PlusInf.

Definition log10 (x : R) : R := (ln x / ln 10)%R.

Lemma round_half_away_Z (z : Z) : round_half_away (inject_Z z) = z.
Proof.
  unfold round_half_away.
  destruct (Qle_bool 0 (inject_Z z)).
  - assert (L : inject_Z z <= inject_Z z + (1 # 2)) by lra.
    assert (U : inject_Z z + (1 # 2) < inject_Z (z + 1)).
    { rewrite inject_Z_plus. change (inject_Z 1) with 1. lra. }
    pose proof (Qfloor_le (inject_Z z + (1 # 2))) as F1.
    pose proof (Qlt_floor (inject_Z z + (1 # 2))) as F2.
    apply Qfloor_resp_le in L. rewrite Qfloor_Z in L.
    assert (inject_Z (Qfloor (inject_Z z + (1 # 2))) < inject_Z (z + 1)) as K by lra.
    rewrite <- Zlt_Qlt in K. lia.
  - assert (L : inject_Z z - (1 # 2) <= inject_Z z) by lra.
    assert (U : inject_Z (z - 1) < inject_Z z - (1 # 2)).
    { unfold Z.sub. rewrite inject_Z_plus, inject_Z_opp. change (inject_Z 1) with 1. lra. }
    pose proof (Qle_ceiling (inject_Z z - (1 # 2))) as F1.
    apply Qceiling_resp_le in L. rewrite Qceiling_Z in L.
    assert (inject_Z (z - 1) < inject_Z (Qceiling (inject_Z z - (1 # 2)))) as K by lra.
    rewrite <- Zlt_Qlt in K. lia.
Qed.


Lemma round_half_away_mono (x y : Q) :
  x <= y -> (round_half_away x <= round_half_away y)%Z.
Proof.
  intros L. unfold round_half_away.
  destruct (Qle_bool 0 x) eqn:Ex; destruct (Qle_bool 0 y) eqn:Ey.
  - apply Qfloor_resp_le. lra.
  - apply Qle_bool_iff in Ex.
    assert (~ 0 <= y) as N by (rewrite <- Qle_bool_iff; congruence). lra.
  - assert (~ 0 <= x) as N by (rewrite <- Qle_bool_iff; congruence).
    apply Qle_bool_iff in Ey.
    apply Z.le_trans with 0%Z.
    + change 0%Z with (Qceiling (inject_Z 0)). apply Qceiling_resp_le.
      change (inject_Z 0) with 0. lra.
    + change 0%Z with (Qfloor (inject_Z 0)). apply Qfloor_resp_le.
      change (inject_Z 0) with 0. lra.
  - apply Qceiling_resp_le. lra.
Qed.

End Numeric.
Export Numeric.

(** ** Arrays *)

Module Ndarray.

(** [numpy.ndarray] of rank 2, 3 and 4: the shape and the items. *)
Record array2 (A : Type) : Type :=
  Array2 { shape2 : nat * nat; at2 : nat -> nat -> A }.

Record array3 (A : Type) : Type :=
  Array3 { shape3 : nat * nat * nat; at3 : nat -> nat -> nat -> A }.

Record array4 (A : Type) : Type :=
  Array4 { shape4 : nat * nat * nat * nat; at4 : nat -> nat -> nat -> nat -> A }.

Definition in_shape2 (sh : nat * nat) (i j : nat) : Prop :=
  let '(n, m) := sh in i < n /\ j < m.

Definition in_shape4 (sh : nat * nat * nat * nat) (i r c k : nat) : Prop :=
  let '(n, h, w, d) := sh in i < n /\ r < h /\ c < w /\ k < d.

(** Two rational arrays are the same array: same shape, and equal items
    at every index of the shape. *)
Definition array4_eq (a b : array4 Q) : Prop :=
  shape4 a = shape4 b /\
  forall i r c k, in_shape4 (shape4 a) i r c k -> at4 a i r c k == at4 b i r c k.

(** [numpy.zeros((n, m))]. *)
Definition zeros (n m : nat) : array2 float64 :=
  Array2 (n, m) (fun _ _ => Finite 0).

(** [a[i, j]] for [i], [j] computed by [range]: never negative. *)
Definition getitem (A : Type) (a : array2 A) (i j : nat) : result A :=
  let '(n, m) := shape2 a in
  if (i <? n) && (j <? m) then inr (at2 a i j) else inl IndexError.

(** [a[i, j] = v]: the item is replaced; out of the shape, numpy raises. *)
Definition setitem (A : Type) (a : array2 A) (i j : nat) (v : A) : result (array2 A) :=
  let '(n, m) := shape2 a in
  if (i <? n) && (j <? m)
  then inr (Array2 (n, m)
              (fun i' j' => if (i' =? i) && (j' =? j) then v else at2 a i' j'))
  else inl IndexError.

(** [a[j, :, :]]. *)
Definition slice3 (A : Type) (a : array3 A) (j : nat) : result (array2 A) :=
  let '(n, h, w) := shape3 a in
  if j <? n then inr (Array2 (h, w) (at3 a j)) else inl IndexError.

(** [a[j, :, :, :]]. *)
Definition slice4 (A : Type) (a : array4 A) (j : nat) : result (array3 A) :=
  let '(n, h, w, d) := shape4 a in
  if j <? n then inr (Array3 (h, w, d) (at4 a j)) else inl IndexError.

(** [numpy.squeeze(a, axis=3)]: the last axis must have one entry. *)
Definition squeeze_axis3 (A : Type) (a : array4 A) : result (array3 A) :=
  let '(n, h, w, d) := shape4 a in
  if d =? 1 then inr (Array3 (n, h, w) (fun i r c => at4 a i r c 0))
  else inl ValueError.

Definition map4 (A B : Type) (f : A -> B) (a : array4 A) : array4 B :=
  Array4 (shape4 a) (fun i r c k => f (at4 a i r c k)).

(** [numpy.tile(v, (n, h, w, 1))] for a vector [v]. *)
Definition tile (v : list Q) (n h w : nat) : array4 Q :=
  Array4 (n, h, w, length v) (fun _ _ _ k => nth k v 0%Q).

(** Broadcasting of one axis: the two sizes agree, or one of them is 1. *)
Definition broadcast_dim (a b : nat) : option nat :=
  if a =? b then Some a
  else if a =? 1 then Some b
  else if b =? 1 then Some a
  else None.

(** The index read along an axis of size [d]. *)
Definition broadcast_idx (d i : nat) : nat := if d =? 1 then 0 else i.

(** [x op y] for two arrays of rank 4. *)
Definition broadcast4 (op : Q -> Q -> Q) (x y : array4 Q) : result (array4 Q) :=
  let '(xn, xh, xw, xd) := shape4 x in
  let '(yn, yh, yw, yd) := shape4 y in
  match broadcast_dim xn yn, broadcast_dim xh yh,
        broadcast_dim xw yw, broadcast_dim xd yd with
  | Some n, Some h, Some w, Some d =>
      inr (Array4 (n, h, w, d)
             (fun i r c k =>
                op (at4 x (broadcast_idx xn i) (broadcast_idx xh r)
                          (broadcast_idx xw c) (broadcast_idx xd k))
                   (at4 y (broadcast_idx yn i) (broadcast_idx yh r)
                          (broadcast_idx yw c) (broadcast_idx yd k))))
  | _, _, _, _ => inl ValueError
  end.

Lemma broadcast_dim_same (n : nat) : broadcast_dim n n = Some n.
Proof. unfold broadcast_dim. now rewrite Nat.eqb_refl. Qed.

Lemma broadcast_idx_lt (d i : nat) : i < d -> broadcast_idx d i = i.
Proof.
  unfold broadcast_idx. intros L.
  destruct (Nat.eqb_spec d 1); [lia | reflexivity].
Qed.

Lemma getitem_setitem_same (A : Type) (a a' : array2 A) i j v :
  setitem a i j v = inr a' -> getitem a' i j = inr v.
Proof.
  unfold setitem, getitem. destruct (shape2 a) as [n m].
  destruct ((i <? n) && (j <? m)) eqn:B; [|discriminate].
  intros E. injection E as <-. cbn [shape2 at2]. rewrite B.
  now rewrite !Nat.eqb_refl.
Qed.

Lemma getitem_setitem_other (A : Type) (a a' : array2 A) i j v i' j' :
  setitem a i j v = inr a' -> (i', j') <> (i, j) ->
  getitem a' i' j' = getitem a i' j'.
Proof.
  unfold setitem, getitem. destruct (shape2 a) as [n m].
  destruct ((i <? n) && (j <? m)) eqn:B; [|discriminate].
  intros E N. injection E as <-. cbn [shape2 at2].
  destruct (Nat.eqb_spec i' i) as [->|]; destruct (Nat.eqb_spec j' j) as [->|];
    cbn; try reflexivity.
  now contradiction N.
Qed.

Lemma setitem_shape (A : Type) (a a' : array2 A) i j v :
  setitem a i j v = inr a' -> shape2 a' = shape2 a.
Proof.
  unfold setitem. destruct (shape2 a) as [n m].
  destruct ((i <? n) && (j <? m)); [|discriminate].
  now intros E; injection E as <-.
Qed.

Lemma setitem_in_shape (A : Type) (a : array2 A) i j v :
  in_shape2 (shape2 a) i j -> exists a', setitem a i j v = inr a'.
Proof.
  unfold setitem, in_shape2. destruct (shape2 a) as [n m]. intros [Hi Hj].
  apply Nat.ltb_lt in Hi, Hj. rewrite Hi, Hj. cbn. eauto.
Qed.

End Ndarray.
Export Ndarray.

(** ** The helpers of [tools/tools.py] *)

Module Tools.

Local Open Scope Q_scope.

(** Modelled from the spec: [tls.quantize_per_map] is defined in
    [tools/tools.py], which is not among the sources.  Section 4.3:
    [round_to_nearest(centered / bin_widths) * bin_widths], ties away
    from zero, applied independently per channel and broadcast over the
    image and spatial axes. *)
Definition quantize_sample (x b : Q) : Q :=
  inject_Z (round_half_away (x / b)) * b.

(** Modelled from the spec: see [quantize_sample].  The data model
    requires the bin-width vector to have one entry per channel. *)
Definition quantize_per_map (x : array4 Q) (bin_widths : list Q) : result (array4 Q) :=
  let '(n, h, w, d) := shape4 x in
  if d =? length bin_widths
  then inr (Array4 (n, h, w, d)
              (fun i r c k => quantize_sample (at4 x i r c k) (nth k bin_widths 0)))
  else inl ShapeMismatchError.

(** Modelled from the spec: [tls.cast_bt601] is defined in
    [tools/tools.py].  Section 4.5, step 1: the reconstruction is cast to
    the sample format of the reference, clipped to the valid digital
    range, which the script gives as [|16, 235|].  The specification does
    not say how the cast rounds; it rounds here as the quantizer does,
    and the statements below use only that it leaves integers alone. *)
Definition cast_bt601_sample (x : Q) : Z :=
  Z.max 16 (Z.min 235 (round_half_away x)).

Definition cast_bt601 (x : array4 Q) : array4 Z := map4 cast_bt601_sample x.

(** The pixels of an image, row by row. *)
Definition pixels (h w : nat) : list (nat * nat) :=
  list_prod (seq 0 h) (seq 0 w).

Definition sum_sq_diff (a b : nat -> nat -> Z) (ps : list (nat * nat)) : Z :=
  fold_right (fun p acc => ((a (fst p) (snd p) - b (fst p) (snd p)) ^ 2 + acc)%Z) 0%Z ps.

(** Modelled from the spec: section 4.5, step 2,
    [mse = mean((reference - reconstruction)^2)].  The specification does
    not say what the mean of no pixel is; the statements about [mse]
    below are about images that have pixels. *)
Definition mse (reference reconstruction : array2 Z) : Q :=
  let '(h, w) := shape2 reference in
  inject_Z (sum_sq_diff (at2 reference) (at2 reconstruction) (pixels h w))
  / inject_Z (Z.of_nat (h * w)).

(** The full range of an 8-bit sample. *)
Definition peak : Q := 255.

(** Modelled from the spec: [tls.psnr_2d] is defined in [tools/tools.py].
    Section 4.5, steps 2 and 3, and the shape check of the section. *)
Definition psnr_2d (reference reconstruction : array2 Z) : result float64 :=
  let '(h, w) := shape2 reference in
  let '(h', w') := shape2 reconstruction in
  if (h =? h')%nat && (w =? w')%nat then
    let m := mse reference reconstruction in
    if Qeq_bool m 0 then inr PlusInf
    else inr (Finite (10 * log10 (Q2R (peak * peak / m))))
  else inl ShapeMismatchError.

End Tools.
Export Tools.

(** ** The sweep engine *)

Module Sweep.

(** *** Collaborators and their artifacts *)

(** A trained entropy autoencoder: the values the script formats into
    [suffix] and the training index. *)
Record checkpoint : Type := Checkpoint {
  ckpt_bin_width_init : Q;
  ckpt_gamma_scaling : Q;
  ckpt_idx_training : Z;
  ckpt_learned : bool
}.

(** The files the script names by formatting strings. *)
Inductive path : Type :=
| BinaryProbabilities (c : checkpoint) (multiplier : Q)
| StorageFixGamma (c : checkpoint) (lossless : bool) (multiplier : Q)
| StorageVaryGamma (c : checkpoint)
| Reconstruction (storage : path) (j : nat)
| ReconstructionCrop (storage : path) (j index_crop : nat).

(** The two graphs a run builds. *)
Inductive model : Type :=
| EntropyAutoencoder (c : checkpoint) (h_in w_in : nat)
| IsolatedDecoder (nb_images h_in w_in : nat) (learned : bool).

Inductive matrix : Type := Rate | Psnr.

(** What a run does to the world outside of its local variables, and the
    writes into its two matrices, in the order they happen. *)
Inductive event : Type :=
| Build (m : model)
| SessionEnter
| SessionExit
| ResetDefaultGraph
| Restore (c : checkpoint)
| RunEncoder (c : checkpoint)
| RunDecoder (c : checkpoint) (quantized_y : array4 Q)
| Compress (maps : array3 Q) (bin_widths : list Q) (probabilities : path)
           (idx_map_exception : list nat)
| SetItem (m : matrix) (i j : nat) (v : float64).

(** The code of the repository and of its libraries that is called by the
    two functions and is not among the sources.  Each of them may raise. *)
Record env : Type := Env {
  construct : model -> option exn;
  initialization : model -> checkpoint -> option exn;
  encode_mini_batches : checkpoint -> array3 Z -> result (array4 Q);
  get_bin_widths : checkpoint -> result (list Q);
  load_map_mean : checkpoint -> result (list Q);
  load_idx_map_exception : checkpoint -> result (list nat);
  run_node_reconstruction : checkpoint -> array4 Q -> result (array4 Q);
  rescale_compress_lossless_maps :
    array3 Q -> list Q -> path -> list nat -> result Z;
  rate_3d : array3 Q -> list Q -> nat -> nat -> result float64;
  visualize_rotated_luminance :
    array2 Z -> bool -> array2 Z -> list path -> option exn
}.

(** *** State and exceptions *)

(** The trace of the run and its two local matrices. *)
Record state : Type := State {
  log : list event;
  rate : array2 float64;
  psnr : array2 float64
}.

Definition M (A : Type) : Type := state -> result A * state.

Definition ret (A : Type) (a : A) : M A := fun s => (inr a, s).

Definition raise {A : Type} (e : exn) : M A := fun s => (inl e, s).

Definition bind (A B : Type) (m : M A) (k : A -> M B) : M B :=
  fun s => match m s with
           | (inr a, s') => k a s'
           | (inl e, s') => (inl e, s')
           end.

Declare Scope sweep_scope.
Delimit Scope sweep_scope with sweep.
Notation "x <- m ;; k" := (bind m (fun x => k))
  (at level 61, m at next level, right associativity) : sweep_scope.
Notation "m ;; k" := (bind m (fun _ => k))
  (at level 61, right associativity) : sweep_scope.
Local Open Scope sweep_scope.

(** A pure computation that may raise. *)
Definition lift (A : Type) (r : result A) : M A :=
  fun s => (r, s).

(** A call that returns nothing and may raise. *)
Definition check (o : option exn) : M unit :=
  match o with
  | Some e => raise e
  | None => ret tt
  end.

Definition emit (e : event) : M unit :=
  fun s => (inr tt, State (log s ++ [e]) (rate s) (psnr s)).

(** [for x in xs: body(x)]. *)
Fixpoint for_each (A : Type) (xs : list A) (body : A -> M unit) : M unit :=
  match xs with
  | [] => ret tt
  | x :: xs' => body x ;; for_each xs' body
  end.

(** [for i in range(n): body(i)]. *)
Definition for_range (n : nat) (body : nat -> M unit) : M unit :=
  for_each (seq 0 n) body.

(** [with tf.Session() as sess: body]: the session is closed when the
    block is left, by its end or by an exception. *)
Definition with_session (A : Type) (body : M A) : M A :=
  fun s => let '(r, s') := (emit SessionEnter ;; body) s in
           (r, snd (emit SessionExit s')).

(** [tf.reset_default_graph()]. *)
Definition reset_default_graph : M unit := emit ResetDefaultGraph.

(** [rate = numpy.zeros(...)] and [psnr = numpy.zeros(...)]. *)
Definition allocate (nb_points nb_images : nat) : M unit :=
  fun s => (inr tt, State (log s) (zeros nb_points nb_images) (zeros nb_points nb_images)).

(** [rate[i, j] = v]. *)
Definition set_rate (i j : nat) (v : float64) : M unit :=
  fun s => match setitem (rate s) i j v with
           | inr a => (inr tt, State (log s ++ [SetItem Rate i j v]) a (psnr s))
           | inl e => (inl e, s)
           end.

(** [psnr[i, j] = v]. *)
Definition set_psnr (i j : nat) (v : float64) : M unit :=
  fun s => match setitem (psnr s) i j v with
           | inr a => (inr tt, State (log s ++ [SetItem Psnr i j v]) (rate s) a)
           | inl e => (inl e, s)
           end.

(** [return (rate, psnr)]. *)
Definition return_matrices : M (array2 float64 * array2 float64) :=
  fun s => (inr (rate s, psnr s), s).

(** [xs[i]] for [i] computed by [range]. *)
Definition index (A : Type) (xs : list A) (i : nat) : result A :=
  match nth_error xs i with
  | Some x => inr x
  | None => inl IndexError
  end.

(** [float(nb_bits)/(h_in*w_in)] on Python numbers. *)
Definition true_div (nb_bits : Z) (d : nat) : result float64 :=
  if d =? 0 then inl ZeroDivisionError
  else inr (Finite (IZR nb_bits / INR d)).

(** The list [paths] handed to the visualization. *)
Definition paths_of (storage : path) (positions_top_left : array2 Z) (j : nat) : list path :=
  Reconstruction storage j
  :: map (ReconstructionCrop storage j) (seq 0 (snd (shape2 positions_top_left))).

(** [j in list_rotation]. *)
Definition is_rotated (list_rotation : list nat) (j : nat) : bool :=
  existsb (Nat.eqb j) list_rotation.

Section Functions.

Variable E : env.

(** Parameters the two functions share. *)
Variable reference_uint8 : array3 Z.
Variable bin_width_init : Q.
Variable list_rotation : list nat.
Variable positions_top_left : array2 Z.

Definition nb_images : nat := fst (fst (shape3 reference_uint8)).
Definition h_in : nat := snd (fst (shape3 reference_uint8)).
Definition w_in : nat := snd (shape3 reference_uint8).

(** The construction of a graph: its nodes are in the default graph even
    when the constructor ends with an exception. *)
Definition build (m : model) : M unit :=
  emit (Build m) ;; check (construct E m).

Definition restore (m : model) (c : checkpoint) : M unit :=
  emit (Restore c) ;; check (initialization E m c).

(** The first [with] block of both functions. *)
Definition encode (entropy_ae : model) (c : checkpoint) : M (array4 Q * list Q) :=
  with_session (
    restore entropy_ae c ;;
    emit (RunEncoder c) ;;
    y_float32 <- lift (encode_mini_batches E c reference_uint8) ;;
    bin_widths <- lift (get_bin_widths E c) ;;
    ret (y_float32, bin_widths)).

(** [sess.run(isolated_decoder.node_reconstruction, feed_dict=...)]. *)
Definition decode (c : checkpoint) (quantized_y : array4 Q) : M (array4 Q) :=
  emit (RunDecoder c quantized_y) ;;
  lift (run_node_reconstruction E c quantized_y).

(** The end of the body of both loops over the images. *)
Definition score (storage : path) (reconstruction_uint8 : array3 Z) (i j : nat) : M unit :=
  reference_j <- lift (slice3 reference_uint8 j) ;;
  reconstruction_j <- lift (slice3 reconstruction_uint8 j) ;;
  p <- lift (psnr_2d reference_j reconstruction_j) ;;
  set_psnr i j p ;;
  check (visualize_rotated_luminance E reconstruction_j
           (is_rotated list_rotation j) positions_top_left
           (paths_of storage positions_top_left j)).

Section FixGamma.

Variable multipliers : list Q.
Variable idx_training : Z.
Variable gamma_scaling : Q.
Variable are_bin_widths_learned : bool.
Variable is_lossless : bool.

Definition fix_gamma_checkpoint : checkpoint :=
  Checkpoint bin_width_init gamma_scaling idx_training are_bin_widths_learned.

(** Lines 187 to 206: the body of the loop over the images. *)
Definition fix_gamma_image (multiplier : Q) (bin_widths_test : list Q)
    (idx_map_exception : list nat) (centered_quantized_y : array4 Q)
    (reconstruction_uint8 : array3 Z) (i j : nat) : M unit :=
  let c := fix_gamma_checkpoint in
  (if is_lossless then
     maps <- lift (slice4 centered_quantized_y j) ;;
     emit (Compress maps bin_widths_test (BinaryProbabilities c multiplier)
             idx_map_exception) ;;
     nb_bits <- lift (rescale_compress_lossless_maps E maps bin_widths_test
                        (BinaryProbabilities c multiplier) idx_map_exception) ;;
     r <- lift (true_div nb_bits (h_in * w_in)) ;;
     set_rate i j r
   else
     maps <- lift (slice4 centered_quantized_y j) ;;
     r <- lift (rate_3d E maps bin_widths_test h_in w_in) ;;
     set_rate i j r) ;;
  score (StorageFixGamma c is_lossless multiplier) reconstruction_uint8 i j.

(** Lines 167 to 206: the body of the loop over the multipliers. *)
Definition fix_gamma_point (bin_widths : list Q) (tiled_map_mean : array4 Q)
    (idx_map_exception : list nat) (centered_y : array4 Q) (i : nat) : M unit :=
  multiplier <- lift (index multipliers i) ;;
  let bin_widths_test := map (Qmult multiplier) bin_widths in
  centered_quantized_y <- lift (quantize_per_map centered_y bin_widths_test) ;;
  off_centered_quantized_y <- lift (broadcast4 Qplus centered_quantized_y tiled_map_mean) ;;
  reconstruction_float32 <- decode fix_gamma_checkpoint off_centered_quantized_y ;;
  reconstruction_uint8 <- lift (squeeze_axis3 (cast_bt601 reconstruction_float32)) ;;
  for_range nb_images
    (fix_gamma_image multiplier bin_widths_test idx_map_exception
       centered_quantized_y reconstruction_uint8 i).

Definition fix_gamma : M (array2 float64 * array2 float64) :=
  let nb_points := length multipliers in
  let c := fix_gamma_checkpoint in
  let entropy_ae := EntropyAutoencoder c h_in w_in in
  let isolated_decoder := IsolatedDecoder nb_images h_in w_in are_bin_widths_learned in
  allocate nb_points nb_images ;;
  build entropy_ae ;;
  yb <- encode entropy_ae c ;;
  let '(y_float32, bin_widths) := yb in
  reset_default_graph ;;
  build isolated_decoder ;;
  map_mean <- lift (load_map_mean E c) ;;
  let '(_, h, w, _) := shape4 y_float32 in
  let tiled_map_mean := tile map_mean nb_images h w in
  idx_map_exception <-
    (if is_lossless then lift (load_idx_map_exception E c) else ret []) ;;
  centered_y <- lift (broadcast4 Qminus y_float32 tiled_map_mean) ;;
  with_session (
    restore isolated_decoder c ;;
    for_range nb_points
      (fix_gamma_point bin_widths tiled_map_mean idx_map_exception centered_y)) ;;
  reset_default_graph ;;
  return_matrices.

End FixGamma.

Section VaryGamma.

Variable idxs_training : list Z.
Variable gammas_scaling : list Q.

(** Lines 345 to 357: the body of the loop over the images. *)
Definition vary_gamma_image (c : checkpoint) (bin_widths : list Q)
    (quantized_y : array4 Q) (reconstruction_uint8 : array3 Z) (i j : nat) : M unit :=
  maps <- lift (slice4 quantized_y j) ;;
  r <- lift (rate_3d E maps bin_widths h_in w_in) ;;
  set_rate i j r ;;
  score (StorageVaryGamma c) reconstruction_uint8 i j.

(** Lines 293 to 357: the body of the loop over the scaling coefficients. *)
Definition vary_gamma_point (i : nat) : M unit :=
  gamma_scaling <- lift (index gammas_scaling i) ;;
  idx_training <- lift (index idxs_training i) ;;
  let c := Checkpoint bin_width_init gamma_scaling idx_training false in
  let entropy_ae := EntropyAutoencoder c h_in w_in in
  let isolated_decoder := IsolatedDecoder nb_images h_in w_in false in
  build entropy_ae ;;
  yb <- encode entropy_ae c ;;
  let '(y_float32, bin_widths) := yb in
  reset_default_graph ;;
  build isolated_decoder ;;
  quantized_y <- lift (quantize_per_map y_float32 bin_widths) ;;
  reconstruction_float32 <-
    with_session (restore isolated_decoder c ;; decode c quantized_y) ;;
  reset_default_graph ;;
  reconstruction_uint8 <- lift (squeeze_axis3 (cast_bt601 reconstruction_float32)) ;;
  for_range nb_images
    (vary_gamma_image c bin_widths quantized_y reconstruction_uint8 i).

Definition vary_gamma_fix_bin_widths : M (array2 float64 * array2 float64) :=
  let nb_points := length gammas_scaling in
  (if length idxs_training =? nb_points then ret tt else raise AssertionError) ;;
  allocate nb_points nb_images ;;
  for_range nb_points vary_gamma_point ;;
  return_matrices.

End VaryGamma.

End Functions.

End Sweep.
Export Sweep.

(** ** Reading a trace *)

Module Trace.

Local Open Scope sweep_scope.

(** The cells written, in order. *)
Fixpoint writes (evs : list event) : list (matrix * nat * nat) :=
  match evs with
  | [] => []
  | SetItem m i j _ :: evs' => (m, i, j) :: writes evs'
  | _ :: evs' => writes evs'
  end.

(** The writes with the value recorded. *)
Fixpoint recorded (evs : list event) : list (matrix * nat * nat * float64) :=
  match evs with
  | [] => []
  | SetItem m i j v :: evs' => (m, i, j, v) :: recorded evs'
  | _ :: evs' => recorded evs'
  end.

(** The tensors fed to the decoder, in order. *)
Fixpoint decoder_inputs (evs : list event) : list (array4 Q) :=
  match evs with
  | [] => []
  | RunDecoder _ y :: evs' => y :: decoder_inputs evs'
  | _ :: evs' => decoder_inputs evs'
  end.

(** The calls of the entropy coder, in order. *)
Fixpoint coder_calls (evs : list event)
  : list (array3 Q * list Q * path * list nat) :=
  match evs with
  | [] => []
  | Compress y b p x :: evs' => (y, b, p, x) :: coder_calls evs'
  | _ :: evs' => coder_calls evs'
  end.

(** The events that change what TensorFlow holds. *)
Definition is_tf (e : event) : bool :=
  match e with
  | Build _ | SessionEnter | SessionExit | ResetDefaultGraph => true
  | _ => false
  end.

Fixpoint tf_events (evs : list event) : list event :=
  match evs with
  | [] => []
  | e :: evs' => if is_tf e then e :: tf_events evs' else tf_events evs'
  end.

(** What TensorFlow holds: the models whose nodes are in the default
    graph and the number of open sessions. *)
Record tf_state : Type := Tf { graph : list model; sessions : nat }.

Definition tf_step (st : tf_state) (e : event) : tf_state :=
  match e with
  | Build m => Tf (m :: graph st) (sessions st)
  | SessionEnter => Tf (graph st) (S (sessions st))
  | SessionExit => Tf (graph st) (pred (sessions st))
  | ResetDefaultGraph => Tf [] (sessions st)
  | _ => st
  end.

Definition tf_run (st : tf_state) (evs : list event) : tf_state :=
  fold_left tf_step evs st.

(** [P] holds of what TensorFlow holds before the trace, after it and
    between any two of its events. *)
Fixpoint throughout (P : tf_state -> Prop) (st : tf_state) (evs : list event) : Prop :=
  P st /\ match evs with
          | [] => True
          | e :: evs' => throughout P (tf_step st e) evs'
          end.

(** At most one model is resident and at most one session is open. *)
Definition exclusive (st : tf_state) : Prop :=
  length (graph st) <= 1 /\ sessions st <= 1.

Definition idle : tf_state := Tf [] 0.

(** The matrix a name stands for. *)
Definition cells (m : matrix) (s : state) : array2 float64 :=
  match m with
  | Rate => rate s
  | Psnr => psnr s
  end.

(** From [s] to [s'] the run emitted [evs], kept the shape of the two
    matrices and left alone the cells [evs] does not write. *)
Definition frame (s s' : state) (evs : list event) : Prop :=
  log s' = log s ++ evs /\
  (forall m, shape2 (cells m s') = shape2 (cells m s)) /\
  (forall m i j, ~ In (m, i, j) (writes evs) ->
                 getitem (cells m s') i j = getitem (cells m s) i j).

Definition is_prefix (A : Type) (p l : list A) : Prop := exists q, l = p ++ q.

(** The writes of the evaluation of image [j] of configuration [i], of
    configuration [i], and of a sweep. *)
Definition image_writes (i j : nat) : list (matrix * nat * nat) :=
  [(Rate, i, j); (Psnr, i, j)].

Definition point_writes (nb_images i : nat) : list (matrix * nat * nat) :=
  flat_map (image_writes i) (seq 0 nb_images).

Definition sweep_writes (nb_points nb_images : nat) : list (matrix * nat * nat) :=
  flat_map (point_writes nb_images) (seq 0 nb_points).

(** *** Lists *)

Lemma writes_app (a b : list event) : writes (a ++ b) = writes a ++ writes b.
Proof.
  induction a as [|e a IH]; [reflexivity|]. destruct e; cbn; now rewrite ?IH.
Qed.

Lemma recorded_app (a b : list event) : recorded (a ++ b) = recorded a ++ recorded b.
Proof.
  induction a as [|e a IH]; [reflexivity|]. destruct e; cbn; now rewrite ?IH.
Qed.

Lemma decoder_inputs_app (a b : list event) :
  decoder_inputs (a ++ b) = decoder_inputs a ++ decoder_inputs b.
Proof.
  induction a as [|e a IH]; [reflexivity|]. destruct e; cbn; now rewrite ?IH.
Qed.

Lemma coder_calls_app (a b : list event) :
  coder_calls (a ++ b) = coder_calls a ++ coder_calls b.
Proof.
  induction a as [|e a IH]; [reflexivity|]. destruct e; cbn; now rewrite ?IH.
Qed.

Lemma tf_events_app (a b : list event) :
  tf_events (a ++ b) = tf_events a ++ tf_events b.
Proof.
  induction a as [|e a IH]; [reflexivity|]. destruct e; cbn; now rewrite ?IH.
Qed.

Lemma writes_recorded (evs : list event) :
  writes evs = map fst (recorded evs).
Proof.
  induction evs as [|e evs IH]; [reflexivity|]. destruct e; cbn; now rewrite ?IH.
Qed.

Lemma is_prefix_refl (A : Type) (l : list A) : is_prefix l l.
Proof. exists []. now rewrite app_nil_r. Qed.

Lemma is_prefix_nil (A : Type) (l : list A) : is_prefix [] l.
Proof. now exists l. Qed.

Lemma is_prefix_app (A : Type) (a p l : list A) :
  is_prefix p l -> is_prefix (a ++ p) (a ++ l).
Proof. intros [q ->]. exists q. now rewrite app_assoc. Qed.

Lemma is_prefix_app_r (A : Type) (p l r : list A) :
  is_prefix p l -> is_prefix p (l ++ r).
Proof. intros [q ->]. exists (q ++ r). now rewrite app_assoc. Qed.

Lemma is_prefix_In (A : Type) (p l : list A) (x : A) :
  is_prefix p l -> In x p -> In x l.
Proof. intros [q ->] H. apply in_or_app. now left. Qed.

Lemma is_prefix_NoDup (A : Type) (p l : list A) :
  is_prefix p l -> NoDup l -> NoDup p.
Proof. intros [q ->] H. now apply NoDup_app_remove_r in H. Qed.

Lemma in_image_writes (i j : nat) (w : matrix * nat * nat) :
  In w (image_writes i j) <-> w = (Rate, i, j) \/ w = (Psnr, i, j).
Proof. unfold image_writes. cbn. intuition congruence. Qed.

Lemma in_point_writes (n i : nat) (m : matrix) (i' j : nat) :
  In (m, i', j) (point_writes n i) <-> i' = i /\ j < n.
Proof.
  unfold point_writes. rewrite in_flat_map. split.
  - intros (x & Hx & Hw). apply in_seq in Hx. apply in_image_writes in Hw.
    destruct Hw as [Hw|Hw]; injection Hw as -> -> ->; lia.
  - intros [-> L]. exists j. split; [apply in_seq; lia|].
    apply in_image_writes. destruct m; auto.
Qed.

Lemma in_sweep_writes (p n : nat) (m : matrix) (i j : nat) :
  In (m, i, j) (sweep_writes p n) <-> i < p /\ j < n.
Proof.
  unfold sweep_writes. rewrite in_flat_map. split.
  - intros (x & Hx & Hw). apply in_seq in Hx. apply in_point_writes in Hw. lia.
  - intros [L1 L2]. exists i. split; [apply in_seq; lia|].
    now apply in_point_writes.
Qed.

Lemma NoDup_flat_map_disjoint (A B : Type) (f : A -> list B) (xs : list A) :
  NoDup xs ->
  (forall x, In x xs -> NoDup (f x)) ->
  (forall x y b, In x xs -> In y xs -> In b (f x) -> In b (f y) -> x = y) ->
  NoDup (flat_map f xs).
Proof.
  induction xs as [|x xs IH]; intros ND Hf Hd; cbn; [constructor|].
  inversion ND as [|? ? Hx ND']; subst.
  apply NoDup_app.
  - apply Hf. now left.
  - apply IH; auto.
    + intros; apply Hf; now right.
    + intros y z b Hy Hz; apply Hd; now right.
  - intros b Hb Hb'. apply in_flat_map in Hb' as (y & Hy & Hb').
    assert (x = y) by (apply (Hd x y b); cbn; auto).
    subst. contradiction.
Qed.

Lemma NoDup_image_writes (i j : nat) : NoDup (image_writes i j).
Proof.
  unfold image_writes. repeat constructor; cbn; intuition discriminate.
Qed.

Lemma NoDup_point_writes (n i : nat) : NoDup (point_writes n i).
Proof.
  unfold point_writes. apply NoDup_flat_map_disjoint.
  - apply seq_NoDup.
  - intros; apply NoDup_image_writes.
  - intros x y b _ _ Hx Hy. apply in_image_writes in Hx, Hy.
    destruct Hx as [->| ->], Hy as [Hy|Hy]; congruence.
Qed.

Lemma NoDup_sweep_writes (p n : nat) : NoDup (sweep_writes p n).
Proof.
  unfold sweep_writes. apply NoDup_flat_map_disjoint.
  - apply seq_NoDup.
  - intros; apply NoDup_point_writes.
  - intros x y [[m i] j] _ _ Hx Hy.
    apply in_point_writes in Hx, Hy. lia.
Qed.

End Trace.
Export Trace.

(** ** Reasoning about runs *)

Module Run.

Local Open Scope sweep_scope.

(** *** Frames *)

Lemma frame_refl (s : state) : frame s s [].
Proof.
  unfold frame. rewrite app_nil_r. auto.
Qed.

Lemma frame_trans (s s1 s2 : state) (a b : list event) :
  frame s s1 a -> frame s1 s2 b -> frame s s2 (a ++ b).
Proof.
  intros (L1 & S1 & C1) (L2 & S2 & C2). repeat split.
  - rewrite L2, L1. now rewrite app_assoc.
  - intros m. now rewrite S2.
  - intros m i j N. rewrite writes_app in N.
    rewrite C2, C1; auto; intros H; apply N; apply in_or_app; auto.
Qed.

Lemma frame_emit (e : event) (s : state) :
  writes [e] = [] -> frame s (snd (emit e s)) [e].
Proof.
  intros W. unfold frame, emit. cbn. repeat split; intros m; destruct m; reflexivity.
Qed.

Lemma frame_set_rate (i j : nat) (v : float64) (s s' : state) :
  set_rate i j v s = (inr tt, s') ->
  frame s s' [SetItem Rate i j v] /\ getitem (rate s') i j = inr v.
Proof.
  unfold set_rate. destruct (setitem (rate s) i j v) as [e|a] eqn:S; [discriminate|].
  intros H. injection H as <-. split; [|cbn; eapply getitem_setitem_same; eauto].
  unfold frame. cbn. repeat split.
  - intros [|]; cbn; [eapply setitem_shape; eauto | reflexivity].
  - intros [|] i' j' N; cbn; [|reflexivity].
    eapply getitem_setitem_other; eauto. intros K. apply N. left. congruence.
Qed.

Lemma frame_set_psnr (i j : nat) (v : float64) (s s' : state) :
  set_psnr i j v s = (inr tt, s') ->
  frame s s' [SetItem Psnr i j v] /\ getitem (psnr s') i j = inr v.
Proof.
  unfold set_psnr. destruct (setitem (psnr s) i j v) as [e|a] eqn:S; [discriminate|].
  intros H. injection H as <-. split; [|cbn; eapply getitem_setitem_same; eauto].
  unfold frame. cbn. repeat split.
  - intros [|]; cbn; [reflexivity | eapply setitem_shape; eauto].
  - intros [|] i' j' N; cbn; [reflexivity|].
    eapply getitem_setitem_other; eauto. intros K. apply N. left. congruence.
Qed.

Lemma set_rate_raise (i j : nat) (v : float64) (s s' : state) (e : exn) :
  set_rate i j v s = (inl e, s') -> s' = s.
Proof.
  unfold set_rate. destruct (setitem (rate s) i j v); intros H; now inversion H.
Qed.

Lemma set_psnr_raise (i j : nat) (v : float64) (s s' : state) (e : exn) :
  set_psnr i j v s = (inl e, s') -> s' = s.
Proof.
  unfold set_psnr. destruct (setitem (psnr s) i j v); intros H; now inversion H.
Qed.

(** *** What TensorFlow holds *)

Lemma tf_run_app (st : tf_state) (a b : list event) :
  tf_run st (a ++ b) = tf_run (tf_run st a) b.
Proof. apply fold_left_app. Qed.

Lemma throughout_app (P : tf_state -> Prop) (a b : list event) (st : tf_state) :
  throughout P st (a ++ b) <-> throughout P st a /\ throughout P (tf_run st a) b.
Proof.
  revert st. induction a as [|e a IH]; intros st; cbn.
  - destruct b; cbn; tauto.
  - rewrite IH. tauto.
Qed.

Lemma throughout_start (P : tf_state -> Prop) (st : tf_state) (evs : list event) :
  throughout P st evs -> P st.
Proof. destruct evs; cbn; tauto. Qed.

Lemma tf_run_quiet (st : tf_state) (evs : list event) :
  tf_events evs = [] -> tf_run st evs = st.
Proof.
  induction evs as [|e evs IH]; [reflexivity|].
  cbn. destruct (is_tf e) eqn:T; [discriminate|].
  intros H. unfold tf_run in *. cbn. destruct e; try discriminate; cbn; auto.
Qed.

Lemma throughout_quiet (P : tf_state -> Prop) (st : tf_state) (evs : list event) :
  tf_events evs = [] -> P st -> throughout P st evs.
Proof.
  induction evs as [|e evs IH]; [cbn; auto|].
  cbn [tf_events]. destruct (is_tf e) eqn:T; [discriminate|].
  intros H Hp. split; [assumption|].
  destruct e; try discriminate; cbn; auto.
Qed.

Lemma throughout_firstn (P : tf_state -> Prop) (st : tf_state) (evs : list event) :
  throughout P st evs <-> forall n, P (tf_run st (firstn n evs)).
Proof.
  revert st. induction evs as [|e evs IH]; intros st; cbn.
  - split; [intros [H _] n; now destruct n | intros H; split; auto; apply (H 0)].
  - rewrite IH. split.
    + intros [H0 H] [|n]; cbn; auto. apply H.
    + intros H. split; [apply (H 0)|]. intros n. apply (H (S n)).
Qed.

(** *** Loops *)

Lemma for_each_seq_spec (body : nat -> M unit)
    (I : nat -> state -> Prop) (F : nat -> state -> Prop) (n : nat) :
  (forall k s r s', k < n -> I k s -> body k s = (r, s') ->
     match r with
     | inr _ => I (S k) s'
     | inl _ => F k s'
     end) ->
  forall len start s r s', start + len = n -> I start s ->
    for_each (seq start len) body s = (r, s') ->
    match r with
    | inr _ => I n s'
    | inl _ => exists k, k < n /\ F k s'
    end.
Proof.
  intros Step len. induction len as [|len IH]; intros start s r s' L Hi Run.
  - cbn in Run. injection Run as <- <-. now replace n with start by lia.
  - cbn in Run. unfold bind in Run.
    destruct (body start s) as [[e|[]] s1] eqn:B.
    + injection Run as <- <-.
      assert (start < n) as Lt by lia.
      specialize (Step _ _ _ _ Lt Hi B). cbn in Step. eauto.
    + assert (start < n) as Lt by lia.
      specialize (Step _ _ _ _ Lt Hi B). cbn in Step.
      apply (IH (S start) s1); auto. lia.
Qed.

(** The rule of the loop [for k in range(n)]: [I k] holds when [k]
    iterations are complete, [F k] when iteration [k] raised. *)
Lemma for_range_spec (body : nat -> M unit)
    (I : nat -> state -> Prop) (F : nat -> state -> Prop) (n : nat) :
  (forall k s r s', k < n -> I k s -> body k s = (r, s') ->
     match r with
     | inr _ => I (S k) s'
     | inl _ => F k s'
     end) ->
  forall s r s', I 0 s -> for_range n body s = (r, s') ->
    match r with
    | inr _ => I n s'
    | inl _ => exists k, k < n /\ F k s'
    end.
Proof.
  intros Step s r s' Hi Run.
  unfold for_range in Run.
  eapply for_each_seq_spec with (start := 0) (len := n) (I := I); eauto.
Qed.

End Run.
Export Run.


(** ** The effect of the two loops *)

Module Effects.

Local Open Scope sweep_scope.

(** No event on TensorFlow and no run of the decoder. *)
Definition quiet (evs : list event) : Prop :=
  tf_events evs = [] /\ decoder_inputs evs = [].

(** The evaluation of image [j] of configuration [i]. *)
Definition image_effect (i j : nat) (s : state) (r : result unit) (s' : state)
    (evs : list event) : Prop :=
  frame s s' evs /\
  match r with
  | inr _ => writes evs = image_writes i j
  | inl _ => is_prefix (writes evs) (image_writes i j)
  end.

(** The evaluation of configuration [i] over [n] images: when it raises,
    [k] images are complete and [p] is what was written for the next. *)
Definition point_effect (n i : nat) (s : state) (r : result unit) (s' : state)
    (evs : list event) : Prop :=
  frame s s' evs /\
  match r with
  | inr _ => writes evs = point_writes n i
  | inl _ => exists k p, k <= n /\ (p = [] \/ k < n) /\
                         is_prefix p (image_writes i k) /\
                         writes evs = point_writes k i ++ p
  end.

(** One step of symbolic execution of a run: a case analysis on the next
    call that may raise. *)
Ltac run_step H :=
  match type of H with
  | context [match ?x with _ => _ end] =>
      lazymatch x with
      | context [match _ with _ => _ end] => fail
      | _ => destruct x eqn:?
      end
  end.

(** The conjuncts of a goal, without unfolding a definition. *)
Ltac splits := repeat match goal with |- _ /\ _ => split end.

(** What is left once the events of a run are known. *)
Ltac side :=
  cbn;
  first [ reflexivity | lia | exact I | assumption
        | apply is_prefix_nil | apply is_prefix_refl
        | split; reflexivity | eexists; reflexivity ].

(** The run raised before any event. *)
Ltac leaf_nil := exists []; splits; first [apply frame_refl | side].

(** A write that raised left the state as it was. *)
Ltac raised :=
  match goal with
  | H : set_rate _ _ _ _ = (inl _, _) |- _ => apply set_rate_raise in H; subst
  | H : set_psnr _ _ _ _ = (inl _, _) |- _ => apply set_psnr_raise in H; subst
  end.

(** A write that returned. *)
Ltac written :=
  match goal with
  | H : set_rate _ _ _ _ = (inr ?u, _) |- _ =>
      destruct u; apply frame_set_rate in H as [? ?]
  | H : set_psnr _ _ _ _ = (inr ?u, _) |- _ =>
      destruct u; apply frame_set_psnr in H as [? ?]
  end.

Lemma emit_frame (e : event) (s s' : state) (r : result unit) :
  emit e s = (r, s') -> writes [e] = [] -> r = inr tt /\ frame s s' [e].
Proof.
  intros H W. pose proof (@frame_emit e s W) as F. unfold emit in *.
  injection H as <- <-. auto.
Qed.

(** An event was emitted. *)
Ltac emitted :=
  match goal with
  | H : emit _ _ = (_, _) |- _ =>
      apply emit_frame in H; [|reflexivity];
      let E := fresh in destruct H as [E ?]; try discriminate E
  end.

(** The frame of a run from the frames of its steps. *)
Ltac frames :=
  match goal with
  | H : frame ?s ?s' _ |- frame ?s ?s' _ => exact H
  | |- frame ?s ?s _ => apply frame_refl
  | H : frame ?s _ _ |- frame ?s _ _ => eapply frame_trans; [exact H | frames]
  end.

(** A run made of calls whose frames are known. *)
Ltac leaf := eexists; splits; [frames | side ..].

Lemma quiet_nil : quiet [].
Proof. split; reflexivity. Qed.

Lemma quiet_app (a b : list event) : quiet a -> quiet b -> quiet (a ++ b).
Proof.
  intros [A1 A2] [B1 B2]. split.
  - now rewrite tf_events_app, A1, B1.
  - now rewrite decoder_inputs_app, A2, B2.
Qed.

Lemma point_writes_S (n i : nat) :
  point_writes (S n) i = point_writes n i ++ image_writes i n.
Proof.
  unfold point_writes. rewrite seq_S, flat_map_app. cbn [flat_map Nat.add].
  now rewrite app_nil_r.
Qed.

Lemma point_writes_prefix (k n i : nat) :
  k <= n -> is_prefix (point_writes k i) (point_writes n i).
Proof.
  induction 1 as [|n L IH]; [apply is_prefix_refl|].
  rewrite point_writes_S. now apply is_prefix_app_r.
Qed.

Lemma partial_point_prefix (k n i : nat) (p : list (matrix * nat * nat)) :
  k <= n -> p = [] \/ k < n -> is_prefix p (image_writes i k) ->
  is_prefix (point_writes k i ++ p) (point_writes n i).
Proof.
  intros L [->|L'] P.
  - rewrite app_nil_r. now apply point_writes_prefix.
  - destruct (point_writes_prefix i L') as [q Hq].
    rewrite Hq, point_writes_S, <- app_assoc.
    apply is_prefix_app, is_prefix_app_r, P.
Qed.

Section Images.

Variable E : env.
Variable reference_uint8 : array3 Z.
Variable list_rotation : list nat.
Variable positions_top_left : array2 Z.

Lemma score_effect storage reconstruction_uint8 i j s r s' :
  score E reference_uint8 list_rotation positions_top_left storage
    reconstruction_uint8 i j s = (r, s') ->
  exists evs, frame s s' evs /\ quiet evs /\ coder_calls evs = [] /\
    match r with
    | inr _ => writes evs = [(Psnr, i, j)]
    | inl _ => is_prefix (writes evs) [(Psnr, i, j)]
    end.
Proof.
  intros Run. unfold score, bind, lift, check in Run.
  repeat run_step Run; injection Run as <- <-;
    repeat (raised || written); try leaf_nil; leaf.
Qed.


(** What the evaluation of image [j] asks of the entropy coder. *)
Definition coder_effect (c : checkpoint) (is_lossless : bool) (multiplier : Q)
    (bin_widths_test : list Q) (idx_map_exception : list nat)
    (centered_quantized_y : array4 Q) (i j : nat)
    (r : result unit) (s' : state) (evs : list event) : Prop :=
  if is_lossless then
    match r with
    | inr _ =>
        exists maps nb_bits,
          slice4 centered_quantized_y j = inr maps /\
          coder_calls evs =
            [(maps, bin_widths_test, BinaryProbabilities c multiplier, idx_map_exception)] /\
          rescale_compress_lossless_maps E maps bin_widths_test
            (BinaryProbabilities c multiplier) idx_map_exception = inr nb_bits /\
          h_in reference_uint8 * w_in reference_uint8 <> 0 /\
          In (Rate, i, j,
              Finite (IZR nb_bits / INR (h_in reference_uint8 * w_in reference_uint8)))
             (recorded evs) /\
          getitem (rate s') i j =
            inr (Finite (IZR nb_bits / INR (h_in reference_uint8 * w_in reference_uint8)))
    | inl _ => length (coder_calls evs) <= 1
    end
  else coder_calls evs = [].

Lemma true_div_inr (nb_bits : Z) (d : nat) (v : float64) :
  true_div nb_bits d = inr v -> d <> 0 /\ v = Finite (IZR nb_bits / INR d).
Proof.
  unfold true_div. destruct (Nat.eqb_spec d 0); [discriminate|].
  intros H. injection H as <-. auto.
Qed.

Lemma fix_gamma_image_effect bin_width_init idx_training gamma_scaling
    are_bin_widths_learned is_lossless multiplier bin_widths_test
    idx_map_exception centered_quantized_y reconstruction_uint8 i j s r s' :
  fix_gamma_image E reference_uint8 bin_width_init list_rotation positions_top_left
    idx_training gamma_scaling are_bin_widths_learned is_lossless
    multiplier bin_widths_test idx_map_exception centered_quantized_y
    reconstruction_uint8 i j s = (r, s') ->
  exists evs, image_effect i j s r s' evs /\ quiet evs /\
    coder_effect
      (fix_gamma_checkpoint bin_width_init idx_training gamma_scaling are_bin_widths_learned)
      is_lossless multiplier bin_widths_test idx_map_exception
      centered_quantized_y i j r s' evs.
Proof.
  intros Run. unfold fix_gamma_image, coder_effect, image_effect in *.
  destruct is_lossless; unfold bind, lift in Run.
  - repeat run_step Run; try (injection Run as <- <-);
      repeat (raised || written || emitted); try leaf_nil; try leaf.
    apply score_effect in Run as (evs2 & F2 & Q2 & C2 & W2).
    apply true_div_inr in Heqr3 as [Hd ->].
    eexists. splits; [frames | ..].
    + destruct r as [e|[]]; cbn.
      * now apply (is_prefix_app [(Rate, i, j)]).
      * now rewrite W2.
    + apply (quiet_app (a := [_]) (b := _ :: _)); [split; reflexivity|].
      apply (quiet_app (a := [_])); [split; reflexivity | exact Q2].
    + destruct r as [e|[]]; cbn; rewrite C2; [cbn; lia|].
      exists a, z. splits; auto.
      destruct F2 as (_ & _ & K). rewrite (K Rate); [assumption|].
      rewrite W2. cbn. intuition discriminate.
  - repeat run_step Run; try (injection Run as <- <-);
      repeat (raised || written || emitted); try leaf_nil; try leaf.
    apply score_effect in Run as (evs2 & F2 & Q2 & C2 & W2).
    eexists. splits; [frames | ..].
    + destruct r as [e|[]]; cbn.
      * now apply (is_prefix_app [(Rate, i, j)]).
      * now rewrite W2.
    + apply (quiet_app (a := [_])); [split; reflexivity | exact Q2].
    + cbn. exact C2.
Qed.

Lemma vary_gamma_image_effect c bin_widths quantized_y reconstruction_uint8 i j s r s' :
  vary_gamma_image E reference_uint8 list_rotation positions_top_left
    c bin_widths quantized_y reconstruction_uint8 i j s = (r, s') ->
  exists evs, image_effect i j s r s' evs /\ quiet evs /\ coder_calls evs = [].
Proof.
  intros Run. unfold vary_gamma_image, image_effect in *. unfold bind, lift in Run.
  repeat run_step Run; try (injection Run as <- <-);
    repeat (raised || written || emitted); try leaf_nil; try leaf.
  apply score_effect in Run as (evs2 & F2 & Q2 & C2 & W2).
  eexists. splits; [frames | ..].
  - destruct r as [e|[]]; cbn.
    + now apply (is_prefix_app [(Rate, i, j)]).
    + now rewrite W2.
  - apply (quiet_app (a := [_])); [split; reflexivity | exact Q2].
  - cbn. exact C2.
Qed.

End Images.



(** *** The loop over the images *)

Lemma images_loop (body : nat -> M unit) (n i : nat) :
  (forall j s r s', body j s = (r, s') ->
     exists evs, image_effect i j s r s' evs /\ quiet evs) ->
  forall s r s', for_range n body s = (r, s') ->
    exists evs, point_effect n i s r s' evs /\ quiet evs.
Proof.
  intros Hb s r s' Run.
  pose (I := fun k st =>
    exists evs, frame s st evs /\ quiet evs /\ writes evs = point_writes k i).
  pose (F := fun k st =>
    exists evs, frame s st evs /\ quiet evs /\
      exists p, is_prefix p (image_writes i k) /\ writes evs = point_writes k i ++ p).
  assert (Step : forall k st r1 st', k < n -> I k st -> body k st = (r1, st') ->
            match r1 with inr _ => I (S k) st' | inl _ => F k st' end).
  { intros k st r1 st' _ (evs & Fr & Q & W) B.
    apply Hb in B as (evs1 & [Fr1 W1] & Q1).
    destruct r1 as [e|[]].
    - exists (evs ++ evs1). splits;
        [eapply frame_trans; eauto | now apply quiet_app |].
      exists (writes evs1). split; [assumption|]. now rewrite writes_app, W.
    - exists (evs ++ evs1). splits;
        [eapply frame_trans; eauto | now apply quiet_app |].
      now rewrite writes_app, W, W1, point_writes_S. }
  assert (I0 : I 0 s).
  { exists []. splits; [apply frame_refl | apply quiet_nil | reflexivity]. }
  pose proof (@for_range_spec body I F n Step s r s' I0 Run) as R.
  unfold point_effect. destruct r as [e|[]].
  - destruct R as (k & Lt & evs & Fr & Q & p & P & W).
    exists evs. splits; auto. exists k, p. splits; auto; lia.
  - destruct R as (evs & Fr & Q & W). exists evs. splits; auto.
Qed.

(** *** The evaluation of a configuration *)

Section Points.

Variable E : env.
Variable reference_uint8 : array3 Z.
Variable bin_width_init : Q.
Variable list_rotation : list nat.
Variable positions_top_left : array2 Z.

(** Lines 170 and 171. *)
Definition off_centered (centered_y tiled_map_mean : array4 Q)
    (bin_widths_test : list Q) : result (array4 Q) :=
  match quantize_per_map centered_y bin_widths_test with
  | inr centered_quantized_y => broadcast4 Qplus centered_quantized_y tiled_map_mean
  | inl e => inl e
  end.

(** The tensors configuration [i] of [fix_gamma] feeds to the decoder. *)
Definition fed_to_decoder (multipliers bin_widths : list Q)
    (tiled_map_mean centered_y : array4 Q) (i : nat) : list (array4 Q) :=
  match index multipliers i with
  | inr multiplier =>
      match off_centered centered_y tiled_map_mean (map (Qmult multiplier) bin_widths) with
      | inr y => [y]
      | inl _ => []
      end
  | inl _ => []
  end.

Lemma fix_gamma_point_effect multipliers idx_training gamma_scaling
    are_bin_widths_learned is_lossless bin_widths tiled_map_mean
    idx_map_exception centered_y i s r s' :
  fix_gamma_point E reference_uint8 bin_width_init list_rotation positions_top_left
    multipliers idx_training gamma_scaling are_bin_widths_learned is_lossless
    bin_widths tiled_map_mean idx_map_exception centered_y i s = (r, s') ->
  exists evs, point_effect (nb_images reference_uint8) i s r s' evs /\
    tf_events evs = [] /\
    decoder_inputs evs =
      fed_to_decoder multipliers bin_widths tiled_map_mean centered_y i.
Proof.
  intros Run. unfold fix_gamma_point, decode in Run.
  unfold fed_to_decoder, off_centered, point_effect.
  unfold bind, lift in Run.
  repeat run_step Run; try (injection Run as <- <-);
    repeat (raised || written || emitted);
    try (eexists; splits; [frames | exists 0, []; splits; auto; side | side ..]; fail).
  eapply images_loop in Run as (evs & [Fr W] & Q1 & Q2).
  2:{ intros j st r1 st' B. apply fix_gamma_image_effect in B as (ev & B1 & B2 & _).
      eauto. }
  eexists. splits; [frames | | cbn; exact Q1 | cbn; now rewrite Q2].
  destruct r as [e|[]]; cbn; exact W.
Qed.

End Points.


(** *** Sessions *)

Lemma with_session_inv (A : Type) (body : M A) (s s' : state) (r : result A) :
  with_session body s = (r, s') ->
  exists s1 s2, frame s s1 [SessionEnter] /\ body s1 = (r, s2) /\
                frame s2 s' [SessionExit].
Proof.
  unfold with_session, bind. intros H.
  destruct (emit SessionEnter s) as [r0 s1] eqn:En.
  destruct (emit_frame En eq_refl) as [-> F1].
  destruct (body s1) as [r1 s2] eqn:B.
  destruct (emit SessionExit s2) as [r2 s3] eqn:Ex.
  destruct (emit_frame Ex eq_refl) as [_ F2].
  exists s1, s2. cbn in H. injection H as <- <-. auto.
Qed.

(** Symbolic execution of a run, through the sessions it opens. *)
Ltac exec :=
  repeat match goal with
    | H : context [with_session ?b ?s] |- _ =>
        let W := fresh "W" in
        destruct (with_session b s) as [? ?] eqn:W;
        apply with_session_inv in W as (? & ? & ? & W & ?); cbv beta in W
    | H : (_, _) = (_, _) |- _ =>
        first [discriminate H | injection H as ? ?; subst]
    | H : context [match ?x with _ => _ end] |- _ =>
        lazymatch x with
        | context [match _ with _ => _ end] => fail
        | _ => destruct x eqn:?
        end
    end;
  repeat (raised || written || emitted).

Section Sessions.

Variable E : env.
Variable reference_uint8 : array3 Z.

Lemma encode_effect entropy_ae c s r s' :
  encode E reference_uint8 entropy_ae c s = (r, s') ->
  exists evs, frame s s' evs /\ writes evs = [] /\ decoder_inputs evs = [] /\
    tf_events evs = [SessionEnter; SessionExit] /\
    match r with
    | inr (y_float32, bin_widths) =>
        encode_mini_batches E c reference_uint8 = inr y_float32 /\
        get_bin_widths E c = inr bin_widths
    | inl _ => True
    end.
Proof.
  intros Run. unfold encode, restore in Run.
  unfold bind, lift, check, raise, ret in Run. exec; leaf.
Qed.

End Sessions.

(** *** Loops over the configurations *)

(** The rule of a loop for properties of the trace: [I k] holds of the
    events of [k] complete iterations, [F k] when iteration [k] raised. *)
Lemma for_range_trace (body : nat -> M unit)
    (I F : nat -> list event -> Prop) (n : nat) :
  (forall k st r st', k < n -> body k st = (r, st') ->
     exists evs, frame st st' evs /\
       forall pre, I k pre ->
         match r with
         | inr _ => I (S k) (pre ++ evs)
         | inl _ => F k (pre ++ evs)
         end) ->
  I 0 [] ->
  forall s r s', for_range n body s = (r, s') ->
    exists evs, frame s s' evs /\
      match r with
      | inr _ => I n evs
      | inl _ => exists k, k < n /\ F k evs
      end.
Proof.
  intros Hb I0 s r s' Run.
  pose (I' := fun k st => exists evs, frame s st evs /\ I k evs).
  pose (F' := fun k st => exists evs, frame s st evs /\ F k evs).
  assert (Step : forall k st r1 st', k < n -> I' k st -> body k st = (r1, st') ->
            match r1 with inr _ => I' (S k) st' | inl _ => F' k st' end).
  { intros k st r1 st' Lt (pre & Fr & Hi) B.
    destruct (Hb _ _ _ _ Lt B) as (evs & Fr1 & K). specialize (K _ Hi).
    destruct r1 as [e|[]]; exists (pre ++ evs); split; auto;
      eapply frame_trans; eauto. }
  assert (Hi0 : I' 0 s) by (exists []; split; [apply frame_refl | exact I0]).
  pose proof (@for_range_spec body I' F' n Step s r s' Hi0 Run) as R.
  destruct r as [e|[]].
  - destruct R as (k & Lt & evs & Fr & Hf). eauto.
  - exact R.
Qed.

Lemma sweep_writes_S (p n : nat) :
  sweep_writes (S p) n = sweep_writes p n ++ point_writes n p.
Proof.
  unfold sweep_writes. rewrite seq_S, flat_map_app. cbn [flat_map Nat.add].
  now rewrite app_nil_r.
Qed.

Lemma sweep_writes_prefix (k p n : nat) :
  k <= p -> is_prefix (sweep_writes k n) (sweep_writes p n).
Proof.
  induction 1 as [|p L IH]; [apply is_prefix_refl|].
  rewrite sweep_writes_S. now apply is_prefix_app_r.
Qed.

(** The writes of a sweep that raised in configuration [k]. *)
Lemma partial_sweep_prefix (k p n : nat) (ws : list (matrix * nat * nat)) :
  k < p -> is_prefix ws (point_writes n k) ->
  is_prefix (sweep_writes k n ++ ws) (sweep_writes p n).
Proof.
  intros L P. destruct (sweep_writes_prefix n L) as [q Hq].
  rewrite Hq, sweep_writes_S, <- app_assoc.
  apply is_prefix_app, is_prefix_app_r, P.
Qed.

(** The writes of a configuration, complete or not, begin its row. *)
Lemma point_effect_prefix (n i : nat) (s s' : state) (r : result unit)
    (evs : list event) :
  point_effect n i s r s' evs -> is_prefix (writes evs) (point_writes n i).
Proof.
  intros [_ H]. destruct r as [e|u].
  - destruct H as (k & p & L & D & P & ->). now apply partial_point_prefix.
  - rewrite H. apply is_prefix_refl.
Qed.




(** *** The life of the models *)

(** Every acquire is exclusive, every session is closed when the run is
    left, and a run that returns has reset the graph. *)
Definition lifecycle (A : Type) (r : result A) (evs : list event) : Prop :=
  throughout exclusive idle evs /\
  sessions (tf_run idle evs) = 0 /\
  match r with
  | inr _ => tf_run idle evs = idle
  | inl _ => True
  end.

Lemma tf_step_other (st : tf_state) (e : event) : is_tf e = false -> tf_step st e = st.
Proof. destruct e; cbn; congruence. Qed.

Lemma tf_run_tf_events (st : tf_state) (evs : list event) :
  tf_run st (tf_events evs) = tf_run st evs.
Proof.
  revert st. induction evs as [|e evs IH]; intros st; [reflexivity|].
  cbn [tf_events]. destruct (is_tf e) eqn:T.
  - unfold tf_run. cbn. apply IH.
  - unfold tf_run. cbn [fold_left]. rewrite (tf_step_other st e T). apply IH.
Qed.

Lemma throughout_tf_events (P : tf_state -> Prop) (st : tf_state) (evs : list event) :
  throughout P st (tf_events evs) <-> throughout P st evs.
Proof.
  revert st. induction evs as [|e evs IH]; intros st; [reflexivity|].
  cbn [tf_events]. destruct (is_tf e) eqn:T.
  - cbn. now rewrite IH.
  - cbn [throughout]. rewrite (tf_step_other st e T), IH.
    split; [intros H; split; auto; eapply throughout_start; eauto | tauto].
Qed.

Lemma lifecycle_of_tf (A : Type) (r : result A) (evs : list event) :
  lifecycle r (tf_events evs) -> lifecycle r evs.
Proof.
  unfold lifecycle. now rewrite throughout_tf_events, tf_run_tf_events.
Qed.

(** The events on TensorFlow of a run made of known steps. *)
Ltac tf_trace :=
  apply lifecycle_of_tf; rewrite ?tf_events_app;
  repeat match goal with
    | H : tf_events _ = _ |- _ => rewrite H
    | H : quiet _ |- _ => destruct H as [H _]
    end;
  cbv; splits; first [lia | reflexivity | exact I].

(** The writes of a run made of known steps. *)
Ltac no_writes :=
  rewrite ?writes_app;
  repeat match goal with H : writes _ = _ |- _ => rewrite H end;
  cbn; try reflexivity.

Section Vary.

Variable E : env.
Variable reference_uint8 : array3 Z.
Variable bin_width_init : Q.
Variable list_rotation : list nat.
Variable positions_top_left : array2 Z.

Lemma vary_gamma_point_effect idxs_training gammas_scaling i s r s' :
  vary_gamma_point E reference_uint8 bin_width_init list_rotation positions_top_left
    idxs_training gammas_scaling i s = (r, s') ->
  exists evs, point_effect (nb_images reference_uint8) i s r s' evs /\
              lifecycle r evs.
Proof.
  intros Run. unfold vary_gamma_point, build, decode, restore, reset_default_graph in Run.
  unfold bind, lift, check, raise, ret in Run. exec.
  all: repeat match goal with
         | H : encode _ _ _ _ _ = _ |- _ =>
             apply encode_effect in H as (? & ? & ? & ? & ? & ?)
         end.
  all: unfold point_effect.
  all: try (eexists; splits;
            [frames
            | exists 0, []; splits; [lia | now left | apply is_prefix_nil | no_writes]
            | tf_trace]; fail).
  eapply images_loop in Run as (evs & [Fr W] & Q).
  2:{ intros j st r1 st' B. apply vary_gamma_image_effect in B as (ev & B1 & B2 & _).
      eauto. }
  eexists; splits; [frames | | destruct r; tf_trace].
  destruct r as [e|[]].
  - destruct W as (k & p & L & D & P & W). exists k, p. splits; auto. no_writes.
  - no_writes.
Qed.

End Vary.


(** *** The two sweeps *)

(** A sweep over [nb_points] configurations and [nb_images] images, from
    the allocation of its matrices on. *)
Definition sweep_effect (nb_points nb_images : nat) (s : state) (A : Type)
    (r : result A) (s' : state) (evs : list event) : Prop :=
  frame (State (log s) (zeros nb_points nb_images) (zeros nb_points nb_images)) s' evs /\
  match r with
  | inr _ => writes evs = sweep_writes nb_points nb_images
  | inl _ => is_prefix (writes evs) (sweep_writes nb_points nb_images)
  end /\
  lifecycle r evs.

Lemma lifecycle_app (A B : Type) (r1 : result A) (r2 : result B) (a b : list event) :
  lifecycle r1 a -> tf_run idle a = idle -> lifecycle r2 b -> lifecycle r2 (a ++ b).
Proof.
  intros (T1 & _ & _) Ha (T2 & S2 & R2). unfold lifecycle.
  rewrite throughout_app, tf_run_app, Ha. auto.
Qed.

Section FixGammaRun.

Variable E : env.
Variable reference_uint8 : array3 Z.
Variable bin_width_init : Q.
Variable list_rotation : list nat.
Variable positions_top_left : array2 Z.
Variable multipliers : list Q.
Variable idx_training : Z.
Variable gamma_scaling : Q.
Variable are_bin_widths_learned : bool.

(** The tensors a complete run of [fix_gamma] feeds to the decoder. *)
Definition fix_gamma_feed : list (array4 Q) :=
  let c := fix_gamma_checkpoint bin_width_init idx_training gamma_scaling
             are_bin_widths_learned in
  match encode_mini_batches E c reference_uint8,
        get_bin_widths E c, load_map_mean E c with
  | inr y_float32, inr bin_widths, inr map_mean =>
      let '(_, h, w, _) := shape4 y_float32 in
      let tiled_map_mean := tile map_mean (nb_images reference_uint8) h w in
      match broadcast4 Qminus y_float32 tiled_map_mean with
      | inr centered_y =>
          flat_map (fed_to_decoder multipliers bin_widths tiled_map_mean centered_y)
            (seq 0 (length multipliers))
      | inl _ => []
      end
  | _, _, _ => []
  end.

Lemma fix_gamma_points_effect is_lossless bin_widths tiled_map_mean
    idx_map_exception centered_y s r s' :
  for_range (length multipliers)
    (fix_gamma_point E reference_uint8 bin_width_init list_rotation
       positions_top_left multipliers idx_training gamma_scaling
       are_bin_widths_learned is_lossless bin_widths tiled_map_mean
       idx_map_exception centered_y) s = (r, s') ->
  exists evs, frame s s' evs /\ tf_events evs = [] /\
    match r with
    | inr _ =>
        writes evs = sweep_writes (length multipliers) (nb_images reference_uint8) /\
        decoder_inputs evs =
          flat_map (fed_to_decoder multipliers bin_widths tiled_map_mean centered_y)
            (seq 0 (length multipliers))
    | inl _ =>
        is_prefix (writes evs)
          (sweep_writes (length multipliers) (nb_images reference_uint8)) /\
        is_prefix (decoder_inputs evs)
          (flat_map (fed_to_decoder multipliers bin_widths tiled_map_mean centered_y)
             (seq 0 (length multipliers)))
    end.
Proof.
  intros Run.
  set (n := nb_images reference_uint8) in *.
  set (p := length multipliers) in *.
  set (fed := fed_to_decoder multipliers bin_widths tiled_map_mean centered_y) in *.
  pose (I := fun k evs =>
    tf_events evs = [] /\ writes evs = sweep_writes k n /\
    decoder_inputs evs = flat_map fed (seq 0 k)).
  pose (F := fun (k : nat) evs =>
    tf_events evs = [] /\ is_prefix (writes evs) (sweep_writes p n) /\
    is_prefix (decoder_inputs evs) (flat_map fed (seq 0 p))).
  eapply (@for_range_trace _ I F) in Run.
  - destruct Run as (evs & Fr & H). exists evs. split; [exact Fr|].
    destruct r as [e|u].
    + destruct H as (k & _ & T & W & D). auto.
    + destruct H as (T & W & D). auto.
  - intros k st r1 st' Lt B.
    apply fix_gamma_point_effect in B as (evs & Pe & T & D).
    exists evs. split; [apply Pe|]. intros pre (T0 & W0 & D0).
    assert (flat_map fed (seq 0 (S k)) = flat_map fed (seq 0 k) ++ fed k) as FS.
    { rewrite seq_S, flat_map_app. cbn. now rewrite app_nil_r. }
    destruct r1 as [e|u]; unfold I, F; splits.
    + now rewrite tf_events_app, T0, T.
    + rewrite writes_app, W0. apply partial_sweep_prefix; [exact Lt|].
      eapply point_effect_prefix; eauto.
    + rewrite decoder_inputs_app, D0, D. fold fed.
      assert (is_prefix (flat_map fed (seq 0 (S k))) (flat_map fed (seq 0 p))) as [q Hq].
      { replace p with (S k + (p - S k)) by lia.
        rewrite seq_app, flat_map_app. eexists; reflexivity. }
      rewrite Hq, FS. exists q. reflexivity.
    + now rewrite tf_events_app, T0, T.
    + destruct Pe as [_ W]. now rewrite writes_app, W0, W, sweep_writes_S.
    + rewrite decoder_inputs_app, D0, D. fold fed. now rewrite FS.
  - unfold I. splits; reflexivity.
Qed.

Lemma fix_gamma_effect is_lossless s r s' :
  fix_gamma E reference_uint8 bin_width_init list_rotation positions_top_left
    multipliers idx_training gamma_scaling are_bin_widths_learned is_lossless s
  = (r, s') ->
  exists evs,
    sweep_effect (length multipliers) (nb_images reference_uint8) s r s' evs /\
    match r with
    | inr rp => rp = (rate s', psnr s') /\ decoder_inputs evs = fix_gamma_feed
    | inl _ => is_prefix (decoder_inputs evs) fix_gamma_feed
    end.
Proof.
  intros Run.
  unfold fix_gamma, build, restore, reset_default_graph, allocate, return_matrices in Run.
  unfold bind, lift, check, raise, ret in Run. cbv zeta in Run. exec.
  all: repeat match goal with
         | H : encode _ _ _ _ _ = _ |- _ =>
             apply encode_effect in H as (? & ? & ? & ? & ? & ?)
         | H : for_range _ _ _ = _ |- _ =>
             apply fix_gamma_points_effect in H as (? & ? & ? & ?)
         | H : _ /\ _ |- _ => destruct H
         end.
  all: unfold sweep_effect.
  all: try (eexists; splits;
            [frames | no_writes; apply is_prefix_nil | tf_trace
            | rewrite ?decoder_inputs_app;
              repeat match goal with H : decoder_inputs _ = _ |- _ => rewrite H end;
              apply is_prefix_nil]; fail).
  all: eexists; splits; [frames | no_writes | tf_trace | try reflexivity ..].
  all: rewrite ?decoder_inputs_app, ?app_nil_r;
    repeat match goal with
      | H : decoder_inputs _ = _ |- _ => rewrite H
      end; cbn [decoder_inputs app]; rewrite ?app_nil_r; try assumption.
  all: unfold fix_gamma_feed;
    repeat match goal with
      | H : encode_mini_batches _ _ _ = _ |- _ => rewrite H
      | H : get_bin_widths _ _ = _ |- _ => rewrite H
      | H : load_map_mean _ _ = _ |- _ => rewrite H
      | H : shape4 _ = _ |- _ => rewrite H
      | H : broadcast4 _ _ _ = _ |- _ => rewrite H
      end; try assumption; try reflexivity.
Qed.

End FixGammaRun.


Section VaryGammaRun.

Variable E : env.
Variable reference_uint8 : array3 Z.
Variable bin_width_init : Q.
Variable list_rotation : list nat.
Variable positions_top_left : array2 Z.
Variable idxs_training : list Z.
Variable gammas_scaling : list Q.

Lemma vary_gamma_points_effect (p : nat) s r s' :
  for_range p
    (vary_gamma_point E reference_uint8 bin_width_init list_rotation
       positions_top_left idxs_training gammas_scaling) s = (r, s') ->
  exists evs, frame s s' evs /\
    match r with
    | inr _ => writes evs = sweep_writes p (nb_images reference_uint8)
    | inl _ => is_prefix (writes evs) (sweep_writes p (nb_images reference_uint8))
    end /\
    lifecycle r evs.
Proof.
  intros Run.
  set (n := nb_images reference_uint8) in *.
  pose (I := fun k evs =>
    writes evs = sweep_writes k n /\ lifecycle (inr tt : result unit) evs).
  pose (F := fun (k : nat) evs =>
    is_prefix (writes evs) (sweep_writes p n) /\
    lifecycle (inl OSError : result unit) evs).
  eapply (@for_range_trace _ I F) in Run.
  - destruct Run as (evs & Fr & H). exists evs. split; [exact Fr|].
    destruct r as [e|u].
    + destruct H as (k & _ & W & L). auto.
    + destruct H as (W & L). auto.
  - intros k st r1 st' Lt B.
    apply vary_gamma_point_effect in B as (evs & Pe & L).
    exists evs. split; [apply Pe|]. intros pre (W0 & L0).
    destruct r1 as [e|u]; unfold I, F; split.
    + rewrite writes_app, W0. apply partial_sweep_prefix; [exact Lt|].
      eapply point_effect_prefix; eauto.
    + eapply lifecycle_app; [exact L0 | apply L0 | exact L].
    + destruct Pe as [_ W]. now rewrite writes_app, W0, W, sweep_writes_S.
    + eapply lifecycle_app; [exact L0 | apply L0 | exact L].
  - unfold I. split; [reflexivity|]. cbv. splits; first [lia | reflexivity].
Qed.

Lemma vary_gamma_effect s r s' :
  length idxs_training = length gammas_scaling ->
  vary_gamma_fix_bin_widths E reference_uint8 bin_width_init list_rotation
    positions_top_left idxs_training gammas_scaling s = (r, s') ->
  exists evs,
    sweep_effect (length gammas_scaling) (nb_images reference_uint8) s r s' evs /\
    match r with
    | inr rp => rp = (rate s', psnr s')
    | inl _ => True
    end.
Proof.
  intros Len Run.
  unfold vary_gamma_fix_bin_widths, allocate, return_matrices in Run.
  unfold bind, raise, ret in Run. cbv zeta in Run.
  rewrite Len, Nat.eqb_refl in Run.
  destruct (for_range _ _ _) as [[e|[]] s1] eqn:Loop; injection Run as <- <-;
    apply vary_gamma_points_effect in Loop as (evs & Fr & W & L);
    exists evs; unfold sweep_effect; splits; auto.
Qed.

Lemma vary_gamma_mismatch s :
  length idxs_training <> length gammas_scaling ->
  vary_gamma_fix_bin_widths E reference_uint8 bin_width_init list_rotation
    positions_top_left idxs_training gammas_scaling s = (inl AssertionError, s).
Proof.
  intros Len. unfold vary_gamma_fix_bin_widths, bind, raise.
  apply Nat.eqb_neq in Len. now rewrite Len.
Qed.

End VaryGammaRun.

End Effects.
Export Effects.


(** ** The entropy coder in a configuration of [fix_gamma] *)

Module Lossless.

Local Open Scope sweep_scope.

Section Coder.

Variable E : env.
Variable reference_uint8 : array3 Z.
Variable bin_width_init : Q.
Variable list_rotation : list nat.
Variable positions_top_left : array2 Z.
Variable multipliers : list Q.
Variable idx_training : Z.
Variable gamma_scaling : Q.
Variable are_bin_widths_learned : bool.

(** Image [j] was coded by one call, number [j] of [calls], and its rate
    is the number of bits over the number of pixels. *)
Definition coded_once (multiplier : Q) (bin_widths_test : list Q)
    (idx_map_exception : list nat) (centered_quantized_y : array4 Q)
    (i j : nat) (s' : state) (evs : list event) : Prop :=
  exists maps nb_bits,
    slice4 centered_quantized_y j = inr maps /\
    nth_error (coder_calls evs) j =
      Some (maps, bin_widths_test,
            BinaryProbabilities
              (fix_gamma_checkpoint bin_width_init idx_training gamma_scaling
                 are_bin_widths_learned) multiplier,
            idx_map_exception) /\
    rescale_compress_lossless_maps E maps bin_widths_test
      (BinaryProbabilities
         (fix_gamma_checkpoint bin_width_init idx_training gamma_scaling
            are_bin_widths_learned) multiplier)
      idx_map_exception = inr nb_bits /\
    h_in reference_uint8 * w_in reference_uint8 <> 0 /\
    In (Rate, i, j,
        Finite (IZR nb_bits / INR (h_in reference_uint8 * w_in reference_uint8)))
       (recorded evs) /\
    getitem (rate s') i j =
      inr (Finite (IZR nb_bits / INR (h_in reference_uint8 * w_in reference_uint8))).

Lemma lossless_images_loop multiplier bin_widths_test idx_map_exception
    centered_quantized_y reconstruction_uint8 i s s' :
  for_range (nb_images reference_uint8)
    (fix_gamma_image E reference_uint8 bin_width_init list_rotation
       positions_top_left idx_training gamma_scaling are_bin_widths_learned true
       multiplier bin_widths_test idx_map_exception centered_quantized_y
       reconstruction_uint8 i) s = (inr tt, s') ->
  exists evs, frame s s' evs /\
    length (coder_calls evs) = nb_images reference_uint8 /\
    forall j, j < nb_images reference_uint8 ->
      coded_once multiplier bin_widths_test idx_map_exception
        centered_quantized_y i j s' evs.
Proof.
  intros Run.
  pose (I := fun k st =>
    exists evs, frame s st evs /\ length (coder_calls evs) = k /\
      forall j, j < k ->
        coded_once multiplier bin_widths_test idx_map_exception
          centered_quantized_y i j st evs).
  pose (F := fun (k : nat) (st : state) => True).
  eapply (@for_range_spec _ I F) in Run.
  - exact Run.
  - intros k st r1 st' Lt (evs & Fr & Len & Hj) B.
    apply fix_gamma_image_effect in B as (evs1 & [Fr1 W1] & _ & C).
    destruct r1 as [e|u]; [exact Logic.I|]. cbn in C.
    destruct C as (maps & nb_bits & Sl & Calls & Bits & Hw & Rec & Get).
    exists (evs ++ evs1). splits.
    + eapply frame_trans; eauto.
    + rewrite coder_calls_app, length_app, Len, Calls. cbn. lia.
    + intros j Lj. destruct (Nat.eq_dec j k) as [->|Nj].
      * exists maps, nb_bits. splits; auto.
        -- rewrite coder_calls_app, nth_error_app2 by lia.
           rewrite Len, Nat.sub_diag, Calls. reflexivity.
        -- rewrite recorded_app. apply in_or_app. now right.
      * destruct (Hj j ltac:(lia)) as (maps' & bits' & A1 & A2 & A3 & A4 & A5 & A6).
        exists maps', bits'. splits; auto.
        -- rewrite coder_calls_app, nth_error_app1 by lia. exact A2.
        -- rewrite recorded_app. apply in_or_app. now left.
        -- destruct Fr1 as (_ & _ & K). rewrite (K Rate); [exact A6|].
           rewrite W1. intros H. apply in_image_writes in H.
           destruct H as [H|H]; congruence.
  - exists []. splits; [apply frame_refl | reflexivity | intros j Lj; lia].
Qed.

End Coder.

End Lossless.
Export Lossless.

(** ** Concrete runs *)

Module Demo.

(** Two luminance images of one pixel. *)
Definition reference : array3 Z :=
  Array3 (2, 1, 1) (fun j _ _ => if j =? 0 then 100%Z else 200%Z).

Definition latent : array4 Q :=
  Array4 (2, 1, 1, 1) (fun j _ _ _ => if j =? 0 then (7 # 2)%Q else (- (5 # 4))%Q).

Definition positions : array2 Z := Array2 (2, 0) (fun _ _ => 0%Z).

(** Collaborators that never raise. *)
Definition env_ok : env := {|
  construct := fun _ => None;
  initialization := fun _ _ => None;
  encode_mini_batches := fun _ _ => inr latent;
  get_bin_widths := fun _ => inr [1%Q];
  load_map_mean := fun _ => inr [(1 # 2)%Q];
  load_idx_map_exception := fun _ => inr [];
  run_node_reconstruction :=
    fun _ y => inr (Array4 (2, 1, 1, 1) (fun j _ _ _ => if j =? 0 then 101%Q else 200%Q));
  rescale_compress_lossless_maps := fun _ _ _ _ => inr 8%Z;
  rate_3d := fun _ _ _ _ => inr (Finite 1);
  visualize_rotated_luminance := fun _ _ _ _ => None
|}.

(** The same, but the picture of the second image cannot be written. *)
Definition env_disk_full : env := {|
  construct := construct env_ok;
  initialization := initialization env_ok;
  encode_mini_batches := encode_mini_batches env_ok;
  get_bin_widths := get_bin_widths env_ok;
  load_map_mean := load_map_mean env_ok;
  load_idx_map_exception := load_idx_map_exception env_ok;
  run_node_reconstruction := run_node_reconstruction env_ok;
  rescale_compress_lossless_maps := rescale_compress_lossless_maps env_ok;
  rate_3d := rate_3d env_ok;
  visualize_rotated_luminance :=
    fun _ _ _ paths => match paths with
                       | Reconstruction _ 1 :: _ => Some OSError
                       | _ => None
                       end
|}.


(** The state in which a function is entered: nothing has happened and
    the matrices are not allocated. *)
Definition start : state := State [] (zeros 0 0) (zeros 0 0).

(** The state of [fix_gamma] when it enters its loop, for one multiplier. *)
Definition allocated : state := State [] (zeros 1 2) (zeros 1 2).

Definition centered : array4 Q :=
  Array4 (2, 1, 1, 1) (fun j _ _ _ => if j =? 0 then 3%Q else (- (7 # 4))%Q).

(** A lossless configuration of [fix_gamma], for the multiplier 2. *)
Definition lossless_point : M unit :=
  fix_gamma_point env_ok reference 1 [] positions [2%Q] 10 10000 false true
    [1%Q] (tile [(1 # 2)%Q] 2 1 1) [] centered 0.

(** A sweep of [fix_gamma] over one multiplier; the disk is full when the
    picture of the second image is written. *)
Definition sweep_disk_full : M (array2 float64 * array2 float64) :=
  fix_gamma env_disk_full reference 1 [] positions [1%Q] 10 10000 false false.


(** A sweep of [fix_gamma] over the multiplier 2. *)
Definition sweep_ok : M (array2 float64 * array2 float64) :=
  fix_gamma env_ok reference 1 [] positions [2%Q] 10 10000 false false.

(** A sweep of [vary_gamma_fix_bin_widths] over two trainings. *)
Definition sweep_vary : M (array2 float64 * array2 float64) :=
  vary_gamma_fix_bin_widths env_ok reference 1 [] positions
    [10%Z; 7%Z] [10000%Q; 12000%Q].

(** A run of [fix_gamma] that returns: what it writes and what it asks
    of TensorFlow. *)
Example sweep_ok_writes :
  writes (log (snd (sweep_ok start)))
  = [(Rate, 0, 0); (Psnr, 0, 0); (Rate, 0, 1); (Psnr, 0, 1)].
Proof. reflexivity. Qed.

Example sweep_ok_tensorflow :
  tf_events (log (snd (sweep_ok start)))
  = [Build (EntropyAutoencoder (Checkpoint 1 10000 10 false) 1 1);
     SessionEnter; SessionExit; ResetDefaultGraph;
     Build (IsolatedDecoder 2 1 1 false);
     SessionEnter; SessionExit; ResetDefaultGraph].
Proof. reflexivity. Qed.

(** The rate of the first image in the lossless configuration: 8 bits
    for one pixel. *)
Example lossless_point_rate :
  getitem (rate (snd (lossless_point allocated))) 0 0 = inr (Finite (8 / INR (1 * 1))).
Proof. reflexivity. Qed.

(** A measurement of zero reads as a cell that was never written. *)
Example zero_is_ambiguous :
  getitem (rate (snd (set_rate 0 0 (Finite 0) allocated))) 0 0
  = getitem (rate allocated) 0 0.
Proof. reflexivity. Qed.

End Demo.

(** ** Properties of the two sweeps *)

Section SweepProperties.

Local Open Scope sweep_scope.

Variable E : env.
Variable reference_uint8 : array3 Z.
Variable bin_width_init : Q.
Variable list_rotation : list nat.
Variable positions_top_left : array2 Z.

(** C4.  When the number of training indices differs from the number of
    scaling coefficients, [vary_gamma_fix_bin_widths] raises the
    [AssertionError] of its first statement and leaves the state as it
    found it: the trace has no new event, so no graph was built, no
    session opened and no checkpoint restored. *)
Theorem mode_b_count_mismatch (idxs_training : list Z) (gammas_scaling : list Q)
    (s : state) :
  length idxs_training <> length gammas_scaling ->
  vary_gamma_fix_bin_widths E reference_uint8 bin_width_init list_rotation
    positions_top_left idxs_training gammas_scaling s = (inl AssertionError, s).
Proof. apply vary_gamma_mismatch. Qed.

(** C8.  In lossless mode, a configuration of [fix_gamma] that completes
    has called the entropy coder once per image, in the order of the
    images: call [j] received the slice [j] of the centered quantized
    latent variables, the test bin widths, the file of the binary
    probabilities of the multiplier and the exception indices, and the
    rate recorded for image [j] is the number of bits it returned over
    [h_in * w_in]. *)
Theorem lossless_rate_per_image (multipliers : list Q) (idx_training : Z)
    (gamma_scaling : Q) (are_bin_widths_learned : bool) (bin_widths : list Q)
    (tiled_map_mean : array4 Q) (idx_map_exception : list nat)
    (centered_y : array4 Q) (i : nat) (s s' : state) :
  fix_gamma_point E reference_uint8 bin_width_init list_rotation positions_top_left
    multipliers idx_training gamma_scaling are_bin_widths_learned true
    bin_widths tiled_map_mean idx_map_exception centered_y i s = (inr tt, s') ->
  exists evs multiplier centered_quantized_y,
    log s' = log s ++ evs /\
    index multipliers i = inr multiplier /\
    quantize_per_map centered_y (map (Qmult multiplier) bin_widths)
      = inr centered_quantized_y /\
    length (coder_calls evs) = nb_images reference_uint8 /\
    forall j, j < nb_images reference_uint8 ->
      coded_once E reference_uint8 bin_width_init idx_training gamma_scaling
        are_bin_widths_learned multiplier (map (Qmult multiplier) bin_widths)
        idx_map_exception centered_quantized_y i j s' evs.
Proof.
  intros Run. unfold fix_gamma_point, decode in Run.
  unfold bind, lift in Run. exec.
  apply lossless_images_loop in Run as (evs & Fr & Len & Hj).
  assert (frame s s' (_ ++ evs)) as [L _] by frames.
  do 3 eexists. splits; [exact L | reflexivity | eassumption | exact Len |].
  intros j Lj. destruct (Hj j Lj) as (maps & bits & A1 & A2 & A3 & A4 & A5 & A6).
  exists maps, bits. splits; cbn; auto.
Qed.

End SweepProperties.

Lemma mode_b_count_mismatch_witness :
  length [10%Z; 10%Z; 7%Z] <> length [10000%Q; 12000%Q] /\
  vary_gamma_fix_bin_widths Demo.env_ok Demo.reference 1 [] Demo.positions
    [10%Z; 10%Z; 7%Z] [10000%Q; 12000%Q] Demo.start
  = (inl AssertionError, Demo.start).
Proof.
  split; [cbn; lia|].
  apply (@mode_b_count_mismatch Demo.env_ok Demo.reference 1 [] Demo.positions
           [10%Z; 10%Z; 7%Z] [10000%Q; 12000%Q] Demo.start).
  cbn; lia.
Defined.

Lemma lossless_rate_per_image_witness :
  Demo.lossless_point Demo.allocated
    = (inr tt, snd (Demo.lossless_point Demo.allocated)) /\
  exists evs,
    log (snd (Demo.lossless_point Demo.allocated)) = log Demo.allocated ++ evs /\
    length (coder_calls evs) = 2.
Proof.
  split; [reflexivity|].
  destruct (@lossless_rate_per_image Demo.env_ok Demo.reference 1 [] Demo.positions
              [2%Q] 10 10000 false [1%Q] (tile [(1 # 2)%Q] 2 1 1) [] Demo.centered 0
              Demo.allocated (snd (Demo.lossless_point Demo.allocated)) eq_refl)
    as (evs & m & cq & L & _ & _ & Len & _).
  exists evs. split; [exact L | exact Len].
Defined.

(** ** Atomicity of a configuration *)

(** What the evaluation [point i] of configuration [i] does to the two
    matrices, from any state: the rows of the other configurations keep
    their cells and receive no write; when it returns, every cell of row
    [i] is written; when it raises, the cells of the images before some
    image [j] are written and those of the images after [j] are not. *)
Definition per_configuration (nb_images : nat) (point : nat -> M unit) : Prop :=
  forall i s,
    exists evs,
      log (snd (point i s)) = log s ++ evs /\
      (forall m i' j, i' <> i ->
         ~ In (m, i', j) (writes evs) /\
         getitem (cells m (snd (point i s))) i' j = getitem (cells m s) i' j) /\
      match fst (point i s) with
      | inr _ =>
          forall j, j < nb_images ->
            In (Rate, i, j) (writes evs) /\ In (Psnr, i, j) (writes evs)
      | inl _ =>
          exists j,
            (forall j', j' < j ->
               In (Rate, i, j') (writes evs) /\ In (Psnr, i, j') (writes evs)) /\
            (forall m j', j < j' -> ~ In (m, i, j') (writes evs))
      end.

Lemma point_effect_per_configuration (n : nat) (point : nat -> M unit) :
  (forall i s r s', point i s = (r, s') -> exists evs, point_effect n i s r s' evs) ->
  per_configuration n point.
Proof.
  intros H i s. destruct (point i s) as [r s'] eqn:Run. cbn [fst snd].
  destruct (H _ _ _ _ Run) as (evs & Pe).
  pose proof (point_effect_prefix Pe) as Pre.
  destruct Pe as [(L & _ & K) W]. exists evs. splits; [exact L | |].
  - intros m i' j Ni.
    assert (~ In (m, i', j) (writes evs)) as N.
    { intros Hin. eapply is_prefix_In in Hin; [|exact Pre].
      apply in_point_writes in Hin. tauto. }
    split; [exact N | now apply K].
  - destruct r as [e|u].
    + destruct W as (k & p & Lk & D & P & ->). exists k. split.
      * intros j' Lj. split; apply in_or_app; left; apply in_point_writes; auto.
      * intros m j' Lj Hin. apply in_app_or in Hin as [Hin|Hin].
        -- apply in_point_writes in Hin. lia.
        -- eapply is_prefix_In in Hin; [|exact P]. apply in_image_writes in Hin.
           destruct Hin as [Hin|Hin]; injection Hin; lia.
    + intros j Lj. rewrite W. split; apply in_point_writes; auto.
Qed.

(** C1, as amended.  In both sweeps the evaluation of configuration [i]
    writes only cells of row [i] and leaves the cells of the other rows
    as they are, whether it returns or raises; when it returns, all the
    cells of row [i] are written; when it raises while image [j] is
    processed, the cells of the images before [j] are written already
    and stay so, and no cell of an image after [j] is written. *)
Theorem configuration_writes (E : env) (reference_uint8 : array3 Z)
    (bin_width_init : Q) (list_rotation : list nat) (positions_top_left : array2 Z) :
  (forall multipliers idx_training gamma_scaling are_bin_widths_learned is_lossless
          bin_widths tiled_map_mean idx_map_exception centered_y,
     per_configuration (nb_images reference_uint8)
       (fix_gamma_point E reference_uint8 bin_width_init list_rotation
          positions_top_left multipliers idx_training gamma_scaling
          are_bin_widths_learned is_lossless bin_widths tiled_map_mean
          idx_map_exception centered_y)) /\
  (forall idxs_training gammas_scaling,
     per_configuration (nb_images reference_uint8)
       (vary_gamma_point E reference_uint8 bin_width_init list_rotation
          positions_top_left idxs_training gammas_scaling)).
Proof.
  split; intros; apply point_effect_per_configuration; intros i s r s' Run.
  - apply fix_gamma_point_effect in Run as (evs & Pe & _). eauto.
  - apply vary_gamma_point_effect in Run as (evs & Pe & _). eauto.
Qed.

(** C1, counterexample.  One multiplier, two images, and the picture of
    the second image cannot be written: the configuration raises, and the
    four cells of its row are written; the rate of the first image reads
    the value recorded, not the zero of the allocation. *)
Lemma failed_configuration_has_cells :
  fst (Demo.sweep_disk_full Demo.start) = inl OSError /\
  writes (log (snd (Demo.sweep_disk_full Demo.start)))
    = [(Rate, 0, 0); (Psnr, 0, 0); (Rate, 0, 1); (Psnr, 0, 1)] /\
  getitem (rate (snd (Demo.sweep_disk_full Demo.start))) 0 0 = inr (Finite 1).
Proof. repeat split; reflexivity. Qed.

(** ** Recording a value *)

(** What a run of a sweep function writes, from any state. *)
Definition writes_once (A : Type) (sweep : M A) : Prop :=
  forall s, exists evs,
    log (snd (sweep s)) = log s ++ evs /\ NoDup (writes evs).

Lemma sweep_effect_writes_once (A : Type) (p n : nat) (s s' : state)
    (r : result A) (evs : list event) :
  sweep_effect p n s r s' evs -> NoDup (writes evs).
Proof.
  intros (_ & W & _). destruct r as [e|a].
  - eapply is_prefix_NoDup; [exact W | apply NoDup_sweep_writes].
  - rewrite W. apply NoDup_sweep_writes.
Qed.

(** C3, as amended.  Recording a value is the assignment [rate[i, j] = v]
    or [psnr[i, j] = v]: for indices inside the matrix it returns, whether
    the cell was written before or not, and the cell then reads [v]; there
    is no conflict error.  The two sweep functions write no cell twice in
    a run. *)
Theorem record_is_assignment (E : env) (reference_uint8 : array3 Z)
    (bin_width_init : Q) (list_rotation : list nat) (positions_top_left : array2 Z) :
  (forall s i j v, in_shape2 (shape2 (rate s)) i j ->
     fst (set_rate i j v s) = inr tt /\
     getitem (rate (snd (set_rate i j v s))) i j = inr v) /\
  (forall s i j v, in_shape2 (shape2 (psnr s)) i j ->
     fst (set_psnr i j v s) = inr tt /\
     getitem (psnr (snd (set_psnr i j v s))) i j = inr v) /\
  (forall multipliers idx_training gamma_scaling are_bin_widths_learned is_lossless,
     writes_once
       (fix_gamma E reference_uint8 bin_width_init list_rotation positions_top_left
          multipliers idx_training gamma_scaling are_bin_widths_learned is_lossless)) /\
  (forall idxs_training gammas_scaling,
     writes_once
       (vary_gamma_fix_bin_widths E reference_uint8 bin_width_init list_rotation
          positions_top_left idxs_training gammas_scaling)).
Proof.
  splits.
  - intros s i j v In. destruct (setitem_in_shape (rate s) i j v In) as [a Ha].
    unfold set_rate. rewrite Ha. cbn. split; [reflexivity|].
    eapply getitem_setitem_same; eauto.
  - intros s i j v In. destruct (setitem_in_shape (psnr s) i j v In) as [a Ha].
    unfold set_psnr. rewrite Ha. cbn. split; [reflexivity|].
    eapply getitem_setitem_same; eauto.
  - intros. intros s.
    destruct (fix_gamma _ _ _ _ _ _ _ _ _ _ s) as [r s'] eqn:Run.
    apply fix_gamma_effect in Run as (evs & Se & _). exists evs. split.
    + apply Se.
    + eapply sweep_effect_writes_once; eauto.
  - intros. intros s.
    destruct (Nat.eq_dec (length idxs_training) (length gammas_scaling)) as [Len|Len].
    + destruct (vary_gamma_fix_bin_widths _ _ _ _ _ _ _ s) as [r s'] eqn:Run.
      eapply vary_gamma_effect in Run; [|exact Len].
      destruct Run as (evs & Se & _).
      exists evs. split; [apply Se | eapply sweep_effect_writes_once; eauto].
    + rewrite vary_gamma_mismatch by exact Len.
      exists []. cbn. rewrite app_nil_r. split; [reflexivity | constructor].
Qed.

(** C3, counterexample.  The cell (0, 0) of a matrix of one cell is
    recorded twice: the second record returns, and the cell reads the
    second value, which is not the first. *)
Lemma second_record_overwrites :
  let s0 := State [] (zeros 1 1) (zeros 1 1) in
  let s1 := snd (set_rate 0 0 (Finite 1) s0) in
  let s2 := snd (set_rate 0 0 (Finite 2) s1) in
  fst (set_rate 0 0 (Finite 1) s0) = inr tt /\
  getitem (rate s1) 0 0 = inr (Finite 1) /\
  fst (set_rate 0 0 (Finite 2) s1) = inr tt /\
  getitem (rate s2) 0 0 = inr (Finite 2) /\
  Finite 2 <> Finite 1.
Proof.
  cbv zeta. splits; try reflexivity.
  intros H. injection H as H. Lra.lra.
Qed.

Lemma record_is_assignment_witness :
  in_shape2 (shape2 (rate Demo.allocated)) 0 1 /\
  getitem (rate (snd (set_rate 0 1 PlusInf Demo.allocated))) 0 1 = inr PlusInf.
Proof.
  assert (in_shape2 (shape2 (rate Demo.allocated)) 0 1) as H by (cbn; lia).
  split; [exact H|].
  apply (proj1 (@record_is_assignment Demo.env_ok Demo.reference 1 [] Demo.positions)
           Demo.allocated 0 1 PlusInf H).
Defined.

(** ** The matrices before the first write *)

(** The matrices of a sweep over [nb_points] configurations and
    [nb_images] images, however the run ends: both have that shape, and a
    cell the run has not written reads zero. *)
Definition zero_until_written (nb_points nb_images : nat) (A : Type)
    (sweep : M A) : Prop :=
  forall s, exists evs,
    log (snd (sweep s)) = log s ++ evs /\
    (forall m, shape2 (cells m (snd (sweep s))) = (nb_points, nb_images)) /\
    (forall m i j, i < nb_points -> j < nb_images ->
       ~ In (m, i, j) (writes evs) ->
       getitem (cells m (snd (sweep s))) i j = inr (Finite 0)).

Lemma sweep_effect_zero (A : Type) (p n : nat) (s s' : state)
    (r : result A) (evs : list event) :
  sweep_effect p n s r s' evs ->
  log s' = log s ++ evs /\
  (forall m, shape2 (cells m s') = (p, n)) /\
  (forall m i j, i < p -> j < n -> ~ In (m, i, j) (writes evs) ->
     getitem (cells m s') i j = inr (Finite 0)).
Proof.
  intros ((L & Sh & K) & _). splits.
  - exact L.
  - intros m. rewrite Sh. now destruct m.
  - intros m i j Li Lj N. rewrite (K m i j N).
    apply Nat.ltb_lt in Li, Lj.
    destruct m; unfold getitem, zeros; cbn [cells rate psnr shape2 at2];
      now rewrite Li, Lj.
Qed.

(** C10.  [fix_gamma] allocates its two matrices before anything that can
    raise, and [vary_gamma_fix_bin_widths] right after its assertion: at
    the end of a run, returned or raised, both matrices have the shape
    (number of sweep points, number of images), and every cell the run
    has not written reads the number zero, as a cell whose measurement is
    zero would. *)
Theorem matrices_start_at_zero (E : env) (reference_uint8 : array3 Z)
    (bin_width_init : Q) (list_rotation : list nat) (positions_top_left : array2 Z) :
  (forall multipliers idx_training gamma_scaling are_bin_widths_learned is_lossless,
     zero_until_written (length multipliers) (nb_images reference_uint8)
       (fix_gamma E reference_uint8 bin_width_init list_rotation positions_top_left
          multipliers idx_training gamma_scaling are_bin_widths_learned is_lossless)) /\
  (forall idxs_training gammas_scaling,
     length idxs_training = length gammas_scaling ->
     zero_until_written (length gammas_scaling) (nb_images reference_uint8)
       (vary_gamma_fix_bin_widths E reference_uint8 bin_width_init list_rotation
          positions_top_left idxs_training gammas_scaling)).
Proof.
  split.
  - intros. intros s.
    destruct (fix_gamma _ _ _ _ _ _ _ _ _ _ s) as [r s'] eqn:Run.
    apply fix_gamma_effect in Run as (evs & Se & _). exists evs.
    cbn [snd]. eapply sweep_effect_zero; eauto.
  - intros idxs gammas Len s.
    destruct (vary_gamma_fix_bin_widths _ _ _ _ _ _ _ s) as [r s'] eqn:Run.
    eapply vary_gamma_effect in Run; [|exact Len].
    destruct Run as (evs & Se & _).
    exists evs. cbn [snd]. eapply sweep_effect_zero; eauto.
Qed.

Lemma matrices_start_at_zero_witness :
  length [10%Z; 7%Z] = length [10000%Q; 12000%Q] /\
  zero_until_written 2 2 Demo.sweep_vary.
Proof.
  split; [reflexivity|].
  apply (proj2 (@matrices_start_at_zero Demo.env_ok Demo.reference 1 []
                  Demo.positions) [10%Z; 7%Z] [10000%Q; 12000%Q] eq_refl).
Defined.

(** ** The life of the models *)





(** ** The quantizer *)

Module Quantizer.

Local Open Scope Q_scope.

(** Lines 156, 163, 170 and 171 of [fix_gamma], for a latent tensor of
    [n] images: the centered quantized tensor and the off-centered one. *)
Definition quantize (latent : array4 Q) (map_mean bin_widths_test : list Q)
  : result (array4 Q * array4 Q) :=
  let '(n, h, w, _) := shape4 latent in
  let tiled_map_mean := tile map_mean n h w in
  match broadcast4 Qminus latent tiled_map_mean with
  | inr centered_y =>
      match quantize_per_map centered_y bin_widths_test with
      | inr centered_quantized_y =>
          match broadcast4 Qplus centered_quantized_y tiled_map_mean with
          | inr off_centered_quantized_y =>
              inr (centered_quantized_y, off_centered_quantized_y)
          | inl e => inl e
          end
      | inl e => inl e
      end
  | inl e => inl e
  end.

(** The quantizer as section 4.3 of the specification words it, item by
    item: [centered], [centered_quantized] and [off_centered]. *)
Definition centered_spec (latent : array4 Q) (mean : list Q)
    (i r c k : nat) : Q :=
  at4 latent i r c k - nth k mean 0.

Definition centered_quantized_spec (latent : array4 Q) (mean bin_widths : list Q)
    (i r c k : nat) : Q :=
  inject_Z (round_half_away (centered_spec latent mean i r c k / nth k bin_widths 0))
  * nth k bin_widths 0.

Definition off_centered_spec (latent : array4 Q) (mean bin_widths : list Q)
    (i r c k : nat) : Q :=
  centered_quantized_spec latent mean bin_widths i r c k + nth k mean 0.

Definition quantize_spec (latent : array4 Q) (mean bin_widths : list Q)
  : array4 Q * array4 Q :=
  (Array4 (shape4 latent) (centered_quantized_spec latent mean bin_widths),
   Array4 (shape4 latent) (off_centered_spec latent mean bin_widths)).

Lemma array4_eq_refl (a : array4 Q) : array4_eq a a.
Proof. split; [reflexivity | intros; reflexivity]. Qed.






Lemma broadcast4_same_shape (op : Q -> Q -> Q) (x y : array4 Q) (sh : nat * nat * nat * nat) :
  shape4 x = sh -> shape4 y = sh ->
  exists z, broadcast4 op x y = inr z /\ shape4 z = sh /\
    forall i r c k, in_shape4 sh i r c k ->
      at4 z i r c k = op (at4 x i r c k) (at4 y i r c k).
Proof.
  destruct sh as [[[n h] w] d]. intros Sx Sy.
  unfold broadcast4. rewrite Sx, Sy, !broadcast_dim_same.
  eexists. splits; [reflexivity | reflexivity |].
  intros i r c k (Li & Lr & Lc & Lk). cbn [at4].
  now rewrite !broadcast_idx_lt.
Qed.

(** The lines of [fix_gamma] compute what section 4.3 says, when the mean
    and the bin widths have one entry per channel. *)
Lemma quantize_refines (latent : array4 Q) (mean bin_widths : list Q)
    (n h w d : nat) :
  shape4 latent = (n, h, w, d) -> length mean = d -> length bin_widths = d ->
  exists cq off,
    quantize latent mean bin_widths = inr (cq, off) /\
    array4_eq cq (fst (quantize_spec latent mean bin_widths)) /\
    array4_eq off (snd (quantize_spec latent mean bin_widths)).
Proof.
  intros Sh Lm Lb. unfold quantize. rewrite Sh.
  assert (St : shape4 (tile mean n h w) = (n, h, w, d)) by (cbn; now rewrite Lm).
  destruct (broadcast4_same_shape Qminus latent (tile mean n h w) Sh St)
    as (ce & -> & Sce & Hce).
  unfold quantize_per_map. rewrite Sce, Lb, Nat.eqb_refl.
  match goal with |- context [broadcast4 Qplus ?a _] => set (cq := a) end.
  assert (Scq : shape4 cq = (n, h, w, d)) by reflexivity.
  destruct (broadcast4_same_shape Qplus cq (tile mean n h w) Scq St)
    as (off & -> & Soff & Hoff).
  exists cq, off. splits; [reflexivity | |].
  - split; [cbn; congruence|]. intros i r c k In. rewrite Scq in In.
    cbn [fst quantize_spec at4 cq]. unfold centered_quantized_spec, centered_spec.
    rewrite (Hce _ _ _ _ In). reflexivity.
  - split; [cbn; congruence|]. intros i r c k In. rewrite Soff in In.
    cbn [snd quantize_spec at4]. unfold off_centered_spec, centered_quantized_spec,
      centered_spec.
    rewrite (Hoff _ _ _ _ In). cbn [at4 cq tile]. rewrite (Hce _ _ _ _ In).
    reflexivity.
Qed.

Lemma quantize_off_centered (y : array4 Q) (mean bin_widths_test : list Q)
    (n h w d : nat) (centered_y cq off : array4 Q) :
  shape4 y = (n, h, w, d) ->
  broadcast4 Qminus y (tile mean n h w) = inr centered_y ->
  quantize y mean bin_widths_test = inr (cq, off) ->
  off_centered centered_y (tile mean n h w) bin_widths_test = inr off.
Proof.
  intros Sh B. unfold quantize, off_centered. rewrite Sh, B.
  destruct (quantize_per_map centered_y bin_widths_test) as [e|a]; [discriminate|].
  destruct (broadcast4 Qplus a (tile mean n h w)) as [e|b]; [discriminate|].
  intros H. now injection H as _ ->.
Qed.

Lemma flat_map_map (A B C : Type) (g : A -> B) (f : B -> list C) (l : list A) :
  flat_map f (map g l) = flat_map (fun x => f (g x)) l.
Proof. induction l as [|x l IH]; cbn; [reflexivity | now rewrite IH]. Qed.

(** A list built index by index from another one. *)
Lemma flat_map_index (A B : Type) (P : B -> A -> Prop) (l : list A)
    (f : nat -> list B) :
  (forall i a, nth_error l i = Some a -> exists b, f i = [b] /\ P b a) ->
  Forall2 P (flat_map f (seq 0 (length l))) l.
Proof.
  revert f. induction l as [|a l IH]; intros f H; [constructor|].
  cbn [length seq flat_map].
  destruct (H 0%nat a eq_refl) as (b & -> & Pb). cbn [app].
  constructor; [exact Pb|].
  rewrite <- seq_shift, flat_map_map. apply IH.
  intros i x Hi. apply (H (S i) x Hi).
Qed.

End Quantizer.
Export Quantizer.

Section QuantizerProperties.

Local Open Scope Q_scope.


End QuantizerProperties.

(** ** The tensors [vary_gamma_fix_bin_widths] feeds to the decoder *)

Section VaryGammaFeed.

Local Open Scope sweep_scope.

Variable E : env.
Variable reference_uint8 : array3 Z.
Variable bin_width_init : Q.
Variable list_rotation : list nat.
Variable positions_top_left : array2 Z.
Variable idxs_training : list Z.
Variable gammas_scaling : list Q.

(** Lines 293 to 336: the tensor configuration [i] feeds to the decoder
    is the output of [tls.quantize_per_map] on the latent variables of
    its checkpoint and the bin widths of its checkpoint.  No mean is
    loaded. *)
Definition vary_gamma_fed (i : nat) : list (array4 Q) :=
  match index gammas_scaling i, index idxs_training i with
  | inr gamma_scaling, inr idx_training =>
      let c := Checkpoint bin_width_init gamma_scaling idx_training false in
      match encode_mini_batches E c reference_uint8, get_bin_widths E c with
      | inr y_float32, inr bin_widths =>
          match quantize_per_map y_float32 bin_widths with
          | inr quantized_y => [quantized_y]
          | inl _ => []
          end
      | _, _ => []
      end
  | _, _ => []
  end.

Definition vary_gamma_feed : list (array4 Q) :=
  flat_map vary_gamma_fed (seq 0 (length gammas_scaling)).

(** The results of the calls a run has made. *)
Ltac called :=
  repeat match goal with
    | H : ?x = inr _ |- context [?x] => rewrite H
    | H : ?x = inl _ |- context [?x] => rewrite H
    end.

(** The tensors fed by a run made of known steps. *)
Ltac fed :=
  rewrite ?decoder_inputs_app;
  repeat match goal with
    | H : decoder_inputs _ = _ |- _ => rewrite H
    | H : quiet _ |- _ => destruct H as [_ H]
    end;
  cbn [decoder_inputs app];
  first [reflexivity | apply is_prefix_nil | apply is_prefix_refl].

Lemma vary_gamma_point_feed i s r s' :
  vary_gamma_point E reference_uint8 bin_width_init list_rotation positions_top_left
    idxs_training gammas_scaling i s = (r, s') ->
  exists evs, frame s s' evs /\
    match r with
    | inr _ => decoder_inputs evs = vary_gamma_fed i
    | inl _ => is_prefix (decoder_inputs evs) (vary_gamma_fed i)
    end.
Proof.
  intros Run.
  unfold vary_gamma_point, build, decode, restore, reset_default_graph in Run.
  unfold bind, lift, check, raise, ret in Run. exec.
  all: repeat match goal with
         | H : encode _ _ _ _ _ = _ |- _ =>
             apply encode_effect in H as (? & ? & ? & ? & ? & ?)
         | H : _ /\ _ |- _ => destruct H
         end.
  all: try (eapply images_loop in Run as (? & [? ?] & ?);
            [|intros ? ? ? ? B;
              apply vary_gamma_image_effect in B as (? & ? & ? & _); eauto]).
  all: unfold vary_gamma_fed; called.
  all: eexists; (split; [frames|]).
  all: try match goal with |- match ?r with _ => _ end => destruct r end.
  all: fed.
Qed.

Lemma vary_gamma_points_feed s r s' :
  for_range (length gammas_scaling)
    (vary_gamma_point E reference_uint8 bin_width_init list_rotation
       positions_top_left idxs_training gammas_scaling) s = (r, s') ->
  exists evs, frame s s' evs /\
    match r with
    | inr _ => decoder_inputs evs = vary_gamma_feed
    | inl _ => is_prefix (decoder_inputs evs) vary_gamma_feed
    end.
Proof.
  intros Run. set (p := length gammas_scaling) in *.
  pose (I := fun k evs => decoder_inputs evs = flat_map vary_gamma_fed (seq 0 k)).
  pose (F := fun (k : nat) evs => is_prefix (decoder_inputs evs) vary_gamma_feed).
  eapply (@for_range_trace _ I F) in Run.
  - destruct Run as (evs & Fr & H). exists evs. split; [exact Fr|].
    destruct r as [e|u]; [now destruct H as (k & _ & H) | exact H].
  - intros k st r1 st' Lt B.
    apply vary_gamma_point_feed in B as (evs & Fr & D).
    exists evs. split; [exact Fr|]. intros pre D0. unfold I, F in *.
    assert (flat_map vary_gamma_fed (seq 0 (S k))
            = flat_map vary_gamma_fed (seq 0 k) ++ vary_gamma_fed k) as FS.
    { rewrite seq_S, flat_map_app. cbn. now rewrite app_nil_r. }
    rewrite decoder_inputs_app, D0.
    destruct r1 as [e|u].
    + assert (is_prefix (flat_map vary_gamma_fed (seq 0 (S k))) vary_gamma_feed)
        as [q Hq].
      { unfold vary_gamma_feed. fold p. replace p with (S k + (p - S k)) by lia.
        rewrite seq_app, flat_map_app. eexists; reflexivity. }
      destruct D as [q' Hq']. rewrite Hq, FS, Hq'.
      exists (q' ++ q). now rewrite <- !app_assoc.
    + now rewrite D, FS.
  - reflexivity.
Qed.

Lemma vary_gamma_feed_effect s r s' :
  vary_gamma_fix_bin_widths E reference_uint8 bin_width_init list_rotation
    positions_top_left idxs_training gammas_scaling s = (r, s') ->
  exists evs, log s' = log s ++ evs /\
    match r with
    | inr _ => decoder_inputs evs = vary_gamma_feed
    | inl _ => is_prefix (decoder_inputs evs) vary_gamma_feed
    end.
Proof.
  intros Run.
  unfold vary_gamma_fix_bin_widths, allocate, return_matrices in Run.
  unfold bind, raise, ret in Run. cbv zeta in Run.
  destruct (length idxs_training =? length gammas_scaling).
  - destruct (for_range _ _ _) as [[e|[]] s1] eqn:Loop; injection Run as <- <-;
      apply vary_gamma_points_feed in Loop as (evs & Fr & D);
      exists evs; (split; [apply Fr | exact D]).
  - injection Run as <- <-. exists []. split; [now rewrite app_nil_r|].
    apply is_prefix_nil.
Qed.

End VaryGammaFeed.

Section DecoderInput.

Local Open Scope Q_scope.

Variable E : env.
Variable reference_uint8 : array3 Z.
Variable bin_width_init : Q.
Variable list_rotation : list nat.
Variable positions_top_left : array2 Z.

(** In [fix_gamma], for a latent tensor [y] with one image per
    reference image, a mean and bin widths with one entry per channel,
    and strictly positive bin widths and multipliers: for every
    multiplier the lines of the quantizer return the centered quantized
    tensor and the off-centered tensor of section 4.3 (the mean is
    removed, each item is divided by the bin width of its channel,
    rounded to the nearest integer with ties away from zero and
    multiplied by the bin width, and the mean is added back); and the
    tensors the run feeds to the decoder are, in the order of the
    multipliers, the off-centered tensors -- all of them when the run
    returns, the first of them when it raises. *)
Lemma fix_gamma_feeds_off_centered (multipliers : list Q) (idx_training : Z)
    (gamma_scaling : Q) (are_bin_widths_learned is_lossless : bool)
    (y : array4 Q) (bin_widths mean : list Q) (h w d : nat) (s : state) :
  let c := fix_gamma_checkpoint bin_width_init idx_training gamma_scaling
             are_bin_widths_learned in
  let run := fix_gamma E reference_uint8 bin_width_init list_rotation
               positions_top_left multipliers idx_training gamma_scaling
               are_bin_widths_learned is_lossless s in
  encode_mini_batches E c reference_uint8 = inr y ->
  get_bin_widths E c = inr bin_widths ->
  load_map_mean E c = inr mean ->
  shape4 y = (nb_images reference_uint8, h, w, d) ->
  length mean = d -> length bin_widths = d ->
  Forall (Qlt 0) bin_widths -> Forall (Qlt 0) multipliers ->
  (forall m, In m multipliers ->
     exists cq off,
       quantize y mean (map (Qmult m) bin_widths) = inr (cq, off) /\
       array4_eq cq (fst (quantize_spec y mean (map (Qmult m) bin_widths))) /\
       array4_eq off (snd (quantize_spec y mean (map (Qmult m) bin_widths)))) /\
  exists evs fed,
    log (snd run) = log s ++ evs /\
    Forall2 (fun x m =>
               array4_eq x (snd (quantize_spec y mean (map (Qmult m) bin_widths))))
      fed multipliers /\
    match fst run with
    | inr _ => decoder_inputs evs = fed
    | inl _ => is_prefix (decoder_inputs evs) fed
    end.
Proof.
  intros c run Ey Eb Em Sh Lm Lb _ _.
  assert (Ref : forall m,
            exists cq off,
              quantize y mean (map (Qmult m) bin_widths) = inr (cq, off) /\
              array4_eq cq (fst (quantize_spec y mean (map (Qmult m) bin_widths))) /\
              array4_eq off (snd (quantize_spec y mean (map (Qmult m) bin_widths)))).
  { intros m. apply (quantize_refines y mean (map (Qmult m) bin_widths) Sh Lm).
    now rewrite length_map. }
  split; [intros m _; apply Ref|].
  subst run.
  destruct (fix_gamma _ _ _ _ _ _ _ _ _ _ s) as [r s'] eqn:Run.
  apply fix_gamma_effect in Run as (evs & ((L & _) & _) & D).
  exists evs, (fix_gamma_feed E reference_uint8 bin_width_init multipliers
                 idx_training gamma_scaling are_bin_widths_learned).
  cbn [fst snd]. splits.
  - exact L.
  - unfold fix_gamma_feed. fold c. rewrite Ey, Eb, Em, Sh.
    assert (St : shape4 (tile mean (nb_images reference_uint8) h w)
                 = (nb_images reference_uint8, h, w, d)) by (cbn; now rewrite Lm).
    destruct (broadcast4_same_shape Qminus y _ Sh St) as (ce & Bc & _).
    rewrite Bc. apply flat_map_index. intros i m Hi.
    destruct (Ref m) as (cq & off & Qm & _ & Ro).
    exists off. split; [|exact Ro].
    unfold fed_to_decoder, index. rewrite Hi.
    now rewrite (@quantize_off_centered y mean _ _ _ _ _ ce cq off Sh Bc Qm).
  - destruct r as [e|a]; [exact D | apply D].
Qed.

(** A tensor [vary_gamma_fix_bin_widths] feeds to the decoder: the
    latent variables of the checkpoint of its configuration, each item
    divided by the bin width of its channel, rounded and multiplied by
    the bin width.  No mean is removed or added. *)
Lemma vary_gamma_fed_items (idxs_training : list Z) (gammas_scaling : list Q)
    (i : nat) (x : array4 Q) :
  In x (vary_gamma_fed E reference_uint8 bin_width_init idxs_training
          gammas_scaling i) ->
  exists gamma_scaling idx_training y bin_widths,
    index gammas_scaling i = inr gamma_scaling /\
    index idxs_training i = inr idx_training /\
    encode_mini_batches E
      (Checkpoint bin_width_init gamma_scaling idx_training false)
      reference_uint8 = inr y /\
    get_bin_widths E
      (Checkpoint bin_width_init gamma_scaling idx_training false)
      = inr bin_widths /\
    shape4 x = shape4 y /\
    forall i' r c k,
      at4 x i' r c k
      = inject_Z (round_half_away (at4 y i' r c k / nth k bin_widths 0))
        * nth k bin_widths 0.
Proof.
  unfold vary_gamma_fed. intros H.
  destruct (index gammas_scaling i) as [e|g]; [destruct H|].
  destruct (index idxs_training i) as [e|t]; [destruct H|]. cbv zeta in H.
  destruct (encode_mini_batches E _ reference_uint8) as [e|y] eqn:Ey; [destruct H|].
  destruct (get_bin_widths E _) as [e|b] eqn:Eb; [destruct H|].
  destruct (quantize_per_map y b) as [e|q] eqn:Qy; [destruct H|].
  destruct H as [<-|[]].
  exists g, t, y, b. splits; auto.
  - unfold quantize_per_map in Qy. destruct (shape4 y) as [[[n h] w] d].
    destruct (d =? length b)%nat; [|discriminate]. now injection Qy as <-.
  - intros i' r c k. unfold quantize_per_map in Qy.
    destruct (shape4 y) as [[[n h] w] d].
    destruct (d =? length b)%nat; [|discriminate]. now injection Qy as <-.
Qed.

(** C5, as amended.  In [fix_gamma], for a latent tensor [y] with one
    image per reference image, a mean and bin widths with one entry per
    channel, and strictly positive bin widths and multipliers: for every
    multiplier the lines of the quantizer return the centered quantized
    tensor and the off-centered tensor of section 4.3 (the mean is
    removed, each item is divided by the bin width of its channel,
    rounded to the nearest integer with ties away from zero and
    multiplied by the bin width, and the mean is added back); and the
    tensors the run feeds to the decoder are, in the order of the
    multipliers, the off-centered tensors -- all of them when the run
    returns, the first of them when it raises.  In
    [vary_gamma_fix_bin_widths] the latent variables are not centered:
    the tensors the run feeds to the decoder are, in the order of the
    configurations, the latent variables of each checkpoint divided by
    the bin widths of this checkpoint, rounded and multiplied by the bin
    widths, and the mean takes no part. *)
Theorem decoder_receives_off_centered :
  (forall (multipliers : list Q) (idx_training : Z) (gamma_scaling : Q)
          (are_bin_widths_learned is_lossless : bool)
          (y : array4 Q) (bin_widths mean : list Q) (h w d : nat) (s : state),
     let c := fix_gamma_checkpoint bin_width_init idx_training gamma_scaling
                are_bin_widths_learned in
     let run := fix_gamma E reference_uint8 bin_width_init list_rotation
                  positions_top_left multipliers idx_training gamma_scaling
                  are_bin_widths_learned is_lossless s in
     encode_mini_batches E c reference_uint8 = inr y ->
     get_bin_widths E c = inr bin_widths ->
     load_map_mean E c = inr mean ->
     shape4 y = (nb_images reference_uint8, h, w, d) ->
     length mean = d -> length bin_widths = d ->
     Forall (Qlt 0) bin_widths -> Forall (Qlt 0) multipliers ->
     (forall m, In m multipliers ->
        exists cq off,
          quantize y mean (map (Qmult m) bin_widths) = inr (cq, off) /\
          array4_eq cq (fst (quantize_spec y mean (map (Qmult m) bin_widths))) /\
          array4_eq off (snd (quantize_spec y mean (map (Qmult m) bin_widths)))) /\
     exists evs fed,
       log (snd run) = log s ++ evs /\
       Forall2 (fun x m =>
                  array4_eq x (snd (quantize_spec y mean (map (Qmult m) bin_widths))))
         fed multipliers /\
       match fst run with
       | inr _ => decoder_inputs evs = fed
       | inl _ => is_prefix (decoder_inputs evs) fed
       end) /\
  (forall (idxs_training : list Z) (gammas_scaling : list Q) (s : state),
     let run := vary_gamma_fix_bin_widths E reference_uint8 bin_width_init
                  list_rotation positions_top_left idxs_training
                  gammas_scaling s in
     let fed := flat_map
                  (vary_gamma_fed E reference_uint8 bin_width_init
                     idxs_training gammas_scaling)
                  (seq 0 (length gammas_scaling)) in
     exists evs,
       log (snd run) = log s ++ evs /\
       match fst run with
       | inr _ => decoder_inputs evs = fed
       | inl _ => is_prefix (decoder_inputs evs) fed
       end) /\
  (forall (idxs_training : list Z) (gammas_scaling : list Q) (i : nat)
          (x : array4 Q),
     In x (vary_gamma_fed E reference_uint8 bin_width_init idxs_training
             gammas_scaling i) ->
     exists gamma_scaling idx_training y bin_widths,
       index gammas_scaling i = inr gamma_scaling /\
       index idxs_training i = inr idx_training /\
       encode_mini_batches E
         (Checkpoint bin_width_init gamma_scaling idx_training false)
         reference_uint8 = inr y /\
       get_bin_widths E
         (Checkpoint bin_width_init gamma_scaling idx_training false)
         = inr bin_widths /\
       shape4 x = shape4 y /\
       forall i' r c k,
         at4 x i' r c k
         = inject_Z (round_half_away (at4 y i' r c k / nth k bin_widths 0))
           * nth k bin_widths 0).
Proof.
  splits.
  - intros multipliers idx_training gamma_scaling are_bin_widths_learned
      is_lossless y bin_widths mean h w d s c run.
    now apply fix_gamma_feeds_off_centered.
  - intros idxs_training gammas_scaling s run fed. subst run fed.
    destruct (vary_gamma_fix_bin_widths _ _ _ _ _ _ _ s) as [r s'] eqn:Run.
    apply vary_gamma_feed_effect in Run as (evs & L & D).
    exists evs. split; [exact L | exact D].
  - apply vary_gamma_fed_items.
Qed.

End DecoderInput.

(** ** The distortion measure *)

Module Distortion.

Local Open Scope Z_scope.

(** An image of samples read as an image of numbers. *)
Definition to_float (x : array2 Z) : array2 Q :=
  Array2 (shape2 x) (fun r c => inject_Z (at2 x r c)).

(** Section 4.5 for one image: the cast, then the PSNR (lines 179 and 198
    of [fix_gamma], lines 343 and 349 of [vary_gamma_fix_bin_widths]). *)
Definition measure (reference : array2 Z) (reconstruction_float : array2 Q)
  : result float64 :=
  psnr_2d reference
    (Array2 (shape2 reconstruction_float)
       (fun r c => cast_bt601_sample (at2 reconstruction_float r c))).

Lemma cast_bt601_sample_range (x : Q) : 16 <= cast_bt601_sample x <= 235.
Proof. unfold cast_bt601_sample. lia. Qed.

Lemma cast_bt601_sample_fixed (z : Z) :
  16 <= z <= 235 -> cast_bt601_sample (inject_Z z) = z.
Proof. intros H. unfold cast_bt601_sample. rewrite round_half_away_Z. lia. Qed.

Lemma sum_sq_diff_ext (a b b' : nat -> nat -> Z) (ps : list (nat * nat)) :
  (forall p, In p ps -> b (fst p) (snd p) = b' (fst p) (snd p)) ->
  sum_sq_diff a b ps = sum_sq_diff a b' ps.
Proof.
  unfold sum_sq_diff.
  induction ps as [|p ps IH]; intros H; [reflexivity|].
  cbn [fold_right]. rewrite (H p (or_introl eq_refl)), IH; [reflexivity|].
  intros q Hq. apply H. now right.
Qed.

Lemma sum_sq_diff_same (a : nat -> nat -> Z) (ps : list (nat * nat)) :
  sum_sq_diff a a ps = 0.
Proof.
  unfold sum_sq_diff.
  induction ps as [|p ps IH]; [reflexivity|].
  cbn [fold_right]. rewrite IH, Z.sub_diag. reflexivity.
Qed.

Lemma in_pixels (h w : nat) (p : nat * nat) :
  In p (pixels h w) -> in_shape2 (h, w) (fst p) (snd p).
Proof.
  destruct p as [r c]. unfold pixels. rewrite in_prod_iff, !in_seq. cbn. lia.
Qed.

Lemma Qeq_bool_zero_div (q : Q) : Qeq_bool (inject_Z 0 / q) 0 = true.
Proof. apply Qeq_bool_iff. unfold Qdiv. change (inject_Z 0) with 0%Q. ring. Qed.

Lemma psnr_2d_same (x : array2 Z) : psnr_2d x x = inr PlusInf.
Proof.
  unfold psnr_2d, mse. destruct (shape2 x) as [h w].
  rewrite !Nat.eqb_refl. cbn [andb].
  now rewrite sum_sq_diff_same, Qeq_bool_zero_div.
Qed.

End Distortion.
Export Distortion.


(** ** The quantizer on the two images of [Demo] *)

Module QuantizerDemo.

(** The centered quantized and the off-centered tensor of [Demo.latent],
    for the mean 1/2 and the bin width 1. *)
Definition cq : array4 Q :=
  match quantize Demo.latent [(1 # 2)%Q] [1%Q] with
  | inr (a, _) => a
  | inl _ => Demo.latent
  end.

Definition off : array4 Q :=
  match quantize Demo.latent [(1 # 2)%Q] [1%Q] with
  | inr (_, b) => b
  | inl _ => Demo.latent
  end.

(** 7/2 is centered to 3 and stays 3; -5/4 is centered to -7/4 and
    rounded to -2. *)
Example cq_items : at4 cq 0 0 0 0 = 3%Q /\ at4 cq 1 0 0 0 = (-2)%Q.
Proof. split; reflexivity. Qed.

Example off_items :
  (at4 off 0 0 0 0 == 7 # 2)%Q /\ (at4 off 1 0 0 0 == - (3 # 2))%Q.
Proof. split; reflexivity. Qed.

End QuantizerDemo.


(** C5, counterexample.  The two trainings of [Demo.sweep_vary] have the
    latent variables 7/2 and -5/4, the bin width 1 and the mean 1/2.  The
    decoder receives 4 and -1, the latent variables rounded, and not the
    off-centered values 7/2 and -3/2 of section 4.3. *)
Lemma vary_gamma_feeds_uncentered :
  load_map_mean Demo.env_ok (Checkpoint 1 10000 10 false) = inr [(1 # 2)%Q] /\
  exists x,
    decoder_inputs (log (snd (Demo.sweep_vary Demo.start))) = [x; x] /\
    (at4 x 0 0 0 0 == 4)%Q /\ (at4 x 1 0 0 0 == - (1))%Q /\
    (at4 (snd (quantize_spec Demo.latent [(1 # 2)%Q] [1%Q])) 0 0 0 0 == 7 # 2)%Q /\
    (at4 (snd (quantize_spec Demo.latent [(1 # 2)%Q] [1%Q])) 1 0 0 0 == - (3 # 2))%Q /\
    ~ array4_eq x (snd (quantize_spec Demo.latent [(1 # 2)%Q] [1%Q])).
Proof.
  split; [reflexivity|]. eexists. split; [reflexivity|].
  splits; try reflexivity.
  intros [_ H]. specialize (H 0 0 0 0). cbn in H.
  assert (0 < 2 /\ 0 < 1 /\ 0 < 1 /\ 0 < 1) as In by lia.
  specialize (H In). discriminate H.
Qed.

Lemma decoder_receives_off_centered_witness :
  Forall (Qlt 0) [1%Q] /\ Forall (Qlt 0) [2%Q] /\
  exists evs fed,
    log (snd (Demo.sweep_ok Demo.start)) = log Demo.start ++ evs /\
    Forall2 (fun x m =>
               array4_eq x
                 (snd (quantize_spec Demo.latent [(1 # 2)%Q] (map (Qmult m) [1%Q]))))
      fed [2%Q] /\
    decoder_inputs evs = fed.
Proof.
  assert (Forall (Qlt 0) [1%Q]) as Pb by (repeat constructor).
  assert (Forall (Qlt 0) [2%Q]) as Pm by (repeat constructor).
  split; [exact Pb|]. split; [exact Pm|].
  exact (proj2 (proj1 (@decoder_receives_off_centered Demo.env_ok
                         Demo.reference 1 [] Demo.positions)
                  [2%Q] 10%Z 10000%Q false false Demo.latent
                  [1%Q] [(1 # 2)%Q] 1 1 1 Demo.start
                  eq_refl eq_refl eq_refl eq_refl eq_refl eq_refl Pb Pm)).
Defined.

(** ** The cells of a sweep as a function of its inputs *)

Module Cells.

Local Open Scope sweep_scope.

(** Sequencing of computations that may raise and have no other effect. *)
Definition and_then (A B : Type) (r : result A) (k : A -> result B) : result B :=
  match r with
  | inr a => k a
  | inl e => inl e
  end.

Notation "x <-- r ;;; k" := (and_then r (fun x => k))
  (at level 61, r at next level, right associativity) : sweep_scope.

(** Cell [(i, j)] of the two matrices holds the pair [cell j]. *)
Definition holds (cell : nat -> result (float64 * float64)) (i j : nat)
    (s : state) : Prop :=
  exists r p, cell j = inr (r, p) /\
    getitem (rate s) i j = inr r /\ getitem (psnr s) i j = inr p.

(** A run that writes only other cells keeps what a cell holds. *)
Lemma holds_frame cell i j s s' evs :
  frame s s' evs ->
  ~ In (Rate, i, j) (writes evs) -> ~ In (Psnr, i, j) (writes evs) ->
  holds cell i j s -> holds cell i j s'.
Proof.
  intros (_ & _ & K) N1 N2 (r & p & C & G1 & G2). exists r, p. splits; auto.
  - rewrite <- G1. apply (K Rate _ _ N1).
  - rewrite <- G2. apply (K Psnr _ _ N2).
Qed.

Lemma holds_frame_quiet cell i j s s' evs :
  frame s s' evs -> writes evs = [] -> holds cell i j s -> holds cell i j s'.
Proof.
  intros Fr W. apply (holds_frame Fr); rewrite W; intros [].
Qed.

(** The loop over the images, when each image leaves its pair in its
    cells. *)
Lemma images_loop_cells (body : nat -> M unit)
    (cell : nat -> result (float64 * float64)) (n i : nat) :
  (forall j s r s', body j s = (r, s') ->
     exists evs, image_effect i j s r s' evs /\ quiet evs) ->
  (forall j s s', body j s = (inr tt, s') -> holds cell i j s') ->
  forall s s', for_range n body s = (inr tt, s') ->
    forall j, j < n -> holds cell i j s'.
Proof.
  intros He Hc s s' Run.
  pose (I := fun k st => forall j, j < k -> holds cell i j st).
  pose (F := fun (k : nat) (st : state) => True).
  assert (R : I n s').
  { apply (@for_range_spec body I F n) with (s := s) (r := inr tt); auto.
    - intros k st r1 st' Lt Hi B. destruct r1 as [e|[]]; [exact Logic.I|].
      pose proof (Hc _ _ _ B) as Hk.
      destruct (He _ _ _ _ B) as (evs & [Fr W] & _).
      intros j Lj. destruct (Nat.eq_dec j k) as [->|Nj]; [exact Hk|].
      apply (holds_frame Fr); [| |apply Hi; lia];
        rewrite W; intros H; apply in_image_writes in H;
        destruct H as [H|H]; congruence.
    - intros j Lj. lia. }
  exact R.
Qed.

(** The loop over the configurations, when each configuration leaves its
    pairs in its row. *)
Lemma points_loop_cells (body : nat -> M unit)
    (cell : nat -> nat -> result (float64 * float64)) (p n : nat) :
  (forall i s r s', body i s = (r, s') -> exists evs, point_effect n i s r s' evs) ->
  (forall i s s', body i s = (inr tt, s') -> forall j, j < n -> holds (cell i) i j s') ->
  forall s s', for_range p body s = (inr tt, s') ->
    forall i j, i < p -> j < n -> holds (cell i) i j s'.
Proof.
  intros He Hc s s' Run.
  pose (I := fun k st => forall i j, i < k -> j < n -> holds (cell i) i j st).
  pose (F := fun (k : nat) (st : state) => True).
  assert (R : I p s').
  { apply (@for_range_spec body I F p) with (s := s) (r := inr tt); auto.
    - intros k st r1 st' Lt Hi B. destruct r1 as [e|[]]; [exact Logic.I|].
      pose proof (Hc _ _ _ B) as Hk.
      destruct (He _ _ _ _ B) as (evs & [Fr W]).
      intros i j Li Lj. destruct (Nat.eq_dec i k) as [->|Ni]; [now apply Hk|].
      apply (holds_frame Fr); [| |apply Hi; [lia|exact Lj]];
        rewrite W; intros H; apply in_point_writes in H; lia.
    - intros i j Li. lia. }
  exact R.
Qed.

Section Values.

Variable E : env.
Variable reference_uint8 : array3 Z.
Variable bin_width_init : Q.
Variable list_rotation : list nat.
Variable positions_top_left : array2 Z.

(** The PSNR of image [j] (lines 198 and 199, lines 349 and 350). *)
Definition psnr_cell (reconstruction_uint8 : array3 Z) (j : nat) : result float64 :=
  reference_j <-- slice3 reference_uint8 j ;;;
  reconstruction_j <-- slice3 reconstruction_uint8 j ;;;
  psnr_2d reference_j reconstruction_j.

(** The pair of image [j] when the rate is estimated (lines 194 to 199,
    lines 345 to 350). *)
Definition analytic_cell (bin_widths : list Q) (quantized_y : array4 Q)
    (reconstruction_uint8 : array3 Z) (j : nat) : result (float64 * float64) :=
  maps <-- slice4 quantized_y j ;;;
  r <-- rate_3d E maps bin_widths (h_in reference_uint8) (w_in reference_uint8) ;;;
  p <-- psnr_cell reconstruction_uint8 j ;;;
  inr (r, p).

(** The pair of image [j] when the latent variables are coded (lines 188
    to 199). *)
Definition lossless_cell (c : checkpoint) (multiplier : Q) (bin_widths_test : list Q)
    (idx_map_exception : list nat) (centered_quantized_y : array4 Q)
    (reconstruction_uint8 : array3 Z) (j : nat) : result (float64 * float64) :=
  maps <-- slice4 centered_quantized_y j ;;;
  nb_bits <-- rescale_compress_lossless_maps E maps bin_widths_test
                (BinaryProbabilities c multiplier) idx_map_exception ;;;
  r <-- true_div nb_bits (h_in reference_uint8 * w_in reference_uint8) ;;;
  p <-- psnr_cell reconstruction_uint8 j ;;;
  inr (r, p).

Lemma score_holds storage reconstruction_uint8 i j s s' :
  score E reference_uint8 list_rotation positions_top_left storage
    reconstruction_uint8 i j s = (inr tt, s') ->
  exists p, psnr_cell reconstruction_uint8 j = inr p /\
            getitem (psnr s') i j = inr p /\
            getitem (rate s') i j = getitem (rate s) i j.
Proof.
  intros Run. unfold score, bind, lift, check, raise, ret in Run. exec.
  unfold psnr_cell, and_then.
  repeat match goal with H : _ = inr _ |- _ => rewrite H end.
  injection Run as <-.
  eexists. splits; [reflexivity | eassumption |].
  match goal with
  | H : frame _ _ _ |- _ => destruct H as (_ & _ & K); apply (K Rate)
  end.
  cbn. intuition discriminate.
Qed.

Lemma holds_ext (cell cell' : nat -> result (float64 * float64)) i j s :
  cell j = cell' j -> holds cell i j s -> holds cell' i j s.
Proof. intros H (r & p & C & G). exists r, p. now rewrite <- H. Qed.

(** The results of the calls a run has made. *)
Ltac known :=
  repeat match goal with
    | H : ?x = inr _ |- context [?x] => rewrite H
    end.

Lemma vary_gamma_image_holds c bin_widths quantized_y reconstruction_uint8 i j s s' :
  vary_gamma_image E reference_uint8 list_rotation positions_top_left
    c bin_widths quantized_y reconstruction_uint8 i j s = (inr tt, s') ->
  holds (analytic_cell bin_widths quantized_y reconstruction_uint8) i j s'.
Proof.
  intros Run. unfold vary_gamma_image, bind, lift in Run. exec.
  apply score_holds in Run as (p & Hp & Gp & Gr).
  unfold holds, analytic_cell, and_then. known.
  do 2 eexists. splits; first [reflexivity | rewrite Gr; assumption].
Qed.

(** The pair of image [j] in a configuration of [fix_gamma]. *)
Definition fix_gamma_image_cell (c : checkpoint) (is_lossless : bool)
    (multiplier : Q) (bin_widths_test : list Q) (idx_map_exception : list nat)
    (centered_quantized_y : array4 Q) (reconstruction_uint8 : array3 Z) (j : nat)
  : result (float64 * float64) :=
  if is_lossless
  then lossless_cell c multiplier bin_widths_test idx_map_exception
         centered_quantized_y reconstruction_uint8 j
  else analytic_cell bin_widths_test centered_quantized_y reconstruction_uint8 j.

Lemma fix_gamma_image_holds idx_training gamma_scaling are_bin_widths_learned
    is_lossless multiplier bin_widths_test idx_map_exception
    centered_quantized_y reconstruction_uint8 i j s s' :
  fix_gamma_image E reference_uint8 bin_width_init list_rotation positions_top_left
    idx_training gamma_scaling are_bin_widths_learned is_lossless
    multiplier bin_widths_test idx_map_exception centered_quantized_y
    reconstruction_uint8 i j s = (inr tt, s') ->
  holds (fix_gamma_image_cell
           (fix_gamma_checkpoint bin_width_init idx_training gamma_scaling
              are_bin_widths_learned)
           is_lossless multiplier bin_widths_test idx_map_exception
           centered_quantized_y reconstruction_uint8) i j s'.
Proof.
  intros Run. unfold fix_gamma_image in Run. unfold fix_gamma_image_cell.
  destruct is_lossless; unfold bind, lift in Run; exec;
    apply score_holds in Run as (p & Hp & Gp & Gr);
    unfold holds, lossless_cell, analytic_cell, and_then; known;
    do 2 eexists; splits; first [reflexivity | rewrite Gr; assumption].
Qed.

(** The pair of cell [(i, j)] of [vary_gamma_fix_bin_widths]: the
    checkpoint of configuration [i], its latent variables, its bin
    widths and its reconstruction, then image [j]. *)
Definition vary_gamma_cell (idxs_training : list Z) (gammas_scaling : list Q)
    (i j : nat) : result (float64 * float64) :=
  gamma_scaling <-- index gammas_scaling i ;;;
  idx_training <-- index idxs_training i ;;;
  let c := Checkpoint bin_width_init gamma_scaling idx_training false in
  y_float32 <-- encode_mini_batches E c reference_uint8 ;;;
  bin_widths <-- get_bin_widths E c ;;;
  quantized_y <-- quantize_per_map y_float32 bin_widths ;;;
  reconstruction_float32 <-- run_node_reconstruction E c quantized_y ;;;
  reconstruction_uint8 <-- squeeze_axis3 (cast_bt601 reconstruction_float32) ;;;
  analytic_cell bin_widths quantized_y reconstruction_uint8 j.

Lemma vary_gamma_point_holds idxs_training gammas_scaling i s s' :
  vary_gamma_point E reference_uint8 bin_width_init list_rotation positions_top_left
    idxs_training gammas_scaling i s = (inr tt, s') ->
  forall j, j < nb_images reference_uint8 ->
    holds (vary_gamma_cell idxs_training gammas_scaling i) i j s'.
Proof.
  intros Run. unfold vary_gamma_point, build, decode, restore, reset_default_graph in Run.
  unfold bind, lift, check, raise, ret in Run. exec.
  repeat match goal with
    | H : encode _ _ _ _ _ = _ |- _ =>
        apply encode_effect in H as (? & ? & ? & ? & ? & ? & ?)
    end.
  intros j Lj.
  eapply images_loop_cells in Run; [| | | exact Lj].
  - eapply holds_ext; [|exact Run].
    unfold vary_gamma_cell, and_then. known. reflexivity.
  - intros k st r1 st' B. apply vary_gamma_image_effect in B as (ev & B1 & B2 & _).
    eauto.
  - intros k st st' B. now apply vary_gamma_image_holds in B.
Qed.

(** The pair of cell [(i, j)] of [fix_gamma], from the latent variables
    centered before the loop. *)
Definition fix_gamma_point_cell (multipliers : list Q) (idx_training : Z)
    (gamma_scaling : Q) (are_bin_widths_learned is_lossless : bool)
    (bin_widths : list Q) (tiled_map_mean : array4 Q)
    (idx_map_exception : list nat) (centered_y : array4 Q) (i j : nat)
  : result (float64 * float64) :=
  let c := fix_gamma_checkpoint bin_width_init idx_training gamma_scaling
             are_bin_widths_learned in
  multiplier <-- index multipliers i ;;;
  let bin_widths_test := map (Qmult multiplier) bin_widths in
  centered_quantized_y <-- quantize_per_map centered_y bin_widths_test ;;;
  off_centered_quantized_y <--
    broadcast4 Qplus centered_quantized_y tiled_map_mean ;;;
  reconstruction_float32 <--
    run_node_reconstruction E c off_centered_quantized_y ;;;
  reconstruction_uint8 <-- squeeze_axis3 (cast_bt601 reconstruction_float32) ;;;
  fix_gamma_image_cell c is_lossless multiplier bin_widths_test
    idx_map_exception centered_quantized_y reconstruction_uint8 j.

(** The pair of cell [(i, j)] of [fix_gamma]: the latent variables of
    the single checkpoint, centered once, then multiplier [i], then
    image [j]. *)
Definition fix_gamma_cell (multipliers : list Q) (idx_training : Z)
    (gamma_scaling : Q) (are_bin_widths_learned is_lossless : bool) (i j : nat)
  : result (float64 * float64) :=
  let c := fix_gamma_checkpoint bin_width_init idx_training gamma_scaling
             are_bin_widths_learned in
  y_float32 <-- encode_mini_batches E c reference_uint8 ;;;
  bin_widths <-- get_bin_widths E c ;;;
  map_mean <-- load_map_mean E c ;;;
  let '(_, h, w, _) := shape4 y_float32 in
  let tiled_map_mean := tile map_mean (nb_images reference_uint8) h w in
  idx_map_exception <--
    (if is_lossless then load_idx_map_exception E c else inr []) ;;;
  centered_y <-- broadcast4 Qminus y_float32 tiled_map_mean ;;;
  fix_gamma_point_cell multipliers idx_training gamma_scaling
    are_bin_widths_learned is_lossless bin_widths tiled_map_mean
    idx_map_exception centered_y i j.

Lemma fix_gamma_point_holds multipliers idx_training gamma_scaling
    are_bin_widths_learned is_lossless bin_widths tiled_map_mean
    idx_map_exception centered_y i s s' :
  fix_gamma_point E reference_uint8 bin_width_init list_rotation positions_top_left
    multipliers idx_training gamma_scaling are_bin_widths_learned is_lossless
    bin_widths tiled_map_mean idx_map_exception centered_y i s = (inr tt, s') ->
  forall j, j < nb_images reference_uint8 ->
    holds (fix_gamma_point_cell multipliers idx_training gamma_scaling
             are_bin_widths_learned is_lossless bin_widths tiled_map_mean
             idx_map_exception centered_y i) i j s'.
Proof.
  intros Run. unfold fix_gamma_point, decode in Run.
  unfold bind, lift in Run. exec.
  intros j Lj.
  eapply images_loop_cells in Run; [| | | exact Lj].
  - eapply holds_ext; [|exact Run].
    unfold fix_gamma_point_cell, and_then. known. reflexivity.
  - intros k st r1 st' B. apply fix_gamma_image_effect in B as (ev & B1 & B2 & _).
    eauto.
  - intros k st st' B. now apply fix_gamma_image_holds in B.
Qed.

Lemma fix_gamma_holds multipliers idx_training gamma_scaling
    are_bin_widths_learned is_lossless s rp s' :
  fix_gamma E reference_uint8 bin_width_init list_rotation positions_top_left
    multipliers idx_training gamma_scaling are_bin_widths_learned is_lossless s
  = (inr rp, s') ->
  rp = (rate s', psnr s') /\
  forall i j, i < length multipliers -> j < nb_images reference_uint8 ->
    holds (fix_gamma_cell multipliers idx_training gamma_scaling
             are_bin_widths_learned is_lossless i) i j s'.
Proof.
  intros Run.
  unfold fix_gamma, build, restore, reset_default_graph, allocate, return_matrices in Run.
  unfold bind, lift, check, raise, ret in Run. cbv zeta in Run. exec.
  all: repeat match goal with
         | H : encode _ _ _ _ _ = _ |- _ =>
             apply encode_effect in H as (? & ? & ? & ? & ? & ? & ?)
         | H : (_, _) = (_, _) |- _ => injection H as <- <-
         end.
  all: split; [reflexivity|]; intros i j Li Lj.
  all: match goal with
       | W : for_range _
               (fix_gamma_point _ _ _ _ _ ?m ?idx ?g ?lrn ?ll ?bw ?tl ?exc ?ce) _
             = (inr ?u, ?x0),
         F1 : frame ?x0 ?s4 [SessionExit],
         F2 : frame ?s4 _ [ResetDefaultGraph] |- _ =>
           destruct u;
           eapply (@points_loop_cells _
                     (fix_gamma_point_cell m idx g lrn ll bw tl exc ce)) in W;
           [| | | exact Li | exact Lj];
           [ apply (holds_frame_quiet F2 eq_refl);
             apply (holds_frame_quiet F1 eq_refl);
             eapply holds_ext; [|exact W]
           | intros k st r1 st' B;
             apply fix_gamma_point_effect in B as (ev & B1 & _); eauto
           | intros k st st' B jj Ljj; eapply fix_gamma_point_holds; eauto ]
       end.
  all: unfold fix_gamma_cell, and_then; known;
    repeat match goal with H : shape4 _ = _ |- _ => rewrite H end;
    known; reflexivity.
Qed.

Lemma vary_gamma_holds idxs_training gammas_scaling s rp s' :
  vary_gamma_fix_bin_widths E reference_uint8 bin_width_init list_rotation
    positions_top_left idxs_training gammas_scaling s = (inr rp, s') ->
  rp = (rate s', psnr s') /\
  forall i j, i < length gammas_scaling -> j < nb_images reference_uint8 ->
    holds (vary_gamma_cell idxs_training gammas_scaling i) i j s'.
Proof.
  intros Run.
  unfold vary_gamma_fix_bin_widths, allocate, return_matrices in Run.
  unfold bind, raise, ret in Run. cbv zeta in Run.
  destruct (length idxs_training =? length gammas_scaling); [|discriminate].
  destruct (for_range _ _ _) as [[e|[]] s1] eqn:Loop; [discriminate|].
  injection Run as <- <-. split; [reflexivity|]. intros i j Li Lj.
  eapply points_loop_cells in Loop; [exact Loop | | | exact Li | exact Lj].
  - intros k st r1 st' B. apply vary_gamma_point_effect in B as (ev & B1 & _). eauto.
  - intros k st st' B jj Ljj. eapply vary_gamma_point_holds; eauto.
Qed.

End Values.

End Cells.
Export Cells.

Section ReturnedCells.

Variable E : env.
Variable reference_uint8 : array3 Z.
Variable bin_width_init : Q.
Variable list_rotation : list nat.
Variable positions_top_left : array2 Z.

(** X1.  When [fix_gamma] returns, cell [(i, j)] of the two matrices it
    returns holds the rate and the PSNR that [fix_gamma_cell] computes
    from the inputs alone: the latent variables of the single
    checkpoint, encoded once and centered once, quantized with the bin
    widths times multiplier [i], then the rate and the PSNR of image
    [j].  No cell depends on another multiplier. *)
Theorem fix_gamma_returns_cells (multipliers : list Q) (idx_training : Z)
    (gamma_scaling : Q) (are_bin_widths_learned is_lossless : bool)
    (s s' : state) (rate_matrix psnr_matrix : array2 float64) :
  fix_gamma E reference_uint8 bin_width_init list_rotation positions_top_left
    multipliers idx_training gamma_scaling are_bin_widths_learned is_lossless s
  = (inr (rate_matrix, psnr_matrix), s') ->
  forall i j, i < length multipliers -> j < nb_images reference_uint8 ->
    exists r p,
      fix_gamma_cell E reference_uint8 bin_width_init multipliers idx_training
        gamma_scaling are_bin_widths_learned is_lossless i j = inr (r, p) /\
      getitem rate_matrix i j = inr r /\ getitem psnr_matrix i j = inr p.
Proof.
  intros Run i j Li Lj. apply fix_gamma_holds in Run as [Rp H].
  injection Rp as -> ->. exact (H i j Li Lj).
Qed.

(** X2.  When [vary_gamma_fix_bin_widths] returns, cell [(i, j)] of the
    two matrices it returns holds the rate and the PSNR that
    [vary_gamma_cell] computes from the inputs alone: the checkpoint
    named by scaling coefficient [i] and training index [i], its own
    latent variables and bin widths, its own reconstruction, then image
    [j].  No cell depends on the checkpoint of another configuration. *)
Theorem vary_gamma_returns_cells (idxs_training : list Z) (gammas_scaling : list Q)
    (s s' : state) (rate_matrix psnr_matrix : array2 float64) :
  vary_gamma_fix_bin_widths E reference_uint8 bin_width_init list_rotation
    positions_top_left idxs_training gammas_scaling s
  = (inr (rate_matrix, psnr_matrix), s') ->
  forall i j, i < length gammas_scaling -> j < nb_images reference_uint8 ->
    exists r p,
      vary_gamma_cell E reference_uint8 bin_width_init idxs_training
        gammas_scaling i j = inr (r, p) /\
      getitem rate_matrix i j = inr r /\ getitem psnr_matrix i j = inr p.
Proof.
  intros Run i j Li Lj. apply vary_gamma_holds in Run as [Rp H].
  injection Rp as -> ->. exact (H i j Li Lj).
Qed.

(** X3.  In lossless mode [fix_gamma] divides the number of bits by
    [h_in * w_in]: with at least one multiplier and one image, it does
    not return for images that have no pixel. *)
Theorem lossless_needs_pixels (multipliers : list Q) (idx_training : Z)
    (gamma_scaling : Q) (are_bin_widths_learned : bool)
    (s s' : state) (rp : array2 float64 * array2 float64) :
  fix_gamma E reference_uint8 bin_width_init list_rotation positions_top_left
    multipliers idx_training gamma_scaling are_bin_widths_learned true s
  = (inr rp, s') ->
  0 < length multipliers -> 0 < nb_images reference_uint8 ->
  h_in reference_uint8 * w_in reference_uint8 <> 0.
Proof.
  intros Run Lp Ln. apply fix_gamma_holds in Run as [_ H].
  destruct (H 0 0 Lp Ln) as (r & p & C & _).
  unfold fix_gamma_cell, fix_gamma_point_cell, fix_gamma_image_cell,
    lossless_cell, and_then in C.
  repeat match type of C with
         | context [match ?x with _ => _ end] =>
             lazymatch x with
             | context [match _ with _ => _ end] => fail
             | _ => destruct x eqn:?
             end
         end; try discriminate.
  match goal with H : true_div _ _ = inr _ |- _ => apply true_div_inr in H as [K _] end.
  exact K.
Qed.

End ReturnedCells.

Lemma fix_gamma_returns_cells_witness :
  exists r p,
    fix_gamma_cell Demo.env_ok Demo.reference 1 [2%Q] 10 10000 false false 0 1
      = inr (r, p) /\
    getitem (rate (snd (Demo.sweep_ok Demo.start))) 0 1 = inr r /\
    getitem (psnr (snd (Demo.sweep_ok Demo.start))) 0 1 = inr p.
Proof.
  apply (@fix_gamma_returns_cells Demo.env_ok Demo.reference 1 [] Demo.positions
           [2%Q] 10 10000 false false Demo.start
           (snd (Demo.sweep_ok Demo.start))
           (rate (snd (Demo.sweep_ok Demo.start)))
           (psnr (snd (Demo.sweep_ok Demo.start))) eq_refl 0 1); cbn; lia.
Defined.

Lemma vary_gamma_returns_cells_witness :
  exists r p,
    vary_gamma_cell Demo.env_ok Demo.reference 1 [10%Z; 7%Z] [10000%Q; 12000%Q] 1 0
      = inr (r, p) /\
    getitem (rate (snd (Demo.sweep_vary Demo.start))) 1 0 = inr r /\
    getitem (psnr (snd (Demo.sweep_vary Demo.start))) 1 0 = inr p.
Proof.
  apply (@vary_gamma_returns_cells Demo.env_ok Demo.reference 1 [] Demo.positions
           [10%Z; 7%Z] [10000%Q; 12000%Q] Demo.start
           (snd (Demo.sweep_vary Demo.start))
           (rate (snd (Demo.sweep_vary Demo.start)))
           (psnr (snd (Demo.sweep_vary Demo.start))) eq_refl 1 0); cbn; lia.
Defined.

(** ** The distortion the sweeps record *)

Module Recorded.

Local Open Scope Z_scope.

(** Image [j] of the output of the decoder, whose last axis has one
    entry. *)
Definition float_image (x : array4 Q) (j : nat) : array2 Q :=
  let '(_, h, w, _) := shape4 x in
  Array2 (h, w) (fun r c => at4 x j r c 0%nat).

(** Lines 179 and 198 of [fix_gamma], lines 343 and 349 of
    [vary_gamma_fix_bin_widths]: the cast of the whole output, the
    squeeze, the two slices and [tls.psnr_2d] are the measure of the
    reference image and of image [j] of the output. *)
Lemma psnr_cell_measure (reference_uint8 : array3 Z) (x : array4 Q)
    (u : array3 Z) (j : nat) (p : float64) :
  squeeze_axis3 (cast_bt601 x) = inr u ->
  psnr_cell reference_uint8 u j = inr p ->
  exists reference_j,
    slice3 reference_uint8 j = inr reference_j /\
    measure reference_j (float_image x j) = inr p.
Proof.
  intros Sq P. unfold psnr_cell, and_then in P.
  destruct (slice3 reference_uint8 j) as [e|reference_j]; [discriminate|].
  exists reference_j. split; [reflexivity|].
  unfold squeeze_axis3, cast_bt601, map4 in Sq. cbn [shape4 at4] in Sq.
  unfold measure, float_image.
  destruct (shape4 x) as [[[n h] w] d].
  destruct (d =? 1)%nat; [|discriminate]. injection Sq as <-.
  unfold slice3 in P. cbn [shape3 at3] in P.
  destruct (j <? n)%nat; [|discriminate]. exact P.
Qed.

(** A sum of squares is not negative, and it is zero only when every
    term is. *)
Lemma sum_sq_diff_nonneg (a b : nat -> nat -> Z) (ps : list (nat * nat)) :
  0 <= sum_sq_diff a b ps.
Proof.
  unfold sum_sq_diff. induction ps as [|p ps IH]; cbn [fold_right]; [lia|].
  pose proof (Z.pow_even_nonneg (a (fst p) (snd p) - b (fst p) (snd p)) 2) as H.
  assert (Z.Even 2) as Ev by (exists 1; reflexivity). specialize (H Ev). lia.
Qed.

Lemma sum_sq_diff_zero (a b : nat -> nat -> Z) (ps : list (nat * nat)) :
  sum_sq_diff a b ps = 0 ->
  forall p, In p ps -> a (fst p) (snd p) = b (fst p) (snd p).
Proof.
  induction ps as [|q ps IH]; intros H p Hp; [destruct Hp|].
  unfold sum_sq_diff in H. cbn [fold_right] in H.
  fold (sum_sq_diff a b ps) in H.
  pose proof (sum_sq_diff_nonneg a b ps) as Nn.
  assert (Z.Even 2) as Ev by (exists 1; reflexivity).
  pose proof (Z.pow_even_nonneg (a (fst q) (snd q) - b (fst q) (snd q)) 2 Ev) as Sq.
  assert ((a (fst q) (snd q) - b (fst q) (snd q)) ^ 2 = 0) as Z0 by lia.
  assert (sum_sq_diff a b ps = 0) as S0 by lia.
  destruct Hp as [<-|Hp]; [|now apply IH].
  apply Z.pow_eq_0_iff in Z0. lia.
Qed.

Lemma pixels_in (h w r c : nat) :
  (r < h)%nat -> (c < w)%nat -> In (r, c) (pixels h w).
Proof. intros. unfold pixels. rewrite in_prod_iff, !in_seq. lia. Qed.

(** The mean of the squares over at least one pixel is zero only when
    their sum is. *)
Lemma mean_zero (s : Z) (n : nat) :
  (0 < n)%nat -> Qeq_bool (inject_Z s / inject_Z (Z.of_nat n)) 0 = true -> s = 0.
Proof.
  intros Hn H. apply Qeq_bool_iff in H.
  assert (~ inject_Z (Z.of_nat n) == 0)%Q as Nz.
  { intros K. unfold Qeq in K. cbn in K. lia. }
  assert (inject_Z s == 0)%Q as S0.
  { assert (inject_Z s == inject_Z s / inject_Z (Z.of_nat n) * inject_Z (Z.of_nat n))%Q
      as K by (field; exact Nz).
    rewrite K, H. ring. }
  unfold Qeq in S0. cbn in S0. lia.
Qed.

(** The measure of an image against itself, through the cast. *)
Lemma measure_same (x : array2 Z) (h w : nat) :
  shape2 x = (h, w) ->
  measure x (to_float x) = inr PlusInf <->
  (forall r c, (r < h)%nat -> (c < w)%nat -> 16 <= at2 x r c <= 235).
Proof.
  intros Sx. split.
  - intros M r c Lr Lc.
    unfold measure, to_float, psnr_2d, mse in M. cbn [shape2 at2] in M.
    rewrite Sx in M. rewrite !Nat.eqb_refl in M. cbn [andb] in M.
    match type of M with
    | context [Qeq_bool ?m 0] => destruct (Qeq_bool m 0) eqn:Z0
    end; [|discriminate M].
    apply mean_zero in Z0; [|destruct h, w; lia].
    pose proof (sum_sq_diff_zero _ _ _ Z0 (r, c) (pixels_in Lr Lc)) as K.
    cbn [fst snd] in K. rewrite K. apply cast_bt601_sample_range.
  - intros Hx. rewrite <- (psnr_2d_same x).
    unfold measure, to_float, psnr_2d, mse. cbn [shape2 at2]. rewrite Sx.
    rewrite (@sum_sq_diff_ext (at2 x) _ (at2 x)); [reflexivity|].
    intros p Hp. apply cast_bt601_sample_fixed.
    apply in_pixels in Hp as [Lr Lc]. now apply Hx.
Qed.

Lemma measure_shapes (reference : array2 Z) (reconstruction_float : array2 Q) :
  shape2 reference <> shape2 reconstruction_float ->
  measure reference reconstruction_float = inl ShapeMismatchError.
Proof.
  intros Sh. unfold measure, psnr_2d. cbn [shape2].
  destruct (shape2 reference) as [h w], (shape2 reconstruction_float) as [h' w'].
  destruct (Nat.eqb_spec h h') as [->|]; destruct (Nat.eqb_spec w w') as [->|];
    cbn [andb]; try reflexivity.
  now contradiction Sh.
Qed.

Lemma measure_value (reference : array2 Z) (reconstruction_float : array2 Q) :
  shape2 reference = shape2 reconstruction_float ->
  let cast := Array2 (shape2 reconstruction_float)
                (fun r c => Z.max 16 (Z.min 235
                              (round_half_away (at2 reconstruction_float r c)))) in
  measure reference reconstruction_float
  = inr (if Qeq_bool (mse reference cast) 0 then PlusInf
         else Finite (10 * log10 (Q2R (255 * 255 / mse reference cast)))).
Proof.
  intros Sh cast. unfold measure, psnr_2d. cbn [shape2]. rewrite <- Sh.
  destruct (shape2 reference) as [h w]. rewrite !Nat.eqb_refl. cbn [andb].
  subst cast. unfold cast_bt601_sample.
  now destruct (Qeq_bool _ 0).
Qed.

Section Sweeps.

Variable E : env.
Variable reference_uint8 : array3 Z.
Variable bin_width_init : Q.

(** The steps of a computation that returned. *)
Ltac steps H :=
  repeat match type of H with
    | context [match ?x with _ => _ end] =>
        lazymatch x with
        | context [match _ with _ => _ end] => fail
        | _ => destruct x eqn:?
        end
    end;
  try discriminate H.

Lemma fix_gamma_cell_measure multipliers idx_training gamma_scaling
    are_bin_widths_learned is_lossless i j rt p :
  fix_gamma_cell E reference_uint8 bin_width_init multipliers idx_training
    gamma_scaling are_bin_widths_learned is_lossless i j = inr (rt, p) ->
  exists fed x reference_j,
    run_node_reconstruction E
      (fix_gamma_checkpoint bin_width_init idx_training gamma_scaling
         are_bin_widths_learned) fed = inr x /\
    slice3 reference_uint8 j = inr reference_j /\
    measure reference_j (float_image x j) = inr p.
Proof.
  intros C.
  unfold fix_gamma_cell, fix_gamma_point_cell, fix_gamma_image_cell,
    lossless_cell, analytic_cell, and_then in C.
  steps C.
  all: injection C as _ <-.
  all: match goal with
       | Sq : squeeze_axis3 (cast_bt601 ?x) = inr ?u,
         P : psnr_cell _ ?u _ = inr _,
         R : run_node_reconstruction _ _ ?fed = inr ?x |- _ =>
           destruct (psnr_cell_measure _ _ _ Sq P) as (reference_j & S & M);
           exists fed, x, reference_j; auto
       end.
Qed.

Lemma vary_gamma_cell_measure idxs_training gammas_scaling i j rt p :
  vary_gamma_cell E reference_uint8 bin_width_init idxs_training
    gammas_scaling i j = inr (rt, p) ->
  exists c fed x reference_j,
    run_node_reconstruction E c fed = inr x /\
    slice3 reference_uint8 j = inr reference_j /\
    measure reference_j (float_image x j) = inr p.
Proof.
  intros C. unfold vary_gamma_cell, analytic_cell, and_then in C.
  steps C. injection C as _ <-.
  match goal with
  | Sq : squeeze_axis3 (cast_bt601 ?x) = inr ?u,
    P : psnr_cell _ ?u _ = inr _,
    R : run_node_reconstruction _ ?c ?fed = inr ?x |- _ =>
      destruct (psnr_cell_measure _ _ _ Sq P) as (reference_j & S & M);
      exists c, fed, x, reference_j; auto
  end.
Qed.

End Sweeps.

End Recorded.
Export Recorded.

(** An image of one white pixel. *)
Module DistortionDemo.

Definition white : array2 Z := Array2 (1, 1) (fun _ _ => 255%Z).

Definition grey : array2 Z := Array2 (1, 1) (fun _ _ => 100%Z).

End DistortionDemo.

Section DistortionProperties.

Local Open Scope Z_scope.

(** C9, as amended.  The PSNR that [fix_gamma] and
    [vary_gamma_fix_bin_widths] record in cell [(i, j)] is the measure of
    section 4.5 on image [j] of the references and image [j] of the output
    of the decoder for configuration [i].  The measure casts each sample
    of the reconstruction by rounding it and clipping it to [|16, 235|];
    for a reference and a reconstruction of one shape it returns [+oo]
    when the mean squared error between the reference and the cast
    reconstruction is zero and [10 * log10 (peak^2 / mse)] otherwise, with
    [peak = 255], the full range of an 8-bit sample and not the 219 steps
    of the clipped range; for two shapes it raises [ShapeMismatchError].
    Because of the cast, an image measured against itself gives [+oo] if
    and only if all its samples lie in [|16, 235|]; [tls.psnr_2d] alone
    gives [+oo] for every image against itself. *)
Theorem distortion_measure :
  (forall (E : env) (reference_uint8 : array3 Z) (bin_width_init : Q)
          (list_rotation : list nat) (positions_top_left : array2 Z)
          (multipliers : list Q) (idx_training : Z) (gamma_scaling : Q)
          (are_bin_widths_learned is_lossless : bool) (s s' : state)
          (rate_matrix psnr_matrix : array2 float64) (i j : nat),
     fix_gamma E reference_uint8 bin_width_init list_rotation positions_top_left
       multipliers idx_training gamma_scaling are_bin_widths_learned
       is_lossless s = (inr (rate_matrix, psnr_matrix), s') ->
     (i < length multipliers)%nat -> (j < nb_images reference_uint8)%nat ->
     exists fed x reference_j v,
       run_node_reconstruction E
         (fix_gamma_checkpoint bin_width_init idx_training gamma_scaling
            are_bin_widths_learned) fed = inr x /\
       slice3 reference_uint8 j = inr reference_j /\
       measure reference_j (float_image x j) = inr v /\
       getitem psnr_matrix i j = inr v) /\
  (forall (E : env) (reference_uint8 : array3 Z) (bin_width_init : Q)
          (list_rotation : list nat) (positions_top_left : array2 Z)
          (idxs_training : list Z) (gammas_scaling : list Q) (s s' : state)
          (rate_matrix psnr_matrix : array2 float64) (i j : nat),
     vary_gamma_fix_bin_widths E reference_uint8 bin_width_init list_rotation
       positions_top_left idxs_training gammas_scaling s
     = (inr (rate_matrix, psnr_matrix), s') ->
     (i < length gammas_scaling)%nat -> (j < nb_images reference_uint8)%nat ->
     exists c fed x reference_j v,
       run_node_reconstruction E c fed = inr x /\
       slice3 reference_uint8 j = inr reference_j /\
       measure reference_j (float_image x j) = inr v /\
       getitem psnr_matrix i j = inr v) /\
  (forall (reference : array2 Z) (reconstruction_float : array2 Q),
     shape2 reference = shape2 reconstruction_float ->
     let cast := Array2 (shape2 reconstruction_float)
                   (fun r c => Z.max 16 (Z.min 235
                                 (round_half_away (at2 reconstruction_float r c)))) in
     measure reference reconstruction_float
     = inr (if Qeq_bool (mse reference cast) 0 then PlusInf
            else Finite (10 * log10 (Q2R (255 * 255 / mse reference cast))))) /\
  (forall (reference : array2 Z) (reconstruction_float : array2 Q),
     shape2 reference <> shape2 reconstruction_float ->
     measure reference reconstruction_float = inl ShapeMismatchError) /\
  (forall (x : array2 Z) (h w : nat),
     shape2 x = (h, w) ->
     (measure x (to_float x) = inr PlusInf <->
      forall r c, (r < h)%nat -> (c < w)%nat -> 16 <= at2 x r c <= 235)) /\
  (forall x : array2 Z, psnr_2d x x = inr PlusInf).
Proof.
  splits.
  - intros E reference_uint8 bin_width_init list_rotation positions_top_left
      multipliers idx_training gamma_scaling are_bin_widths_learned is_lossless
      s s' rate_matrix psnr_matrix i j Run Li Lj.
    apply fix_gamma_holds in Run as [Rp H]. injection Rp as -> ->.
    destruct (H i j Li Lj) as (rt & p & C & _ & G).
    apply fix_gamma_cell_measure in C as (fed & x & reference_j & R & S & M).
    exists fed, x, reference_j, p. auto.
  - intros E reference_uint8 bin_width_init list_rotation positions_top_left
      idxs_training gammas_scaling s s' rate_matrix psnr_matrix i j Run Li Lj.
    apply vary_gamma_holds in Run as [Rp H]. injection Rp as -> ->.
    destruct (H i j Li Lj) as (rt & p & C & _ & G).
    apply vary_gamma_cell_measure in C as (c & fed & x & reference_j & R & S & M).
    exists c, fed, x, reference_j, p. auto.
  - apply measure_value.
  - apply measure_shapes.
  - apply measure_same.
  - apply psnr_2d_same.
Qed.

(** C9, counterexample.  A white pixel is not in the digital range: the
    cast turns 255 into 235, the squared error is 400, and the image
    measured against itself has the finite PSNR
    [10 * log10 (255^2 / 400)], where [tls.psnr_2d] alone gives [+oo]. *)
Lemma white_measures_finite :
  psnr_2d DistortionDemo.white DistortionDemo.white = inr PlusInf /\
  cast_bt601_sample 255 = 235 /\
  measure DistortionDemo.white (to_float DistortionDemo.white)
  = inr (Finite (10 * log10 (Q2R (255 * 255 / 400)))).
Proof. split; [apply psnr_2d_same|]. split; reflexivity. Qed.

Lemma distortion_measure_witness :
  (exists fed x reference_j v,
     run_node_reconstruction Demo.env_ok
       (fix_gamma_checkpoint 1 10 10000 false) fed = inr x /\
     slice3 Demo.reference 1 = inr reference_j /\
     measure reference_j (float_image x 1) = inr v /\
     getitem (psnr (snd (Demo.sweep_ok Demo.start))) 0 1 = inr v) /\
  (measure DistortionDemo.grey (to_float DistortionDemo.grey) = inr PlusInf <->
   forall r c, (r < 1)%nat -> (c < 1)%nat ->
     16 <= at2 DistortionDemo.grey r c <= 235).
Proof.
  split.
  - apply (proj1 distortion_measure Demo.env_ok Demo.reference 1%Q []
             Demo.positions [2%Q] 10 10000%Q false false Demo.start
             (snd (Demo.sweep_ok Demo.start))
             (rate (snd (Demo.sweep_ok Demo.start)))
             (psnr (snd (Demo.sweep_ok Demo.start))) 0%nat 1%nat eq_refl);
      cbn; lia.
  - apply (proj1 (proj2 (proj2 (proj2 (proj2 distortion_measure))))
             DistortionDemo.grey 1%nat 1%nat eq_refl).
Defined.

End DistortionProperties.

(** ** How often a sweep calls its collaborators *)

Module Census.

Local Open Scope sweep_scope.

(** The number of events of a kind in a trace. *)
Fixpoint count (f : event -> bool) (evs : list event) : nat :=
  match evs with
  | [] => 0
  | e :: evs' => (if f e then 1 else 0) + count f evs'
  end.

Definition is_build (e : event) : bool :=
  match e with Build _ => true | _ => false end.

Definition is_restore (e : event) : bool :=
  match e with Restore _ => true | _ => false end.

Definition is_run_encoder (e : event) : bool :=
  match e with RunEncoder _ => true | _ => false end.

Definition is_run_decoder (e : event) : bool :=
  match e with RunDecoder _ _ => true | _ => false end.

Definition is_compress (e : event) : bool :=
  match e with Compress _ _ _ _ => true | _ => false end.

(** The numbers of graphs built, checkpoints restored, runs of the
    encoder, runs of the decoder and calls of the entropy coder. *)
Record tally : Type := Tally {
  builds : nat;
  restores : nat;
  encoder_runs : nat;
  decoder_runs : nat;
  compressions : nat
}.

Definition tally_of (evs : list event) : tally :=
  Tally (count is_build evs) (count is_restore evs) (count is_run_encoder evs)
        (count is_run_decoder evs) (count is_compress evs).

Definition tally_add (a b : tally) : tally :=
  Tally (builds a + builds b) (restores a + restores b)
        (encoder_runs a + encoder_runs b) (decoder_runs a + decoder_runs b)
        (compressions a + compressions b).

Definition tally_times (n : nat) (a : tally) : tally :=
  Tally (n * builds a) (n * restores a) (n * encoder_runs a)
        (n * decoder_runs a) (n * compressions a).

Definition tally_le (a b : tally) : Prop :=
  builds a <= builds b /\ restores a <= restores b /\
  encoder_runs a <= encoder_runs b /\ decoder_runs a <= decoder_runs b /\
  compressions a <= compressions b.

(** A run made at most the calls of [t], and all of them when it
    returned. *)
Definition census (A : Type) (r : result A) (evs : list event) (t : tally) : Prop :=
  tally_le (tally_of evs) t /\
  match r with
  | inr _ => tally_le t (tally_of evs)
  | inl _ => True
  end.

Lemma count_app (f : event -> bool) (a b : list event) :
  count f (a ++ b) = count f a + count f b.
Proof. induction a as [|e a IH]; cbn; [reflexivity | rewrite IH; lia]. Qed.

(** Inequalities between tallies as inequalities between numbers. *)
Ltac tallies :=
  unfold census, tally_le, tally_of, tally_add, tally_times in *;
  cbn [builds restores encoder_runs decoder_runs compressions] in *;
  rewrite ?count_app in *;
  cbn [count is_build is_restore is_run_encoder is_run_decoder is_compress
       Nat.add] in *.

Lemma tally_le_times (k n : nat) (a : tally) :
  k <= n -> tally_le (tally_times k a) (tally_times n a).
Proof.
  intros L. tallies. repeat split; now apply Nat.mul_le_mono_r.
Qed.

Lemma census_returned (A : Type) (a : A) (evs : list event) (t : tally) :
  census (inr a) evs t ->
  count is_build evs = builds t /\ count is_restore evs = restores t /\
  count is_run_encoder evs = encoder_runs t /\
  count is_run_decoder evs = decoder_runs t /\
  count is_compress evs = compressions t.
Proof. intros H. tallies. lia. Qed.

(** The loop over [n] iterations that each make the calls of [t]. *)
Lemma census_loop (body : nat -> M unit) (t : tally) (n : nat) :
  (forall k s r s', body k s = (r, s') ->
     exists evs, frame s s' evs /\ census r evs t) ->
  forall s r s', for_range n body s = (r, s') ->
    exists evs, frame s s' evs /\ census r evs (tally_times n t).
Proof.
  intros Hb s r s' Run.
  pose (I := fun k evs => census (inr tt : result unit) evs (tally_times k t)).
  pose (F := fun (k : nat) evs => tally_le (tally_of evs) (tally_times n t)).
  eapply (@for_range_trace _ I F) in Run.
  - destruct Run as (evs & Fr & H). exists evs. split; [exact Fr|].
    destruct r as [e|u].
    + destruct H as (k & _ & L). split; [exact L | exact Logic.I].
    + exact H.
  - intros k st r1 st' Lt B. destruct (Hb _ _ _ _ B) as (evs & Fr & C).
    exists evs. split; [exact Fr|]. intros pre Hp. unfold I, F in *.
    destruct r1 as [e|u].
    + assert (tally_le (tally_times (S k) t) (tally_times n t)) as K'
        by (apply tally_le_times; lia).
      tallies. lia.
    + tallies. lia.
  - unfold I. tallies. lia.
Qed.

(** A run made of calls whose frames are known. *)
Ltac counted :=
  eexists; split;
  [ frames
  | repeat match goal with
      | |- census ?r _ _ => is_var r; destruct r
      end;
    tallies; lia ].

Section Functions.

Variable E : env.
Variable reference_uint8 : array3 Z.
Variable bin_width_init : Q.
Variable list_rotation : list nat.
Variable positions_top_left : array2 Z.

Lemma score_census storage reconstruction_uint8 i j s r s' :
  score E reference_uint8 list_rotation positions_top_left storage
    reconstruction_uint8 i j s = (r, s') ->
  exists evs, frame s s' evs /\ census r evs (Tally 0 0 0 0 0).
Proof.
  intros Run. unfold score, bind, lift, check, raise, ret in Run.
  exec; try (injection Run as <- <-); counted.
Qed.

Lemma vary_gamma_image_census c bin_widths quantized_y reconstruction_uint8
    i j s r s' :
  vary_gamma_image E reference_uint8 list_rotation positions_top_left
    c bin_widths quantized_y reconstruction_uint8 i j s = (r, s') ->
  exists evs, frame s s' evs /\ census r evs (Tally 0 0 0 0 0).
Proof.
  intros Run. unfold vary_gamma_image, bind, lift in Run. exec;
    try (apply score_census in Run as (? & ? & ?)); counted.
Qed.

Lemma fix_gamma_image_census idx_training gamma_scaling are_bin_widths_learned
    is_lossless multiplier bin_widths_test idx_map_exception
    centered_quantized_y reconstruction_uint8 i j s r s' :
  fix_gamma_image E reference_uint8 bin_width_init list_rotation positions_top_left
    idx_training gamma_scaling are_bin_widths_learned is_lossless
    multiplier bin_widths_test idx_map_exception centered_quantized_y
    reconstruction_uint8 i j s = (r, s') ->
  exists evs, frame s s' evs /\
    census r evs (Tally 0 0 0 0 (if is_lossless then 1 else 0)).
Proof.
  intros Run. unfold fix_gamma_image in Run.
  destruct is_lossless; unfold bind, lift in Run; exec;
    try (apply score_census in Run as (? & ? & ?)); counted.
Qed.

Lemma fix_gamma_point_census multipliers idx_training gamma_scaling
    are_bin_widths_learned is_lossless bin_widths tiled_map_mean
    idx_map_exception centered_y i s r s' :
  fix_gamma_point E reference_uint8 bin_width_init list_rotation positions_top_left
    multipliers idx_training gamma_scaling are_bin_widths_learned is_lossless
    bin_widths tiled_map_mean idx_map_exception centered_y i s = (r, s') ->
  exists evs, frame s s' evs /\
    census r evs
      (Tally 0 0 0 1 (if is_lossless then nb_images reference_uint8 else 0)).
Proof.
  intros Run. unfold fix_gamma_point, decode in Run.
  unfold bind, lift in Run. exec.
  all: try (eapply census_loop in Run as (? & ? & ?);
            [|intros; eapply fix_gamma_image_census; eauto]).
  all: destruct is_lossless; counted.
Qed.

Lemma encode_census entropy_ae c s r s' :
  encode E reference_uint8 entropy_ae c s = (r, s') ->
  exists evs, frame s s' evs /\ census r evs (Tally 0 1 1 0 0).
Proof.
  intros Run. unfold encode, restore in Run.
  unfold bind, lift, check, raise, ret in Run. exec; counted.
Qed.

(** One configuration of [vary_gamma_fix_bin_widths]. *)
Definition vary_gamma_point_tally : tally := Tally 2 2 1 1 0.

Lemma vary_gamma_point_census idxs_training gammas_scaling i s r s' :
  vary_gamma_point E reference_uint8 bin_width_init list_rotation positions_top_left
    idxs_training gammas_scaling i s = (r, s') ->
  exists evs, frame s s' evs /\ census r evs vary_gamma_point_tally.
Proof.
  intros Run.
  unfold vary_gamma_point, build, decode, restore, reset_default_graph in Run.
  unfold bind, lift, check, raise, ret in Run. exec.
  all: repeat match goal with
         | H : encode _ _ _ _ _ = _ |- _ =>
             apply encode_census in H as (? & ? & ?)
         end.
  all: try (eapply census_loop in Run as (? & ? & ?);
            [|intros; eapply vary_gamma_image_census; eauto]).
  all: unfold vary_gamma_point_tally; counted.
Qed.

(** A run of [fix_gamma] over [p] multipliers and [n] images. *)
Definition fix_gamma_tally (is_lossless : bool) (p n : nat) : tally :=
  Tally 2 2 1 p (if is_lossless then p * n else 0).

Lemma fix_gamma_census multipliers idx_training gamma_scaling
    are_bin_widths_learned is_lossless s r s' :
  fix_gamma E reference_uint8 bin_width_init list_rotation positions_top_left
    multipliers idx_training gamma_scaling are_bin_widths_learned is_lossless s
  = (r, s') ->
  exists evs, log s' = log s ++ evs /\
    census r evs
      (fix_gamma_tally is_lossless (length multipliers) (nb_images reference_uint8)).
Proof.
  intros Run.
  unfold fix_gamma, build, restore, reset_default_graph, allocate, return_matrices in Run.
  unfold bind, lift, check, raise, ret in Run. cbv zeta in Run. exec.
  all: repeat match goal with
         | H : encode _ _ _ _ _ = _ |- _ =>
             apply encode_census in H as (? & ? & ?)
         | H : for_range _ _ _ = _ |- _ =>
             eapply census_loop in H as (? & ? & ?);
             [|intros; eapply fix_gamma_point_census; eauto]
         end.
  all: unfold fix_gamma_tally.
  all: match goal with
       | |- exists evs, log ?s2 = log ?s1 ++ evs /\ census ?r0 _ ?t =>
           assert (exists evs,
                     frame (State (log s1) (zeros (length multipliers)
                                              (nb_images reference_uint8))
                                  (zeros (length multipliers)
                                     (nb_images reference_uint8))) s2 evs /\
                     census r0 evs t) as (evs & Fr & C);
           [|exists evs; split; [apply Fr | exact C]]
       end.
  all: counted.
Qed.


Lemma vary_gamma_census idxs_training gammas_scaling s r s' :
  vary_gamma_fix_bin_widths E reference_uint8 bin_width_init list_rotation
    positions_top_left idxs_training gammas_scaling s = (r, s') ->
  exists evs, log s' = log s ++ evs /\
    census r evs (tally_times (length gammas_scaling) vary_gamma_point_tally).
Proof.
  intros Run.
  unfold vary_gamma_fix_bin_widths, allocate, return_matrices in Run.
  unfold bind, raise, ret in Run. cbv zeta in Run.
  destruct (length idxs_training =? length gammas_scaling).
  - destruct (for_range _ _ _) as [[e|[]] s1] eqn:Loop; injection Run as <- <-;
      (eapply census_loop in Loop as (evs & Fr & C);
       [|intros; eapply vary_gamma_point_census; eauto]);
      exists evs; (split; [apply Fr | exact C]).
  - injection Run as <- <-. exists []. split; [now rewrite app_nil_r|].
    unfold vary_gamma_point_tally. tallies. lia.
Qed.

End Functions.

End Census.
Export Census.

Section CallCounts.

Variable E : env.
Variable reference_uint8 : array3 Z.
Variable bin_width_init : Q.
Variable list_rotation : list nat.
Variable positions_top_left : array2 Z.

(** X4. A run of [fix_gamma] over [p] multipliers and [n] images builds at
    most two graphs, restores at most two checkpoints, runs the encoder at
    most once and the decoder at most [p] times, and calls the entropy
    coder at most [p * n] times in lossless mode and never otherwise; a
    run that returns has made exactly these numbers of calls: the encoder
    runs once for all multipliers, the decoder once per multiplier. *)
Theorem fix_gamma_call_counts (multipliers : list Q) (idx_training : Z)
    (gamma_scaling : Q) (are_bin_widths_learned is_lossless : bool)
    (s s' : state) (r : result (array2 float64 * array2 float64)) :
  fix_gamma E reference_uint8 bin_width_init list_rotation positions_top_left
    multipliers idx_training gamma_scaling are_bin_widths_learned is_lossless s
  = (r, s') ->
  let p := length multipliers in
  let n := nb_images reference_uint8 in
  let coded := if is_lossless then p * n else 0 in
  exists evs, log s' = log s ++ evs /\
    count is_build evs <= 2 /\ count is_restore evs <= 2 /\
    count is_run_encoder evs <= 1 /\ count is_run_decoder evs <= p /\
    count is_compress evs <= coded /\
    (forall matrices, r = inr matrices ->
       count is_build evs = 2 /\ count is_restore evs = 2 /\
       count is_run_encoder evs = 1 /\ count is_run_decoder evs = p /\
       count is_compress evs = coded).
Proof.
  intros Run p n coded.
  apply fix_gamma_census in Run as (evs & L & C).
  exists evs. split; [exact L|].
  assert (tally_le (tally_of evs) (fix_gamma_tally is_lossless p n)) as Le
    by apply C.
  unfold tally_le, tally_of, fix_gamma_tally in Le.
  cbn [builds restores encoder_runs decoder_runs compressions] in Le.
  fold coded in Le. splits; try apply Le.
  intros matrices ->. apply census_returned in C. exact C.
Qed.

(** X5. A run of [vary_gamma_fix_bin_widths] over [p] scaling coefficients
    builds at most [2 * p] graphs, restores at most [2 * p] checkpoints and
    runs the encoder and the decoder at most [p] times each; a run that
    returns has made exactly these numbers of calls, two graphs and one
    run of each network per configuration.  It never calls the entropy
    coder. *)
Theorem vary_gamma_call_counts (idxs_training : list Z) (gammas_scaling : list Q)
    (s s' : state) (r : result (array2 float64 * array2 float64)) :
  vary_gamma_fix_bin_widths E reference_uint8 bin_width_init list_rotation
    positions_top_left idxs_training gammas_scaling s = (r, s') ->
  let p := length gammas_scaling in
  exists evs, log s' = log s ++ evs /\
    count is_build evs <= 2 * p /\ count is_restore evs <= 2 * p /\
    count is_run_encoder evs <= p /\ count is_run_decoder evs <= p /\
    count is_compress evs = 0 /\
    (forall matrices, r = inr matrices ->
       count is_build evs = 2 * p /\ count is_restore evs = 2 * p /\
       count is_run_encoder evs = p /\ count is_run_decoder evs = p).
Proof.
  intros Run p.
  apply vary_gamma_census in Run as (evs & L & C).
  exists evs. split; [exact L|].
  assert (tally_le (tally_of evs) (tally_times p vary_gamma_point_tally)) as Le
    by apply C.
  unfold tally_le, tally_of, tally_times, vary_gamma_point_tally in Le.
  cbn [builds restores encoder_runs decoder_runs compressions] in Le.
  splits; try lia.
  intros matrices ->. apply census_returned in C.
  unfold tally_times, vary_gamma_point_tally in C.
  cbn [builds restores encoder_runs decoder_runs compressions] in C. lia.
Qed.

End CallCounts.

Lemma fix_gamma_call_counts_witness :
  exists evs, log (snd (Demo.sweep_ok Demo.start)) = log Demo.start ++ evs /\
    count is_run_encoder evs = 1 /\ count is_run_decoder evs = 1 /\
    count is_compress evs = 0.
Proof.
  destruct (@fix_gamma_call_counts Demo.env_ok Demo.reference 1 [] Demo.positions
              [2%Q] 10 10000 false false Demo.start
              (snd (Demo.sweep_ok Demo.start)) (fst (Demo.sweep_ok Demo.start))
              eq_refl)
    as (evs & L & _ & _ & _ & _ & _ & R).
  destruct (R (rate (snd (Demo.sweep_ok Demo.start)),
               psnr (snd (Demo.sweep_ok Demo.start))) eq_refl)
    as (_ & _ & Enc & Dec & Cod).
  exists evs. splits; [exact L | exact Enc | exact Dec | exact Cod].
Defined.

Lemma vary_gamma_call_counts_witness :
  exists evs, log (snd (Demo.sweep_vary Demo.start)) = log Demo.start ++ evs /\
    count is_build evs = 4 /\ count is_run_decoder evs = 2 /\
    count is_compress evs = 0.
Proof.
  destruct (@vary_gamma_call_counts Demo.env_ok Demo.reference 1 [] Demo.positions
              [10%Z; 7%Z] [10000%Q; 12000%Q] Demo.start
              (snd (Demo.sweep_vary Demo.start)) (fst (Demo.sweep_vary Demo.start))
              eq_refl)
    as (evs & L & _ & _ & _ & _ & Cod & R).
  destruct (R (rate (snd (Demo.sweep_vary Demo.start)),
               psnr (snd (Demo.sweep_vary Demo.start))) eq_refl)
    as (B & _ & _ & Dec).
  exists evs. splits; [exact L | exact B | exact Dec | exact Cod].
Defined.

(** * The scripts around the sweeps

    [write_reference] and the main block of [reconstructing_eae_kodak.py],
    and the script [creating_bsds.py].  They name files by formatting
    strings and call functions that are not among the sources; a run is
    modelled by the calls it makes, in order, and by what the sweeps do
    to TensorFlow and to their matrices. *)

From Stdlib Require String Ascii DecimalString DecimalNat.

Module Script.

Import Ascii String DecimalString.
Local Open Scope string_scope.
Local Open Scope list_scope.

Local Infix "+++" := String.append (right associativity, at level 60).

(** ** Names of files *)

Definition starts_with_sep (s : string) : bool :=
  match s with
  | String c _ => Ascii.eqb c "/"
  | EmptyString => false
  end.

Fixpoint ends_with_sep (s : string) : bool :=
  match s with
  | EmptyString => false
  | String c EmptyString => Ascii.eqb c "/"
  | String _ r => ends_with_sep r
  end.

(** [os.path.join(a, b)] of [posixpath]. *)
Definition join (a b : string) : string :=
  if starts_with_sep b then b
  else if String.eqb a "" || ends_with_sep a then a +++ b
  else a +++ "/" +++ b.

(** ['{}'.format(n)] for an index [n] computed by [range]. *)
Definition str (n : nat) : string := NilEmpty.string_of_uint (Nat.to_uint n).

Definition is_digit (c : ascii) : bool :=
  let n := nat_of_ascii c in ((48 <=? n) && (n <=? 57))%nat.

Fixpoint all_digits (s : string) : bool :=
  match s with
  | EmptyString => true
  | String c r => is_digit c && all_digits r
  end.

Definition starts_with_digit (s : string) : bool :=
  match s with
  | String c _ => is_digit c
  | EmptyString => false
  end.

(** The paths of [write_reference] for image [i]. *)
Definition reference_name (i : nat) : string :=
  "reference/reference_" +++ str i +++ ".png".

Definition reference_crop_name (i index_crop : nat) : string :=
  "reference/reference_" +++ str i +++ "_crop_" +++ str index_crop +++ ".png".

Definition reference_paths (path_to_checking_r : string)
    (positions_top_left : array2 Z) (i : nat) : list string :=
  join path_to_checking_r (reference_name i)
  :: map (fun index_crop => join path_to_checking_r (reference_crop_name i index_crop))
       (seq 0 (snd (shape2 positions_top_left))).

(** ** Runs *)

(** The calls of a script to the functions that read and write files. *)
Inductive call : Type :=
| VisualizeRotatedLuminance (image : array2 Z) (rotated : bool)
    (positions_top_left : array2 Z) (paths : list string)
| NumpyLoad (file : string)
| PickleLoad (file : string)
| NumpySave (file : string) (a : array2 float64)
| EvaluateJpeg2000 (path_to_before path_to_after : string) (qualities : list Z)
| EvaluateHevc (path_to_before path_to_after path_to_cfg path_to_bitstream : string)
    (qps : list Z) (path_to_vis : string)
| PlotCurves (curves : list (array2 float64 * array2 float64)) (title file : string)
| CreateBsds (path_to_root path_to_bsds path_to_list_rotation path_to_tar : string)
| SaveImage (file : string) (image : array2 Z).

(** The functions of the repository and of its libraries that the
    scripts call and that are not among the sources.  Each of them may
    raise.  [plot_curves] stands for the means over the images computed
    by [numpy.mean] and the calls of [matplotlib] that draw them and
    save the figure. *)
Record tools : Type := Tools {
  visualize_rotated_luminance_at :
    array2 Z -> bool -> array2 Z -> list string -> option exn;
  numpy_load : string -> result (array3 Z);
  pickle_load : string -> result (list nat);
  numpy_save : string -> array2 float64 -> option exn;
  evaluate_jpeg2000 :
    array3 Z -> string -> string -> list Z -> list nat -> array2 Z ->
    result (array2 float64 * array2 float64);
  evaluate_hevc :
    array3 Z -> string -> string -> string -> string -> list Z -> string ->
    list nat -> array2 Z -> result (array2 float64 * array2 float64);
  plot_curves :
    list (array2 float64 * array2 float64) -> string -> string -> option exn;
  create_bsds : string -> string -> string -> string -> option exn;
  save_image : string -> array2 Z -> option exn
}.

(** The state of a script: that of the sweeps it runs, and the calls it
    made. *)
Record world : Type := World {
  sweeps : state;
  calls : list call
}.

Definition io (A : Type) : Type := world -> result A * world.

Definition io_ret (A : Type) (a : A) : io A := fun w => (inr a, w).

Definition io_bind (A B : Type) (m : io A) (k : A -> io B) : io B :=
  fun w => match m w with
           | (inr a, w') => k a w'
           | (inl e, w') => (inl e, w')
           end.

Declare Scope script_scope.
Delimit Scope script_scope with script.
Notation "x <- m ;; k" := (io_bind m (fun x => k))
  (at level 61, m at next level, right associativity) : script_scope.
Notation "m ;; k" := (io_bind m (fun _ => k))
  (at level 61, right associativity) : script_scope.
Local Open Scope script_scope.

(** A call [c] whose outcome is [r]. *)
Definition ask (A : Type) (c : call) (r : result A) : io A :=
  fun w => (r, World (sweeps w) (calls w ++ [c])).

(** A call that returns nothing. *)
Definition perform (c : call) (o : option exn) : io unit :=
  ask c (match o with Some e => inl e | None => inr tt end).

(** A computation on values, which may raise. *)
Definition evaluate (A : Type) (r : result A) : io A := fun w => (r, w).

(** A call of one of the two sweep functions. *)
Definition sweep (A : Type) (m : M A) : io A :=
  fun w => let '(r, s) := m (sweeps w) in (r, World s (calls w)).

Fixpoint io_for_each (A : Type) (xs : list A) (body : A -> io unit) : io unit :=
  match xs with
  | [] => io_ret tt
  | x :: xs' => body x ;; io_for_each xs' body
  end.

Definition io_for_range (n : nat) (body : nat -> io unit) : io unit :=
  io_for_each (seq 0 n) body.

(** [numpy.array(rows)] for a list of rows of the same length. *)
Definition array_of (rows : list (list Z)) : array2 Z :=
  Array2 (List.length rows, List.length (hd [] rows))
         (fun r c => nth c (nth r rows []) 0%Z).

Section Scripts.

Variable E : env.
Variable T : tools.

(** ** [write_reference] *)

Definition write_reference (reference_uint8 : array3 Z) (path_to_checking_r : string)
    (list_rotation : list nat) (positions_top_left : array2 Z) : io unit :=
  io_for_range (nb_images reference_uint8) (fun i =>
    let paths := reference_paths path_to_checking_r positions_top_left i in
    image <- evaluate (slice3 reference_uint8 i) ;;
    perform
      (VisualizeRotatedLuminance image (is_rotated list_rotation i)
         positions_top_left paths)
      (visualize_rotated_luminance_at T image (is_rotated list_rotation i)
         positions_top_left paths)).

(** ** The main block of [reconstructing_eae_kodak.py] *)

Definition idxs_training : list Z := [10; 10; 10; 10; 10; 7; 6]%Z.

Definition gammas_scaling : list Q :=
  [10000; 12000; 16000; 24000; 40000; 72000; 96000]%Q.

Definition multipliers : list Q :=
  [1; 5 # 4; 3 # 2; 2; 3; 4; 6; 8; 10]%Q.

Definition qualities : list Z := [24; 26; 28; 30; 32; 34; 36; 38; 40]%Z.

Definition qps : list Z := [22; 27; 32; 37; 42; 47]%Z.

Definition str_set (use_bsds : bool) : string :=
  if use_bsds then "bsds" else "kodak".

Definition str_code (code_lossless : bool) : string :=
  if code_lossless then "lossless" else "approx".

Definition positions (use_bsds : bool) : array2 Z :=
  if use_bsds then array_of [[10; 110]; [10; 110]]%Z
  else array_of [[300; 200]; [200; 300]]%Z.

Definition title (use_bsds : bool) : string :=
  if use_bsds
  then "Mean rate-distortion curves over the 100 BSDS luminance images"
  else "Mean rate-distortion curves over the 24 Kodak luminance images".

Definition path_to_checking_r (use_bsds : bool) : string :=
  "eae/visualization/test/checking_reconstructing/" +++ str_set use_bsds +++ "/".

(** [numpy.save] of the two matrices of a method. *)
Definition save_matrices (use_bsds : bool) (name : string)
    (matrices : array2 float64 * array2 float64) : io unit :=
  let rate_file := join (path_to_checking_r use_bsds) ("rate_" +++ name +++ ".npy") in
  let psnr_file := join (path_to_checking_r use_bsds) ("psnr_" +++ name +++ ".npy") in
  perform (NumpySave rate_file (fst matrices)) (numpy_save T rate_file (fst matrices)) ;;
  perform (NumpySave psnr_file (snd matrices)) (numpy_save T psnr_file (snd matrices)).

Definition main (code_lossless use_bsds : bool) : io unit :=
  let positions_top_left := positions use_bsds in
  let path_to_list_rotation := str_set use_bsds +++ "/results/list_rotation.pkl" in
  let path_to_before_jpeg2000 :=
    "jpeg2000/visualization/" +++ str_set use_bsds +++ "/reference/" in
  let path_to_after_jpeg2000 :=
    "jpeg2000/visualization/" +++ str_set use_bsds +++ "/reconstruction/" in
  let path_to_before_hevc := "hevc_utils/temp/luminance_before_hevc.yuv" in
  let path_to_after_hevc := "hevc_utils/temp/luminance_after_hevc.yuv" in
  let path_to_cfg := "hevc_utils/configuration/intra.cfg" in
  let path_to_bitstream := "hevc_utils/temp/bitstream.bin" in
  let path_to_hevc_vis := "hevc_utils/visualization/" +++ str_set use_bsds +++ "/" in
  let path_to_reference :=
    str_set use_bsds +++ "/results/" +++ str_set use_bsds +++ ".npy" in
  reference_uint8 <- ask (NumpyLoad path_to_reference)
                         (numpy_load T path_to_reference) ;;
  list_rotation <- ask (PickleLoad path_to_list_rotation)
                       (pickle_load T path_to_list_rotation) ;;
  write_reference reference_uint8 (path_to_checking_r use_bsds) list_rotation
    positions_top_left ;;
  vary_gamma_fix_bin_widths_ <-
    sweep (vary_gamma_fix_bin_widths E reference_uint8 1 list_rotation
             positions_top_left idxs_training gammas_scaling) ;;
  save_matrices use_bsds "vary_gamma_fix_bin_widths" vary_gamma_fix_bin_widths_ ;;
  fix_gamma_learn_bin_widths <-
    sweep (fix_gamma E reference_uint8 (1 # 2) list_rotation positions_top_left
             multipliers 10 10000 true code_lossless) ;;
  save_matrices use_bsds ("fix_gamma_learn_bin_widths_" +++ str_code code_lossless)
    fix_gamma_learn_bin_widths ;;
  fix_gamma_fix_bin_widths <-
    sweep (fix_gamma E reference_uint8 1 list_rotation positions_top_left
             multipliers 10 10000 false code_lossless) ;;
  save_matrices use_bsds ("fix_gamma_fix_bin_widths_" +++ str_code code_lossless)
    fix_gamma_fix_bin_widths ;;
  jpeg2000 <-
    ask (EvaluateJpeg2000 path_to_before_jpeg2000 path_to_after_jpeg2000 qualities)
        (evaluate_jpeg2000 T reference_uint8 path_to_before_jpeg2000
           path_to_after_jpeg2000 qualities list_rotation positions_top_left) ;;
  save_matrices use_bsds "jpeg2000" jpeg2000 ;;
  hevc <-
    ask (EvaluateHevc path_to_before_hevc path_to_after_hevc path_to_cfg
           path_to_bitstream qps path_to_hevc_vis)
        (evaluate_hevc T reference_uint8 path_to_before_hevc path_to_after_hevc
           path_to_cfg path_to_bitstream qps path_to_hevc_vis list_rotation
           positions_top_left) ;;
  save_matrices use_bsds "hevc" hevc ;;
  let curves := [vary_gamma_fix_bin_widths_; fix_gamma_learn_bin_widths;
                 fix_gamma_fix_bin_widths; jpeg2000; hevc] in
  let figure := join (path_to_checking_r use_bsds) "rate_distortion.png" in
  perform (PlotCurves curves (title use_bsds) figure)
          (plot_curves T curves (title use_bsds) figure).

(** ** The script [creating_bsds.py] *)

Definition creating_bsds (path_to_root path_to_tar : string) : io unit :=
  let path_to_bsds := "datasets/bsds/results/bsds.npy" in
  let path_to_list_rotation := "datasets/bsds/results/list_rotation.pkl" in
  perform (CreateBsds path_to_root path_to_bsds path_to_list_rotation path_to_tar)
          (create_bsds T path_to_root path_to_bsds path_to_list_rotation path_to_tar) ;;
  reference_uint8 <- ask (NumpyLoad path_to_bsds) (numpy_load T path_to_bsds) ;;
  luminance_7 <- evaluate (slice3 reference_uint8 7) ;;
  perform (SaveImage "datasets/bsds/visualization/luminance_7.png" luminance_7)
          (save_image T "datasets/bsds/visualization/luminance_7.png" luminance_7) ;;
  luminance_39 <- evaluate (slice3 reference_uint8 39) ;;
  perform (SaveImage "datasets/bsds/visualization/luminance_39.png" luminance_39)
          (save_image T "datasets/bsds/visualization/luminance_39.png" luminance_39).

End Scripts.

(** ** Strings *)

Lemma append_cancel_l (a x y : string) : a +++ x = a +++ y -> x = y.
Proof.
  induction a as [|c a IH]; cbn; intros H; [exact H|].
  injection H as H. auto.
Qed.

Lemma all_digits_uint (d : Decimal.uint) :
  all_digits (NilEmpty.string_of_uint d) = true.
Proof. induction d; cbn; auto. Qed.

Lemma all_digits_str (n : nat) : all_digits (str n) = true.
Proof. apply all_digits_uint. Qed.

Lemma str_inj (i j : nat) : str i = str j -> i = j.
Proof.
  unfold str. intros H. apply DecimalNat.Unsigned.to_uint_inj.
  apply (f_equal NilEmpty.uint_of_string) in H.
  rewrite !NilEmpty.usu in H. now injection H.
Qed.

(** A number followed by a character that is no digit: the number ends
    where the character is. *)
Lemma digits_then (a a' x y : string) :
  all_digits a = true -> all_digits a' = true ->
  starts_with_digit x = false -> starts_with_digit y = false ->
  x <> "" -> y <> "" ->
  a +++ x = a' +++ y -> a = a' /\ x = y.
Proof.
  revert a'. induction a as [|c a IH]; intros [|c' a'] Da Da' Sx Sy Nx Ny H;
    cbn in *.
  - auto.
  - subst x. cbn in Sx. apply andb_prop in Da' as [D _]. congruence.
  - subst y. cbn in Sy. apply andb_prop in Da as [D _]. congruence.
  - injection H as -> H. apply andb_prop in Da as [_ Da].
    apply andb_prop in Da' as [_ Da'].
    destruct (IH a' Da Da' Sx Sy Nx Ny H) as [-> ->]. auto.
Qed.

Lemma join_relative (a b b' : string) :
  starts_with_sep b = false -> starts_with_sep b' = false ->
  join a b = join a b' -> b = b'.
Proof.
  unfold join. intros -> ->.
  destruct (String.eqb a "" || ends_with_sep a); intros H;
    apply append_cancel_l in H; [exact H|].
  cbn in H. now injection H.
Qed.

Ltac number_ends H :=
  apply digits_then in H;
  [ | apply all_digits_str | apply all_digits_str
    | reflexivity | reflexivity | discriminate | discriminate ].

Lemma reference_name_inj (i i' : nat) :
  reference_name i = reference_name i' -> i = i'.
Proof.
  unfold reference_name. intros H. apply append_cancel_l in H.
  number_ends H. now apply str_inj.
Qed.

Lemma reference_crop_name_inj (i i' k k' : nat) :
  reference_crop_name i k = reference_crop_name i' k' -> i = i' /\ k = k'.
Proof.
  unfold reference_crop_name. intros H. apply append_cancel_l in H.
  number_ends H. destruct H as [Hi H]. apply append_cancel_l in H.
  number_ends H. split; apply str_inj; tauto.
Qed.

Lemma reference_name_crop (i i' k : nat) :
  reference_name i <> reference_crop_name i' k.
Proof.
  unfold reference_name, reference_crop_name. intros H.
  apply append_cancel_l in H. number_ends H. destruct H as [_ H].
  discriminate H.
Qed.

(** The image a path of [write_reference] belongs to. *)
Lemma reference_paths_image (dir : string) (positions_top_left : array2 Z)
    (i i' : nat) (p : string) :
  In p (reference_paths dir positions_top_left i) ->
  In p (reference_paths dir positions_top_left i') -> i = i'.
Proof.
  unfold reference_paths.
  intros [<-|H1] [H|H2];
    try (apply in_map_iff in H1 as (k & <- & _));
    try (apply in_map_iff in H2 as (k' & H & _));
    apply join_relative in H; try reflexivity.
  - symmetry. now apply reference_name_inj.
  - symmetry in H. now apply reference_name_crop in H.
  - now apply reference_name_crop in H.
  - symmetry. now apply reference_crop_name_inj in H.
Qed.

Lemma NoDup_reference_paths (dir : string) (positions_top_left : array2 Z) (i : nat) :
  NoDup (reference_paths dir positions_top_left i).
Proof.
  unfold reference_paths. constructor.
  - rewrite in_map_iff. intros (k & H & _).
    apply join_relative in H; try reflexivity.
    symmetry in H. now apply reference_name_crop in H.
  - generalize (seq_NoDup (snd (shape2 positions_top_left)) 0).
    generalize (seq 0 (snd (shape2 positions_top_left))).
    induction l as [|k l IH]; intros ND; cbn [map]; constructor;
      inversion ND as [|? ? Hk ND']; subst; auto.
    rewrite in_map_iff. intros (k' & H & Hin).
    apply join_relative in H; try reflexivity.
    apply reference_crop_name_inj in H as [_ ->]. contradiction.
Qed.

(** ** The loop of [write_reference] *)

Section Reference.

Variable T : tools.
Variable reference_uint8 : array3 Z.
Variable path_to_checking_r : string.
Variable list_rotation : list nat.
Variable positions_top_left : array2 Z.

(** Luminance image [i]. *)
Definition luminance (i : nat) : array2 Z :=
  Array2 (h_in reference_uint8, w_in reference_uint8) (at3 reference_uint8 i).

(** The call of the visualization for image [i], and its outcome. *)
Definition visit (i : nat) : call :=
  VisualizeRotatedLuminance (luminance i) (is_rotated list_rotation i)
    positions_top_left (reference_paths path_to_checking_r positions_top_left i).

Definition visited (i : nat) : option exn :=
  visualize_rotated_luminance_at T (luminance i) (is_rotated list_rotation i)
    positions_top_left (reference_paths path_to_checking_r positions_top_left i).

Lemma slice3_luminance (i : nat) :
  i < nb_images reference_uint8 -> slice3 reference_uint8 i = inr (luminance i).
Proof.
  unfold slice3, luminance, nb_images, h_in, w_in.
  destruct (shape3 reference_uint8) as [[n h] w]. cbn [fst snd].
  intros L. apply Nat.ltb_lt in L. now rewrite L.
Qed.

(** One iteration of the loop. *)
Lemma write_reference_step (i : nat) (w : world) :
  i < nb_images reference_uint8 ->
  (let paths := reference_paths path_to_checking_r positions_top_left i in
   image <- evaluate (slice3 reference_uint8 i) ;;
   perform
     (VisualizeRotatedLuminance image (is_rotated list_rotation i)
        positions_top_left paths)
     (visualize_rotated_luminance_at T image (is_rotated list_rotation i)
        positions_top_left paths)) w
  = (match visited i with Some e => inl e | None => inr tt end,
     World (sweeps w) (calls w ++ [visit i])).
Proof.
  intros L. cbv zeta. unfold io_bind, evaluate, perform, ask.
  rewrite slice3_luminance by exact L. reflexivity.
Qed.

Lemma write_reference_loop (body : nat -> io unit) :
  (forall i w, i < nb_images reference_uint8 ->
     body i w = (match visited i with Some e => inl e | None => inr tt end,
                 World (sweeps w) (calls w ++ [visit i]))) ->
  forall len start w r w', start + len = nb_images reference_uint8 ->
    io_for_each (seq start len) body w = (r, w') ->
    sweeps w' = sweeps w /\
    exists k, start <= k /\ (forall i, start <= i < k -> visited i = None) /\
      match r with
      | inr _ => k = nb_images reference_uint8 /\
                 calls w' = calls w ++ map visit (seq start (k - start))
      | inl e => k < nb_images reference_uint8 /\ visited k = Some e /\
                 calls w' = calls w ++ map visit (seq start (S k - start))
      end.
Proof.
  intros Body. induction len as [|len IH]; intros start w r w' L Run.
  - cbn in Run. injection Run as <- <-. split; [reflexivity|].
    exists start. splits; try lia.
    rewrite Nat.sub_diag. cbn. now rewrite app_nil_r.
  - cbn [seq io_for_each] in Run. unfold io_bind in Run.
    rewrite Body in Run by lia.
    destruct (visited start) as [e|] eqn:V.
    + injection Run as <- <-. split; [reflexivity|].
      exists start. splits; try lia; [exact V|].
      replace (S start - start) with 1 by lia. reflexivity.
    + apply IH in Run as (Sw & k & Lk & Ok & Res); [|lia].
      split; [exact Sw|]. exists k. splits; [lia | |].
      * intros i Li. destruct (Nat.eq_dec i start) as [->|Ne]; [exact V|].
        apply Ok. lia.
      * destruct r as [e|u].
        -- destruct Res as (Lt & Vk & C). splits; auto.
           replace (S k - start) with (S (S k - S start)) by lia.
           rewrite C. cbn [calls seq map]. now rewrite <- app_assoc.
        -- destruct Res as (Ek & C). splits; auto.
           replace (k - start) with (S (k - S start)) by lia.
           rewrite C. cbn [calls seq map]. now rewrite <- app_assoc.
Qed.

(** A run of [write_reference]: it visualized the images before image
    [k] and, when it raised, image [k] raised. *)
Lemma write_reference_run (w : world) (r : result unit) (w' : world) :
  write_reference T reference_uint8 path_to_checking_r list_rotation
    positions_top_left w = (r, w') ->
  sweeps w' = sweeps w /\
  exists k, (forall i, i < k -> visited i = None) /\
    match r with
    | inr _ => k = nb_images reference_uint8 /\
               calls w' = calls w ++ map visit (seq 0 k)
    | inl e => k < nb_images reference_uint8 /\ visited k = Some e /\
               calls w' = calls w ++ map visit (seq 0 (S k))
    end.
Proof.
  intros Run. unfold write_reference, io_for_range in Run.
  eapply write_reference_loop in Run as (Sw & k & _ & Ok & Res);
    [ | intros; now apply write_reference_step | reflexivity ].
  split; [exact Sw|]. exists k. split; [intros; apply Ok; lia|].
  destruct r; rewrite Nat.sub_0_r in Res; exact Res.
Qed.

End Reference.

(** ** Steps of a script *)

Lemma io_bind_inv (A B : Type) (m : io A) (k : A -> io B) (w : world)
    (r : result B) (w' : world) :
  io_bind m k w = (r, w') ->
  (exists e, m w = (inl e, w') /\ r = inl e) \/
  (exists a w1, m w = (inr a, w1) /\ k a w1 = (r, w')).
Proof.
  unfold io_bind. destruct (m w) as [[e|a] w1]; intros H.
  - injection H as <- <-. left. eauto.
  - right. eauto.
Qed.

Lemma ask_inv (A : Type) (c : call) (r0 r : result A) (w w' : world) :
  ask c r0 w = (r, w') -> r0 = r /\ w' = World (sweeps w) (calls w ++ [c]).
Proof. unfold ask. intros H. injection H as <- <-. auto. Qed.

Lemma perform_inv (c : call) (o : option exn) (r : result unit) (w w' : world) :
  perform c o w = (r, w') ->
  w' = World (sweeps w) (calls w ++ [c]) /\
  match r with
  | inr _ => o = None
  | inl e => o = Some e
  end.
Proof.
  unfold perform, ask. intros H. injection H as <- <-.
  destruct o; auto.
Qed.

Lemma sweep_inv (A : Type) (m : M A) (r : result A) (w w' : world) :
  sweep m w = (r, w') ->
  exists s', m (sweeps w) = (r, s') /\ w' = World s' (calls w).
Proof.
  unfold sweep. destruct (m (sweeps w)) as [r1 s1]. intros H.
  injection H as <- <-. eauto.
Qed.

(** The matrices handed to [numpy.save], with the name of their file. *)
Fixpoint saved (cs : list call) : list (string * array2 float64) :=
  match cs with
  | [] => []
  | NumpySave file a :: cs' => (file, a) :: saved cs'
  | _ :: cs' => saved cs'
  end.

Lemma saved_app (a b : list call) : saved (a ++ b) = saved a ++ saved b.
Proof.
  induction a as [|c a IH]; [reflexivity|].
  destruct c; cbn; now rewrite ?IH.
Qed.

Section Steps.

Variable E : env.
Variable T : tools.

Lemma saved_visits reference_uint8 dir list_rotation positions_top_left
    (l : list nat) :
  saved (map (visit reference_uint8 dir list_rotation positions_top_left) l) = [].
Proof. induction l; cbn; auto. Qed.

Lemma write_reference_inv reference_uint8 dir list_rotation positions_top_left
    (w : world) (r : result unit) (w' : world) :
  write_reference T reference_uint8 dir list_rotation positions_top_left w
  = (r, w') ->
  exists k,
    w' = World (sweeps w)
           (calls w ++
            map (visit reference_uint8 dir list_rotation positions_top_left)
              (seq 0 k)).
Proof.
  intros Run. apply write_reference_run in Run as (Sw & k & _ & Res).
  destruct w' as [s' cs']. cbn [sweeps calls] in *. subst s'.
  destruct r as [e|u].
  - destruct Res as (_ & _ & ->). now exists (S k).
  - destruct Res as (_ & ->). now exists k.
Qed.

Definition rate_file (use_bsds : bool) (name : string) : string :=
  join (path_to_checking_r use_bsds) ("rate_" +++ name +++ ".npy").

Definition psnr_file (use_bsds : bool) (name : string) : string :=
  join (path_to_checking_r use_bsds) ("psnr_" +++ name +++ ".npy").

Lemma save_matrices_inv use_bsds name matrices (w : world) (r : result unit)
    (w' : world) :
  save_matrices T use_bsds name matrices w = (r, w') ->
  exists cs, w' = World (sweeps w) (calls w ++ cs) /\
    match r with
    | inr _ => cs = [NumpySave (rate_file use_bsds name) (fst matrices);
                     NumpySave (psnr_file use_bsds name) (snd matrices)]
    | inl _ => cs = [NumpySave (rate_file use_bsds name) (fst matrices)] \/
               cs = [NumpySave (rate_file use_bsds name) (fst matrices);
                     NumpySave (psnr_file use_bsds name) (snd matrices)]
    end.
Proof.
  unfold save_matrices. cbv zeta. intros Run.
  apply io_bind_inv in Run as [(e & Step & ->) | (a & w1 & Step & Run)];
    apply perform_inv in Step as [-> O].
  - eexists. split; [reflexivity|]. now left.
  - apply perform_inv in Run as [-> O']. cbn [sweeps calls].
    rewrite <- app_assoc. eexists. split; [reflexivity|].
    destruct r; [now right | reflexivity].
Qed.

End Steps.

(** One statement of a script: it raised, or the script goes on. *)
Ltac io_step Run :=
  let Step := fresh "Step" in
  apply io_bind_inv in Run as [(? & Step & ->) | (? & ? & Step & Run)];
  lazymatch type of Step with
  | ask _ _ _ = _ => apply ask_inv in Step as [Step ->]
  | perform _ _ _ = _ => apply perform_inv in Step as [-> Step]
  | sweep _ _ = _ => apply sweep_inv in Step as (? & Step & ->)
  | write_reference _ _ _ _ _ _ = _ =>
      apply write_reference_inv in Step as (? & ->)
  | save_matrices _ _ _ _ _ = _ =>
      apply save_matrices_inv in Step as (? & -> & Step)
  | evaluate _ _ = _ => unfold evaluate in Step; injection Step as Step <-
  end;
  cbn [sweeps calls] in *.

(** The last statement. *)
Ltac io_last Run :=
  lazymatch type of Run with
  | ask _ _ _ = _ => apply ask_inv in Run as [Run ->]
  | perform _ _ _ = _ => apply perform_inv in Run as [-> Run]
  end;
  cbn [sweeps calls] in *.

(** ** TensorFlow over a whole script *)

Lemma lifecycle_nil (A : Type) (r : result A) : lifecycle r [].
Proof.
  unfold lifecycle. destruct r; cbv; splits; first [lia | reflexivity | exact I].
Qed.

Lemma lifecycle_returned_any (A B : Type) (a : A) (r : result B)
    (evs : list event) :
  lifecycle (inr a) evs -> lifecycle r evs.
Proof.
  intros (H1 & H2 & H3). unfold lifecycle. splits; auto. now destruct r.
Qed.

Lemma lifecycle_raised (A B : Type) (r : result A) (e : exn) (evs : list event) :
  lifecycle r evs -> lifecycle (inl e : result B) evs.
Proof. intros (H1 & H2 & H3). unfold lifecycle. splits; auto. Qed.

Lemma lifecycle_returned_app (A B : Type) (a : A) (r : result B)
    (evs1 evs2 : list event) :
  lifecycle (inr a) evs1 -> lifecycle r evs2 -> lifecycle r (evs1 ++ evs2).
Proof.
  intros L1 L2. eapply lifecycle_app; [exact L1 | apply L1 | exact L2].
Qed.

Section Life.

Variable E : env.
Variable T : tools.

Lemma fix_gamma_life reference_uint8 bin_width_init list_rotation
    positions_top_left multipliers idx_training gamma_scaling
    are_bin_widths_learned is_lossless s r s' :
  fix_gamma E reference_uint8 bin_width_init list_rotation positions_top_left
    multipliers idx_training gamma_scaling are_bin_widths_learned is_lossless s
  = (r, s') ->
  exists evs, log s' = log s ++ evs /\ lifecycle r evs.
Proof.
  intros Run. apply fix_gamma_effect in Run as (evs & (Fr & _ & L) & _).
  exists evs. split; [apply Fr | exact L].
Qed.

Lemma vary_gamma_life reference_uint8 bin_width_init list_rotation
    positions_top_left idxs gammas s r s' :
  List.length idxs = List.length gammas ->
  vary_gamma_fix_bin_widths E reference_uint8 bin_width_init list_rotation
    positions_top_left idxs gammas s = (r, s') ->
  exists evs, log s' = log s ++ evs /\ lifecycle r evs.
Proof.
  intros Len Run. apply vary_gamma_effect in Run as (evs & (Fr & _ & L) & _);
    [|exact Len].
  exists evs. split; [apply Fr | exact L].
Qed.

(** The events of the sweeps that ran. *)
Ltac alive :=
  repeat match goal with
    | H : fix_gamma _ _ _ _ _ _ _ _ _ _ _ = _ |- _ =>
        apply fix_gamma_life in H as (? & ? & ?)
    | H : vary_gamma_fix_bin_widths _ _ _ _ _ _ _ _ = _ |- _ =>
        apply vary_gamma_life in H as (? & ? & ?); [|reflexivity]
    end;
  repeat match goal with
    | H : log ?s = _ |- context [log ?s] => rewrite H
    end;
  rewrite <- ?app_assoc;
  eexists; split; [first [reflexivity | symmetry; apply app_nil_r]|];
  repeat (eapply lifecycle_returned_app; [eassumption|]);
  first [ eassumption | apply lifecycle_nil
        | eapply lifecycle_returned_any; eassumption
        | eapply lifecycle_raised; eassumption ].

Lemma main_life (code_lossless use_bsds : bool) (w : world) (r : result unit)
    (w' : world) :
  main E T code_lossless use_bsds w = (r, w') ->
  exists evs, log (sweeps w') = log (sweeps w) ++ evs /\ lifecycle r evs.
Proof.
  intros Run. unfold main in Run. cbv zeta in Run.
  repeat (io_step Run; [alive|]).
  io_last Run. alive.
Qed.

End Life.

(** ** What the script saves *)

(** The evaluations of entropy autoencoders: one training per rate, one
    training with learned bin widths, one training with fixed bin
    widths. *)
Inductive method : Type := VaryGamma | LearnBinWidths | FixBinWidths.

(** The name under which the main block saves the matrices of a method. *)
Definition method_name (code_lossless : bool) (m : method) : string :=
  match m with
  | VaryGamma => "vary_gamma_fix_bin_widths"
  | LearnBinWidths => "fix_gamma_learn_bin_widths_" +++ str_code code_lossless
  | FixBinWidths => "fix_gamma_fix_bin_widths_" +++ str_code code_lossless
  end.

(** The number of configurations of a method. *)
Definition method_points (m : method) : nat :=
  match m with
  | VaryGamma => List.length gammas_scaling
  | _ => List.length multipliers
  end.

(** The rate and the PSNR of image [j] in configuration [i] of a method,
    from the arguments the main block passes to the sweep. *)
Definition method_cell (E : env) (code_lossless : bool) (reference_uint8 : array3 Z)
    (m : method) (i j : nat) : result (float64 * float64) :=
  match m with
  | VaryGamma =>
      vary_gamma_cell E reference_uint8 1 idxs_training gammas_scaling i j
  | LearnBinWidths =>
      fix_gamma_cell E reference_uint8 (1 # 2) multipliers 10 10000 true
        code_lossless i j
  | FixBinWidths =>
      fix_gamma_cell E reference_uint8 1 multipliers 10 10000 false
        code_lossless i j
  end.

Definition reference_file (use_bsds : bool) : string :=
  str_set use_bsds +++ "/results/" +++ str_set use_bsds +++ ".npy".

(** Every matrix among the saved ones that bears the name of a method
    holds, cell by cell, the rates or the PSNRs of this method. *)
Definition holds_methods (E : env) (code_lossless use_bsds : bool)
    (reference_uint8 : array3 Z) (files : list (string * array2 float64)) : Prop :=
  forall (m : method) (a : array2 float64) (i j : nat),
    i < method_points m -> j < nb_images reference_uint8 ->
    (In (rate_file use_bsds (method_name code_lossless m), a) files ->
     exists rt p,
       method_cell E code_lossless reference_uint8 m i j = inr (rt, p) /\
       getitem a i j = inr rt) /\
    (In (psnr_file use_bsds (method_name code_lossless m), a) files ->
     exists rt p,
       method_cell E code_lossless reference_uint8 m i j = inr (rt, p) /\
       getitem a i j = inr p).

Section Saves.

Variable E : env.
Variable T : tools.

(** The cells of the matrices a sweep returned. *)
Ltac returned :=
  repeat match goal with
    | H : fix_gamma _ _ _ _ _ _ _ _ _ _ _ = (inr _, _) |- _ =>
        apply fix_gamma_holds in H as [? ?]
    | H : vary_gamma_fix_bin_widths _ _ _ _ _ _ _ _ = (inr _, _) |- _ =>
        apply vary_gamma_holds in H as [? ?]
    | H : fix_gamma _ _ _ _ _ _ _ _ _ _ _ = (inl _, _) |- _ => clear H
    | H : vary_gamma_fix_bin_widths _ _ _ _ _ _ _ _ = (inl _, _) |- _ => clear H
    end.

(** Two names of files are the same. *)
Ltac same_file H m cl :=
  unfold rate_file, psnr_file in H;
  apply join_relative in H; [|reflexivity|reflexivity];
  destruct m, cl; cbn in H; try discriminate H.

(** The files saved when the script stops. *)
Ltac saved_files :=
  cbn [calls]; returned; subst;
  repeat match goal with
    | H : _ = _ \/ _ = _ |- _ => destruct H
    end;
  subst; rewrite <- ?app_assoc; eexists; (split; [reflexivity|]);
  rewrite ?saved_app, ?saved_visits; cbn [saved app fst snd];
  intros ? ? ? ? ? ?; split; intros HIn; cbn [In] in HIn;
  repeat match goal with
    | H : _ \/ _ |- _ => destruct H
    | H : False |- _ => destruct H
    end;
  match goal with
  | H : (_, _) = (_, _) |- context [method_cell _ ?cl _ ?m _ _] =>
      injection H as H <-; same_file H m cl
  end;
  cbn [method_cell method_points] in *;
  match goal with
  | H : forall i j, _ -> _ -> holds (fix_gamma_cell _ _ _ _ _ _ ?l ?b _) _ _ _
    |- context [fix_gamma_cell _ _ _ _ _ _ ?l ?b _ _] =>
      edestruct H as (? & ? & ? & ? & ?); [eassumption | eassumption |]
  | H : forall i j, _ -> _ -> holds (vary_gamma_cell _ _ _ _ _ _) _ _ _
    |- context [vary_gamma_cell _ _ _ _ _ _ _] =>
      edestruct H as (? & ? & ? & ? & ?); [eassumption | eassumption |]
  end;
  do 2 eexists; split; eassumption.

Lemma main_saves (code_lossless use_bsds : bool) (w : world) (r : result unit)
    (w' : world) (reference_uint8 : array3 Z) :
  main E T code_lossless use_bsds w = (r, w') ->
  numpy_load T (reference_file use_bsds) = inr reference_uint8 ->
  exists cs, calls w' = calls w ++ cs /\
    holds_methods E code_lossless use_bsds reference_uint8 (saved cs).
Proof.
  intros Run Load. unfold main in Run. cbv zeta in Run.
  fold (reference_file use_bsds) in Run. unfold holds_methods.
  io_step Run.
  { rewrite Load in Step. discriminate Step. }
  rewrite Load in Step. injection Step as <-.
  repeat (io_step Run; [saved_files|]).
  io_last Run. saved_files.
Qed.

End Saves.

(** The files of the matrices, in the order of the main block. *)
Definition result_files (code_lossless use_bsds : bool) : list string :=
  flat_map (fun name => [rate_file use_bsds name; psnr_file use_bsds name])
    [method_name code_lossless VaryGamma;
     method_name code_lossless LearnBinWidths;
     method_name code_lossless FixBinWidths;
     "jpeg2000"; "hevc"].

Lemma NoDup_result_files (code_lossless use_bsds : bool) :
  NoDup (result_files code_lossless use_bsds).
Proof.
  unfold result_files, rate_file, psnr_file. cbn [flat_map app].
  repeat constructor; cbn [In]; intros H;
    repeat match goal with
      | H : _ \/ _ |- _ => destruct H as [H|H]
      | H : False |- _ => destruct H
      end;
    (apply join_relative in H; [|reflexivity|reflexivity]);
    destruct code_lossless; discriminate H.
Qed.

Section Files.

Variable E : env.
Variable T : tools.

Ltac in_order :=
  cbn [calls];
  repeat match goal with
    | H : _ = _ \/ _ = _ |- _ => destruct H
    end;
  subst; rewrite <- ?app_assoc; eexists; (split; [reflexivity|]);
  rewrite ?saved_app, ?saved_visits; cbn [saved app fst snd map];
  (split; [eexists; reflexivity | intros ? ?; first [discriminate | reflexivity]]).

Lemma main_files (code_lossless use_bsds : bool) (w : world) (r : result unit)
    (w' : world) :
  main E T code_lossless use_bsds w = (r, w') ->
  exists cs, calls w' = calls w ++ cs /\
    is_prefix (map fst (saved cs)) (result_files code_lossless use_bsds) /\
    (forall u, r = inr u ->
       map fst (saved cs) = result_files code_lossless use_bsds).
Proof.
  intros Run. unfold main in Run. cbv zeta in Run.
  unfold result_files. cbn [flat_map app method_name].
  repeat (io_step Run; [in_order|]).
  io_last Run. in_order.
Qed.

End Files.

(** ** The calls of the three sweeps together *)

(** The calls of a complete run of the main block on [n] images. *)
Definition main_tally (code_lossless : bool) (n : nat) : tally :=
  tally_add (tally_times (List.length gammas_scaling) vary_gamma_point_tally)
    (tally_add (fix_gamma_tally code_lossless (List.length multipliers) n)
               (fix_gamma_tally code_lossless (List.length multipliers) n)).

Section Tally.

Variable E : env.
Variable T : tools.

Ltac counting :=
  repeat match goal with
    | H : fix_gamma _ _ _ _ _ _ _ _ _ _ _ = _ |- _ =>
        apply fix_gamma_census in H as (? & ? & ?)
    | H : vary_gamma_fix_bin_widths _ _ _ _ _ _ _ _ = _ |- _ =>
        apply vary_gamma_census in H as (? & ? & ?)
    end;
  repeat match goal with
    | H : log ?s = _ |- context [log ?s] => rewrite H
    end;
  rewrite <- ?app_assoc;
  eexists; (split; [first [reflexivity | symmetry; apply app_nil_r]|]);
  try match goal with
      | |- census ?r _ _ => is_var r; destruct r
      end;
  unfold main_tally, fix_gamma_tally, vary_gamma_point_tally in *;
  change (List.length gammas_scaling) with 7 in *;
  change (List.length multipliers) with 9 in *;
  tallies; lia.

Lemma main_census (code_lossless use_bsds : bool) (w : world) (r : result unit)
    (w' : world) (reference_uint8 : array3 Z) :
  main E T code_lossless use_bsds w = (r, w') ->
  numpy_load T (reference_file use_bsds) = inr reference_uint8 ->
  exists evs, log (sweeps w') = log (sweeps w) ++ evs /\
    census r evs (main_tally code_lossless (nb_images reference_uint8)).
Proof.
  intros Run Load. unfold main in Run. cbv zeta in Run.
  fold (reference_file use_bsds) in Run.
  io_step Run.
  { rewrite Load in Step. discriminate Step. }
  rewrite Load in Step. injection Step as <-.
  destruct code_lossless.
  all: repeat (io_step Run; [counting|]).
  all: io_last Run; counting.
Qed.

End Tally.

(** ** The script [creating_bsds.py] *)

Lemma slice3_outside (reference_uint8 : array3 Z) (i : nat) :
  nb_images reference_uint8 <= i -> slice3 reference_uint8 i = inl IndexError.
Proof.
  unfold slice3, nb_images.
  destruct (shape3 reference_uint8) as [[n h] w]. cbn [fst snd].
  intros L. apply Nat.ltb_ge in L. now rewrite L.
Qed.

Lemma slice3_inside (reference_uint8 : array3 Z) (i : nat) (image : array2 Z) :
  slice3 reference_uint8 i = inr image ->
  i < nb_images reference_uint8 /\ image = luminance reference_uint8 i.
Proof.
  intros H. destruct (Nat.lt_ge_cases i (nb_images reference_uint8)) as [L|L].
  - rewrite slice3_luminance in H by exact L. injection H as <-. auto.
  - rewrite slice3_outside in H by exact L. discriminate H.
Qed.

End Script.
Export Script.



(** ** Properties of the scripts *)

Section Pictures.

Import String.
Local Open Scope string_scope.
Local Open Scope list_scope.

Variable T : tools.

(** X6. [write_reference] gives every picture a path of its own: over all
    images and all crops, whatever the folder and the number of crops, no
    two of the paths it hands to the visualization are the same string,
    so no picture of a run overwrites another. *)
Theorem reference_paths_distinct (path_to_checking_r : string)
    (positions_top_left : array2 Z) (nb_images : nat) :
  NoDup (flat_map (reference_paths path_to_checking_r positions_top_left)
           (seq 0 nb_images)).
Proof.
  apply NoDup_flat_map_disjoint.
  - apply seq_NoDup.
  - intros i _. apply NoDup_reference_paths.
  - intros i i' p _ _. apply reference_paths_image.
Qed.

(** X7. [write_reference] visualizes the luminance images in the order of
    their index, each with its own paths and its own rotation flag, and
    stops at the first image whose visualization raises: the images
    before it were visualized without an exception, this exception is the
    one of the run, and no later image is visited.  A run that returns has
    visualized every image once.  The run changes nothing of the sweeps. *)
Theorem write_reference_visits (reference_uint8 : array3 Z)
    (path_to_checking_r : string) (list_rotation : list nat)
    (positions_top_left : array2 Z) (w w' : world) (r : result unit) :
  write_reference T reference_uint8 path_to_checking_r list_rotation
    positions_top_left w = (r, w') ->
  let visit := visit reference_uint8 path_to_checking_r list_rotation
                 positions_top_left in
  let visited := visited T reference_uint8 path_to_checking_r list_rotation
                   positions_top_left in
  sweeps w' = sweeps w /\
  exists k, (forall i, i < k -> visited i = None) /\
    match r with
    | inr _ => k = nb_images reference_uint8 /\
               calls w' = calls w ++ map visit (seq 0 k)
    | inl e => k < nb_images reference_uint8 /\ visited k = Some e /\
               calls w' = calls w ++ map visit (seq 0 (S k))
    end.
Proof. intros Run. cbv zeta. now apply write_reference_run. Qed.

(** X8. [creating_bsds.py] returns only when the array it loads has at
    least 40 luminance images: it then made four calls, the creation of
    the set, the load, and the writing of images 7 and 39, in this order
    and none of them raised. *)
Theorem creating_bsds_returns (path_to_root path_to_tar : string)
    (w w' : world) (u : unit) :
  creating_bsds T path_to_root path_to_tar w = (inr u, w') ->
  exists reference_uint8,
    numpy_load T "datasets/bsds/results/bsds.npy" = inr reference_uint8 /\
    40 <= nb_images reference_uint8 /\
    sweeps w' = sweeps w /\
    calls w' = calls w ++
      [CreateBsds path_to_root "datasets/bsds/results/bsds.npy"
         "datasets/bsds/results/list_rotation.pkl" path_to_tar;
       NumpyLoad "datasets/bsds/results/bsds.npy";
       SaveImage "datasets/bsds/visualization/luminance_7.png"
         (luminance reference_uint8 7);
       SaveImage "datasets/bsds/visualization/luminance_39.png"
         (luminance reference_uint8 39)].
Proof.
  intros Run. unfold creating_bsds in Run. cbv zeta in Run.
  apply io_bind_inv in Run as [(e & _ & H) | (? & w1 & Create & Run)];
    [discriminate H|].
  apply perform_inv in Create as [-> _].
  apply io_bind_inv in Run as [(e & _ & H) | (ref & w2 & Load & Run)];
    [discriminate H|].
  apply ask_inv in Load as [Load ->].
  apply io_bind_inv in Run as [(e & _ & H) | (image7 & w3 & Slice7 & Run)];
    [discriminate H|].
  unfold evaluate in Slice7. injection Slice7 as Slice7 <-.
  apply io_bind_inv in Run as [(e & _ & H) | (? & w4 & Save7 & Run)];
    [discriminate H|].
  apply perform_inv in Save7 as [-> _].
  apply io_bind_inv in Run as [(e & _ & H) | (image39 & w5 & Slice39 & Run)];
    [discriminate H|].
  unfold evaluate in Slice39. injection Slice39 as Slice39 <-.
  apply perform_inv in Run as [-> _]. cbn [sweeps calls].
  apply slice3_inside in Slice7 as [_ ->].
  apply slice3_inside in Slice39 as [L ->].
  exists ref. splits; [exact Load | lia | reflexivity |].
  rewrite <- !app_assoc. reflexivity.
Qed.

(** X9. On a set of fewer than 40 luminance images [creating_bsds.py]
    ends with [IndexError]: before any image is written when the set has
    fewer than 8 images, and after image 7 is written otherwise.  The
    image of index 39 is never written. *)
Theorem creating_bsds_short_set (path_to_root path_to_tar : string)
    (reference_uint8 : array3 Z) (w : world) :
  create_bsds T path_to_root "datasets/bsds/results/bsds.npy"
    "datasets/bsds/results/list_rotation.pkl" path_to_tar = None ->
  numpy_load T "datasets/bsds/results/bsds.npy" = inr reference_uint8 ->
  nb_images reference_uint8 < 40 ->
  save_image T "datasets/bsds/visualization/luminance_7.png"
    (luminance reference_uint8 7) = None ->
  creating_bsds T path_to_root path_to_tar w
  = (inl IndexError,
     World (sweeps w)
       (calls w ++
        [CreateBsds path_to_root "datasets/bsds/results/bsds.npy"
           "datasets/bsds/results/list_rotation.pkl" path_to_tar;
         NumpyLoad "datasets/bsds/results/bsds.npy"] ++
        (if (nb_images reference_uint8 <? 8)%nat then []
         else [SaveImage "datasets/bsds/visualization/luminance_7.png"
                 (luminance reference_uint8 7)]))).
Proof.
  intros Create Load Short Save.
  unfold creating_bsds, io_bind, perform, ask, evaluate. cbv zeta.
  rewrite Create, Load. cbn [sweeps calls].
  destruct (nb_images reference_uint8 <? 8)%nat eqn:L.
  - apply Nat.ltb_lt in L. rewrite slice3_outside by lia.
    now rewrite <- !app_assoc.
  - apply Nat.ltb_ge in L. rewrite slice3_luminance by lia.
    rewrite Save. cbn [sweeps calls]. rewrite slice3_outside by lia.
    now rewrite <- !app_assoc.
Qed.

End Pictures.

Section MainBlock.

Import String.
Local Open Scope string_scope.
Local Open Scope list_scope.

Variable E : env.
Variable T : tools.

(** X10. Over the whole main block of [reconstructing_eae_kodak.py], the
    three sweeps one after the other, at most one graph is in the
    default graph and at most one session is open at any time; no
    session is open when the script stops, and a script that returns
    leaves the default graph empty. *)
Theorem main_tensorflow (code_lossless use_bsds : bool) (w w' : world)
    (r : result unit) :
  main E T code_lossless use_bsds w = (r, w') ->
  exists evs, log (sweeps w') = log (sweeps w) ++ evs /\
    throughout exclusive idle evs /\
    sessions (tf_run idle evs) = 0 /\
    (forall u, r = inr u -> tf_run idle evs = idle).
Proof.
  intros Run. apply main_life in Run as (evs & L & T1 & T2 & T3).
  exists evs. splits; auto. now intros u ->.
Qed.

(** X11. The main block saves the matrices in the order in which it
    evaluates the methods, the rates before the PSNRs: what it has handed
    to [numpy.save] when it stops is a beginning of the list of the ten
    files, and the whole list when it returns.  The ten names are
    distinct, with and without [--code_lossless] and [--use_bsds]. *)
Theorem main_saves_in_order (code_lossless use_bsds : bool) (w w' : world)
    (r : result unit) :
  main E T code_lossless use_bsds w = (r, w') ->
  exists cs, calls w' = calls w ++ cs /\
    is_prefix (map fst (saved cs)) (result_files code_lossless use_bsds) /\
    (forall u, r = inr u ->
       map fst (saved cs) = result_files code_lossless use_bsds) /\
    NoDup (result_files code_lossless use_bsds).
Proof.
  intros Run. apply main_files in Run as (cs & C & P & R).
  exists cs. splits; auto. apply NoDup_result_files.
Qed.

(** X12. Whenever the main block hands a matrix to [numpy.save] under
    the name of one of the three evaluations of entropy autoencoders,
    cell [(i, j)] of this matrix is the rate, respectively the PSNR, of
    image [j] of the loaded set in configuration [i] of this evaluation,
    computed with the constants of the main block: the file of a method
    never holds the matrix of another method, nor a rate in place of a
    PSNR. *)
Theorem main_saves_sweep_cells (code_lossless use_bsds : bool) (w w' : world)
    (r : result unit) (reference_uint8 : array3 Z) :
  main E T code_lossless use_bsds w = (r, w') ->
  numpy_load T (reference_file use_bsds) = inr reference_uint8 ->
  exists cs, calls w' = calls w ++ cs /\
    forall (m : method) (a : array2 float64) (i j : nat),
      i < method_points m -> j < nb_images reference_uint8 ->
      (In (rate_file use_bsds (method_name code_lossless m), a) (saved cs) ->
       exists rt p,
         method_cell E code_lossless reference_uint8 m i j = inr (rt, p) /\
         getitem a i j = inr rt) /\
      (In (psnr_file use_bsds (method_name code_lossless m), a) (saved cs) ->
       exists rt p,
         method_cell E code_lossless reference_uint8 m i j = inr (rt, p) /\
         getitem a i j = inr p).
Proof. intros Run Load. eapply main_saves; eassumption. Qed.

(** X13. A run of the main block on [n] images builds at most 18 graphs,
    restores at most 18 checkpoints, runs the encoder at most 9 times
    and the decoder at most 25 times, and calls the entropy coder at most
    [18 * n] times with [--code_lossless] and never without it; a run
    that returns has made exactly these numbers of calls. *)
Theorem main_call_counts (code_lossless use_bsds : bool) (w w' : world)
    (r : result unit) (reference_uint8 : array3 Z) :
  main E T code_lossless use_bsds w = (r, w') ->
  numpy_load T (reference_file use_bsds) = inr reference_uint8 ->
  let coded := if code_lossless then 18 * nb_images reference_uint8 else 0 in
  exists evs, log (sweeps w') = log (sweeps w) ++ evs /\
    count is_build evs <= 18 /\ count is_restore evs <= 18 /\
    count is_run_encoder evs <= 9 /\ count is_run_decoder evs <= 25 /\
    count is_compress evs <= coded /\
    (forall u, r = inr u ->
       count is_build evs = 18 /\ count is_restore evs = 18 /\
       count is_run_encoder evs = 9 /\ count is_run_decoder evs = 25 /\
       count is_compress evs = coded).
Proof.
  intros Run Load coded.
  eapply main_census in Run as (evs & L & C); [|exact Load].
  exists evs. split; [exact L|]. subst coded.
  destruct r as [e|u']; destruct code_lossless;
    unfold main_tally, fix_gamma_tally, vary_gamma_point_tally in C;
    change (List.length gammas_scaling) with 7 in C;
    change (List.length multipliers) with 9 in C;
    tallies; splits; try lia; intros u0 Hu; try discriminate Hu; lia.
Qed.

End MainBlock.

(** ** Runs of the scripts on two images of one pixel *)

Module ScriptDemo.

Import String.
Local Open Scope string_scope.
Local Open Scope list_scope.

(** A set of a hundred images of one pixel. *)
Definition bsds : array3 Z := Array3 (100, 1, 1) (fun j _ _ => Z.of_nat j).

(** Files that can all be read and written: the BSDS test set has a
    hundred images, the other sets are [Demo.reference]. *)
Definition tools_ok : tools := {|
  visualize_rotated_luminance_at := fun _ _ _ _ => None;
  numpy_load := fun file =>
    if String.eqb file "datasets/bsds/results/bsds.npy" then inr bsds
    else inr Demo.reference;
  pickle_load := fun _ => inr [1];
  numpy_save := fun _ _ => None;
  evaluate_jpeg2000 := fun _ _ _ _ _ _ => inr (zeros 9 2, zeros 9 2);
  evaluate_hevc := fun _ _ _ _ _ _ _ _ _ => inr (zeros 6 2, zeros 6 2);
  plot_curves := fun _ _ _ => None;
  create_bsds := fun _ _ _ _ => None;
  save_image := fun _ _ => None
|}.

(** The same, but the BSDS test set was created with two images. *)
Definition tools_short : tools := {|
  visualize_rotated_luminance_at := visualize_rotated_luminance_at tools_ok;
  numpy_load := fun _ => inr Demo.reference;
  pickle_load := pickle_load tools_ok;
  numpy_save := numpy_save tools_ok;
  evaluate_jpeg2000 := evaluate_jpeg2000 tools_ok;
  evaluate_hevc := evaluate_hevc tools_ok;
  plot_curves := plot_curves tools_ok;
  create_bsds := create_bsds tools_ok;
  save_image := save_image tools_ok
|}.

(** The same as [tools_ok], but the picture of the second image cannot
    be written. *)
Definition tools_disk_full : tools := {|
  visualize_rotated_luminance_at :=
    fun _ rotated _ _ => if rotated then Some OSError else None;
  numpy_load := numpy_load tools_ok;
  pickle_load := pickle_load tools_ok;
  numpy_save := numpy_save tools_ok;
  evaluate_jpeg2000 := evaluate_jpeg2000 tools_ok;
  evaluate_hevc := evaluate_hevc tools_ok;
  plot_curves := plot_curves tools_ok;
  create_bsds := create_bsds tools_ok;
  save_image := save_image tools_ok
|}.

(** The state in which a script starts. *)
Definition start : world := World Demo.start [].

(** [write_reference] on the two images, of which the second is rotated. *)
Definition run_reference : result unit * world :=
  write_reference tools_disk_full Demo.reference "checking/" [1] Demo.positions start.

(** A sweep of [fix_gamma] with lossless coding. *)
Definition sweep_lossless : M (array2 float64 * array2 float64) :=
  fix_gamma Demo.env_ok Demo.reference 1 [] Demo.positions [2%Q] 10 10000 false true.

(** The main block on the Kodak test set, without lossless coding,
    returns. *)
Example main_returns : fst (main Demo.env_ok tools_ok false false start) = inr tt.
Proof. reflexivity. Qed.

Example run_reference_paths :
  reference_paths "checking/" Demo.positions 1 = ["checking/reference/reference_1.png"].
Proof. reflexivity. Qed.

End ScriptDemo.

Lemma lossless_needs_pixels_witness :
  0 < length [2%Q] /\ 0 < nb_images Demo.reference /\
  h_in Demo.reference * w_in Demo.reference <> 0.
Proof.
  assert (0 < length [2%Q]) as Lp by (cbn; lia).
  assert (0 < nb_images Demo.reference) as Ln by (cbn; lia).
  split; [exact Lp|]. split; [exact Ln|].
  exact (@lossless_needs_pixels Demo.env_ok Demo.reference 1 [] Demo.positions
           [2%Q] 10 10000 false Demo.start
           (snd (ScriptDemo.sweep_lossless Demo.start))
           (rate (snd (ScriptDemo.sweep_lossless Demo.start)),
            psnr (snd (ScriptDemo.sweep_lossless Demo.start)))
           eq_refl Lp Ln).
Defined.

Section ScriptWitnesses.

Import String.
Local Open Scope string_scope.
Local Open Scope list_scope.

Lemma write_reference_visits_witness :
  sweeps (snd ScriptDemo.run_reference) = sweeps ScriptDemo.start /\
  exists k,
    (forall i, i < k ->
       visited ScriptDemo.tools_disk_full Demo.reference "checking/" [1]
         Demo.positions i = None) /\
    match fst ScriptDemo.run_reference with
    | inr _ =>
        k = nb_images Demo.reference /\
        calls (snd ScriptDemo.run_reference)
        = calls ScriptDemo.start ++
          map (visit Demo.reference "checking/" [1] Demo.positions) (seq 0 k)
    | inl e =>
        k < nb_images Demo.reference /\
        visited ScriptDemo.tools_disk_full Demo.reference "checking/" [1]
          Demo.positions k = Some e /\
        calls (snd ScriptDemo.run_reference)
        = calls ScriptDemo.start ++
          map (visit Demo.reference "checking/" [1] Demo.positions) (seq 0 (S k))
    end.
Proof.
  apply (@write_reference_visits ScriptDemo.tools_disk_full Demo.reference
           "checking/" [1] Demo.positions ScriptDemo.start
           (snd ScriptDemo.run_reference) (fst ScriptDemo.run_reference)).
  reflexivity.
Defined.

Lemma creating_bsds_returns_witness :
  exists reference_uint8,
    numpy_load ScriptDemo.tools_ok "datasets/bsds/results/bsds.npy"
      = inr reference_uint8 /\
    40 <= nb_images reference_uint8 /\
    sweeps (snd (creating_bsds ScriptDemo.tools_ok "BSDS300" "" ScriptDemo.start))
      = sweeps ScriptDemo.start /\
    calls (snd (creating_bsds ScriptDemo.tools_ok "BSDS300" "" ScriptDemo.start))
      = calls ScriptDemo.start ++
        [CreateBsds "BSDS300" "datasets/bsds/results/bsds.npy"
           "datasets/bsds/results/list_rotation.pkl" "";
         NumpyLoad "datasets/bsds/results/bsds.npy";
         SaveImage "datasets/bsds/visualization/luminance_7.png"
           (luminance reference_uint8 7);
         SaveImage "datasets/bsds/visualization/luminance_39.png"
           (luminance reference_uint8 39)].
Proof.
  apply (@creating_bsds_returns ScriptDemo.tools_ok "BSDS300" ""
           ScriptDemo.start
           (snd (creating_bsds ScriptDemo.tools_ok "BSDS300" "" ScriptDemo.start))
           tt).
  reflexivity.
Defined.

Lemma creating_bsds_short_set_witness :
  creating_bsds ScriptDemo.tools_short "BSDS300" "" ScriptDemo.start
  = (inl IndexError,
     World Demo.start
       [CreateBsds "BSDS300" "datasets/bsds/results/bsds.npy"
          "datasets/bsds/results/list_rotation.pkl" "";
        NumpyLoad "datasets/bsds/results/bsds.npy"]).
Proof.
  apply (@creating_bsds_short_set ScriptDemo.tools_short "BSDS300" ""
           Demo.reference ScriptDemo.start);
    [reflexivity | reflexivity | cbn; lia | reflexivity].
Defined.

Lemma main_tensorflow_witness :
  exists evs,
    log (sweeps (snd (main Demo.env_ok ScriptDemo.tools_ok false false ScriptDemo.start))) = log (sweeps ScriptDemo.start) ++ evs /\
    throughout exclusive idle evs /\
    sessions (tf_run idle evs) = 0 /\
    (forall u, fst (main Demo.env_ok ScriptDemo.tools_ok false false ScriptDemo.start) = inr u -> tf_run idle evs = idle).
Proof.
  apply (@main_tensorflow Demo.env_ok ScriptDemo.tools_ok false false
           ScriptDemo.start (snd (main Demo.env_ok ScriptDemo.tools_ok false false ScriptDemo.start)) (fst (main Demo.env_ok ScriptDemo.tools_ok false false ScriptDemo.start))).
  apply surjective_pairing.
Defined.

Lemma main_saves_in_order_witness :
  exists cs,
    calls (snd (main Demo.env_ok ScriptDemo.tools_ok false false ScriptDemo.start)) = calls ScriptDemo.start ++ cs /\
    is_prefix (map fst (saved cs)) (result_files false false) /\
    (forall u, fst (main Demo.env_ok ScriptDemo.tools_ok false false ScriptDemo.start) = inr u ->
       map fst (saved cs) = result_files false false) /\
    NoDup (result_files false false).
Proof.
  apply (@main_saves_in_order Demo.env_ok ScriptDemo.tools_ok false false
           ScriptDemo.start (snd (main Demo.env_ok ScriptDemo.tools_ok false false ScriptDemo.start)) (fst (main Demo.env_ok ScriptDemo.tools_ok false false ScriptDemo.start))).
  apply surjective_pairing.
Defined.

Lemma main_saves_sweep_cells_witness :
  exists cs,
    calls (snd (main Demo.env_ok ScriptDemo.tools_ok false false ScriptDemo.start)) = calls ScriptDemo.start ++ cs /\
    forall (m : method) (a : array2 float64) (i j : nat),
      i < method_points m -> j < nb_images Demo.reference ->
      (In (rate_file false (method_name false m), a) (saved cs) ->
       exists rt p,
         method_cell Demo.env_ok false Demo.reference m i j = inr (rt, p) /\
         getitem a i j = inr rt) /\
      (In (psnr_file false (method_name false m), a) (saved cs) ->
       exists rt p,
         method_cell Demo.env_ok false Demo.reference m i j = inr (rt, p) /\
         getitem a i j = inr p).
Proof.
  apply (@main_saves_sweep_cells Demo.env_ok ScriptDemo.tools_ok false false
           ScriptDemo.start (snd (main Demo.env_ok ScriptDemo.tools_ok false false ScriptDemo.start)) (fst (main Demo.env_ok ScriptDemo.tools_ok false false ScriptDemo.start))
           Demo.reference);
    [apply surjective_pairing | reflexivity].
Defined.

Lemma main_call_counts_witness :
  exists evs,
    log (sweeps (snd (main Demo.env_ok ScriptDemo.tools_ok false false ScriptDemo.start))) = log (sweeps ScriptDemo.start) ++ evs /\
    count is_build evs <= 18 /\ count is_restore evs <= 18 /\
    count is_run_encoder evs <= 9 /\ count is_run_decoder evs <= 25 /\
    count is_compress evs <= 0 /\
    (forall u, fst (main Demo.env_ok ScriptDemo.tools_ok false false ScriptDemo.start) = inr u ->
       count is_build evs = 18 /\ count is_restore evs = 18 /\
       count is_run_encoder evs = 9 /\ count is_run_decoder evs = 25 /\
       count is_compress evs = 0).
Proof.
  apply (@main_call_counts Demo.env_ok ScriptDemo.tools_ok false false
           ScriptDemo.start (snd (main Demo.env_ok ScriptDemo.tools_ok false false ScriptDemo.start)) (fst (main Demo.env_ok ScriptDemo.tools_ok false false ScriptDemo.start))
           Demo.reference);
    [apply surjective_pairing | reflexivity].
Defined.

End ScriptWitnesses.
